(** * Answers-identity resolution of the Dev Wizard terminal front end

    A shallow embedding of the identity part of [src/runtime/runDevWizard.ts]:
    the pure selection builder, the explicit-slug parser, the persisted
    snapshot scanner, the interactive prompt ladder, the orchestrator
    [resolveWizardIdentitySelection], the answers-path builder and the slice
    of [runDevWizard] that turns a resolved identity into an alias and a
    file path.

    Conventions.
    - A JavaScript string is a [string]; every character stands for one code
      unit in the range 0..255.
    - [undefined] is [None]; a value that is only tested for truthiness keeps
      its type and the test is written out ([truthy] for strings).
    - A function that may [throw] returns a [Try]; a function that awaits the
      prompt surface lives in [Prompt], which reads scripted responses and
      records what it asked.
    - The raw option objects handed in by the caller are association lists
      in insertion order, which is the order [Object.entries] walks them in.
    - A record the code builds as [{}] and fills by assignment is a plain
      object: it answers to its own properties and, behind them, to its
      prototype.  A record of strings is the [gmap] of its own properties;
      an assignment under the key [__proto__] reaches the setter of
      [Object.prototype], which ignores a string.  A record of metadata
      entries also carries the entry such an assignment has made its
      prototype ([MetadataRecord]).
    - The id of a declared segment is not the name of a member of
      [Object.prototype] ([seg_plainId]).  The code reads its records of
      strings by declared id; under such an id it would find the inherited
      member, a function where a string is meant, and carry it on as a
      segment value.  A segment value is a [string] here. *)

From Stdlib Require Import Ascii String DecimalString.
From stdpp Require Import gmap strings list.

Local Open Scope string_scope.

(** ** Strings as JavaScript sees them *)

Module JsString.

Definition dquote : string := String (Ascii.ascii_of_nat 34) EmptyString.

(** Truthiness of a string: only the empty string is falsy. *)
Definition truthy (s : string) : bool :=
  match s with
  | EmptyString => false
  | String _ _ => true
  end.

(** White space and line terminators among the code units 0..255:
    TAB, LF, VT, FF, CR, SPACE and NBSP.  Used by [trim] and by [\s]. *)
Definition isWhiteSpace (c : ascii) : bool :=
  let n := Ascii.nat_of_ascii c in
  (Nat.leb 9 n && Nat.leb n 13) || Nat.eqb n 32 || Nat.eqb n 160.

Fixpoint trimStart (s : string) : string :=
  match s with
  | EmptyString => EmptyString
  | String c rest => if isWhiteSpace c then trimStart rest else s
  end.

Fixpoint trimEnd (s : string) : string :=
  match s with
  | EmptyString => EmptyString
  | String c rest =>
      match trimEnd rest with
      | EmptyString => if isWhiteSpace c then EmptyString else String c EmptyString
      | kept => String c kept
      end
  end.

Definition trim (s : string) : string := trimEnd (trimStart s).

(** [s.split(sep)] for a one-character separator: never returns the
    empty array, the empty string splits into one empty piece. *)
Fixpoint split (sep : ascii) (s : string) : list string :=
  match s with
  | EmptyString => [EmptyString]
  | String c rest =>
      if Ascii.eqb c sep then EmptyString :: split sep rest
      else match split sep rest with
           | piece :: pieces => String c piece :: pieces
           | [] => [String c EmptyString]
           end
  end.

Definition join (sep : string) (pieces : list string) : string :=
  String.concat sep pieces.

Fixpoint startsWith (s prefix : string) : bool :=
  match prefix, s with
  | EmptyString, _ => true
  | String p prefix', String c s' => Ascii.eqb c p && startsWith s' prefix'
  | String _ _, EmptyString => false
  end.

(** What follows [prefix] in [s], when [s] starts with it. *)
Fixpoint stripPrefix (prefix s : string) : option string :=
  match prefix with
  | EmptyString => Some s
  | String p prefix' =>
      match s with
      | String c s' => if Ascii.eqb c p then stripPrefix prefix' s' else None
      | EmptyString => None
      end
  end.

Fixpoint endsWith (s suffix : string) : bool :=
  String.eqb s suffix ||
  match s with
  | EmptyString => false
  | String _ rest => endsWith rest suffix
  end.

(** [String(n)] for a non-negative integer. *)
Definition ofNat (n : nat) : string := NilEmpty.string_of_uint (Nat.to_uint n).

End JsString.

Import JsString.

(** ** Values read back from JSON *)

(** What [JSON.parse] returns.  An object lists its own properties in
    insertion order, each key once; a number keeps its literal, the code
    never looks inside one. *)
#[local] Unset Elimination Schemes.
Inductive JSON : Type :=
| JNull
| JBool (b : bool)
| JNumber (literal : string)
| JString (s : string)
| JArray (items : list JSON)
| JObject (fields : list (string * JSON)).
#[local] Set Elimination Schemes.

Definition Details : Type := list (string * JSON).

Module Json.

(** [isRecord(value)]: truthy, of type object and not an array. *)
Definition isRecord (v : JSON) : option (list (string * JSON)) :=
  match v with
  | JObject fields => Some fields
  | _ => None
  end.

(** Property read [obj[key]] on a parsed object. *)
Fixpoint get (key : string) (fields : list (string * JSON)) : option JSON :=
  match fields with
  | [] => None
  | (k, v) :: rest => if String.eqb k key then Some v else get key rest
  end.

(** [typeof v === "string" ? v : undefined] on an optional property. *)
Definition asString (v : option JSON) : option string :=
  match v with
  | Some (JString s) => Some s
  | _ => None
  end.

Definition asArray (v : option JSON) : option (list JSON) :=
  match v with
  | Some (JArray items) => Some items
  | _ => None
  end.

Definition asRecord (v : option JSON) : option (list (string * JSON)) :=
  match v with
  | Some w => isRecord w
  | None => None
  end.

(** [v && typeof v === "object" ? { ...v } : undefined] on an optional
    property: an object gives its properties, an array one property per
    index. *)
Definition asSpread (v : option JSON) : option (list (string * JSON)) :=
  match v with
  | Some (JObject fields) => Some fields
  | Some (JArray items) => Some (imap (λ index item, (ofNat index, item)) items)
  | _ => None
  end.

End Json.

(** ** Plain objects *)

(** The names [Object.prototype] answers to. *)
Definition objectPrototypeMembers : list string :=
  [ "constructor"; "hasOwnProperty"; "isPrototypeOf"; "propertyIsEnumerable";
    "toLocaleString"; "toString"; "valueOf"; "__defineGetter__"; "__defineSetter__";
    "__lookupGetter__"; "__lookupSetter__"; "__proto__" ].

Definition inheritedMember (key : string) : bool :=
  existsb (String.eqb key) objectPrototypeMembers.

(** [record[key] = value] for a string [value] on a record built as [{}]:
    every key makes or replaces an own property, except [__proto__], which
    reaches the inherited setter; the setter ignores a value that is not
    an object. *)
Definition assignString (record : gmap string string) (key value : string)
    : gmap string string :=
  if String.eqb key "__proto__" then record else <[key := value]> record.

(** ** Data model *)

(** One entry of [segment.options]. *)
Record IdentityOption : Type := {
  opt_value : string;
  opt_label : option string;
  opt_hint : option string
}.

(** One element of [DevWizardScenarioIdentity["segments"]]. *)
Record IdentitySegment : Type := {
  seg_id : string;
  seg_prompt : string;
  seg_options : option (list IdentityOption);
  seg_allowCustom : bool;
  seg_defaultValue : option string;
  seg_placeholder : option string;
  seg_plainId : inheritedMember seg_id = false
}.

Record DevWizardScenario : Type := {
  scn_id : string;
  scn_identity : option (list IdentitySegment)
}.

Inductive SelectionSource : Type := SrcOption | SrcCustom | SrcCli.

Record WizardIdentitySegmentSelection : Type := {
  sel_id : string;
  sel_value : string;
  sel_label : string;
  sel_source : SelectionSource;
  sel_details : option Details
}.

Record WizardIdentitySelection : Type := {
  slug : string;
  segments : list WizardIdentitySegmentSelection
}.

(** [IdentitySegmentMetadata]: both fields optional. *)
Record IdentitySegmentMetadata : Type := {
  md_label : option string;
  md_details : option Details
}.

(** A [Record<string, IdentitySegmentMetadata>] filled by assignment: its
    own properties, and the entry that was assigned under [__proto__], if
    any; an entry is an object, so the inherited setter makes it the
    prototype of the record and no own property comes of it. *)
Record MetadataRecord : Type := {
  md_own : gmap string IdentitySegmentMetadata;
  md_prototype : option IdentitySegmentMetadata
}.

(** The record with these own properties and the prototype it was born
    with. *)
Definition recordOf (own : gmap string IdentitySegmentMetadata) : MetadataRecord :=
  {| md_own := own; md_prototype := None |}.

(** [record[key] = entry]. *)
Definition assignEntry (record : MetadataRecord) (key : string)
    (entry : IdentitySegmentMetadata) : MetadataRecord :=
  if String.eqb key "__proto__"
  then {| md_own := md_own record; md_prototype := Some entry |}
  else {| md_own := <[key := entry]> (md_own record);
          md_prototype := md_prototype record |}.

(** What [record[id]] finds: an own entry; behind the own properties the
    prototype, which is the entry assigned under [__proto__] with its own
    [label] and [details], and behind it [Object.prototype], whose
    accessor [__proto__] hands out the prototype of the record and whose
    other members are functions. *)
Inductive MetadataProperty : Type :=
| FoundEntry (entry : IdentitySegmentMetadata)
| FoundLabel (text : string)
| FoundDetails (details : Details)
| FoundBuiltin
| FoundNothing.

Definition metadataProperty (record : MetadataRecord) (id : string) : MetadataProperty :=
  match md_own record !! id with
  | Some entry => FoundEntry entry
  | None =>
      let inherited (fromEntry : option MetadataProperty) : MetadataProperty :=
        match fromEntry with
        | Some found => found
        | None => if inheritedMember id then FoundBuiltin else FoundNothing
        end in
      match md_prototype record with
      | Some prototype =>
          if String.eqb id "label" then inherited (FoundLabel <$> md_label prototype)
          else if String.eqb id "details"
          then inherited (FoundDetails <$> md_details prototype)
          else if String.eqb id "__proto__" then FoundEntry prototype
          else inherited None
      | None => inherited None
      end
  end.

(** ** Errors and the [Try] monad of throwing code *)

Inductive Errno : Type := ENOENT | ENOTDIR | EACCES | EIO.

Inductive WizardError : Type :=
| Error (message : string)
| IdentityPromptCancelledError
| PersistedAnswersStrategyCancelledError
| ErrnoException (code : Errno) (path : string).

Inductive Try (A : Type) : Type :=
| Ok (a : A)
| Throw (e : WizardError).
Arguments Ok {A} a.
Arguments Throw {A} e.

Definition bindT {A B} (m : Try A) (k : A → Try B) : Try B :=
  match m with
  | Ok a => k a
  | Throw e => Throw e
  end.

Notation "x <~ m ; k" := (bindT m (λ x, k))
  (at level 20, m at level 100, k at level 200, only parsing).
Notation "' pat <~ m ; k" := (bindT m (λ x, match x with pat => k end))
  (at level 20, pat pattern, m at level 100, k at level 200, only parsing).

(** [xs.map(f)] where [f] may throw: the first failure aborts the map. *)
Fixpoint mapT {A B} (f : A → Try B) (xs : list A) : Try (list B) :=
  match xs with
  | [] => Ok []
  | x :: rest =>
      y <~ f x ;
      ys <~ mapT f rest ;
      Ok (y :: ys)
  end.

(** ** IdentitySelectionBuilder *)

Definition slugOf (selections : list WizardIdentitySegmentSelection) : string :=
  join "/" (map sel_value selections).

(** The tail of [buildWizardIdentitySegmentSelection] and the body of the
    per-segment closure of [applyIdentityMetadataOverrides]: a string label
    replaces the label, an object [details] replaces the details. *)
Definition overrideMetadata (override : IdentitySegmentMetadata)
    (selection : WizardIdentitySegmentSelection) : WizardIdentitySegmentSelection :=
  {| sel_id := sel_id selection;
     sel_value := sel_value selection;
     sel_label := default (sel_label selection) (md_label override);
     sel_source := sel_source selection;
     sel_details :=
       match md_details override with
       | Some d => Some d
       | None => sel_details selection
       end |}.

Definition findOption (segment : IdentitySegment) (value : string) : option IdentityOption :=
  options ← seg_options segment;
  find (λ candidate, String.eqb (opt_value candidate) value) options.

Definition invalidCustomValueMessage (segment : IdentitySegment) : string :=
  "Identity segment " +:+ dquote +:+ seg_id segment +:+ dquote +:+
  " does not allow custom values. Valid options: " +:+
  match seg_options segment with
  | Some options => join ", " (map opt_value options)
  | None => "n/a"
  end +:+ ".".

Definition buildWizardIdentitySegmentSelection
    (segment : IdentitySegment) (value : string) (source : SelectionSource)
    (metadataOverride : option IdentitySegmentMetadata)
    (acceptUnlistedValues : bool) : Try WizardIdentitySegmentSelection :=
  selection <~
    match findOption segment value with
    | Some option =>
        Ok {| sel_id := seg_id segment;
              sel_value := opt_value option;
              sel_label := default (opt_value option) (opt_label option);
              sel_source := source;
              sel_details := None |}
    | None =>
        if seg_allowCustom segment || acceptUnlistedValues
        then Ok {| sel_id := seg_id segment;
                   sel_value := value;
                   sel_label := value;
                   sel_source := source;
                   sel_details := None |}
        else Throw (Error (invalidCustomValueMessage segment))
    end ;
  Ok match metadataOverride with
     | Some override => overrideMetadata override selection
     | None => selection
     end.

(** [record?.[segment.id]] on a record of strings.  The id of a declared
    segment names no member of [Object.prototype], so only an own property
    answers to it. *)
Definition stringOf (record : option (gmap string string)) (segment : IdentitySegment)
    : option string :=
  record ≫= (λ own, own !! seg_id segment).

(** [provided?.[segment.id]] followed by the truthiness test on the value. *)
Definition overrideValueOf (provided : option (gmap string string))
    (segment : IdentitySegment) : option string :=
  match stringOf provided segment with
  | Some v => if truthy v then Some v else None
  | None => None
  end.

(** A value found under an id as the code reads a metadata override off
    it: the test [if (override)], then [typeof override.label === "string"]
    and [override.details && typeof override.details === "object"].  A
    string and a function have neither property; the details of the
    prototype entry are an object and may hold both. *)
Definition asMetadataOverride (found : MetadataProperty) : option IdentitySegmentMetadata :=
  match found with
  | FoundEntry entry => Some entry
  | FoundLabel text =>
      if truthy text then Some {| md_label := None; md_details := None |} else None
  | FoundDetails details =>
      Some {| md_label := Json.asString (Json.get "label" details);
              md_details := Json.asSpread (Json.get "details" details) |}
  | FoundBuiltin => Some {| md_label := None; md_details := None |}
  | FoundNothing => None
  end.

(** [providedMetadata?.[id]] as an override. *)
Definition metadataOf (providedMetadata : option MetadataRecord) (id : string)
    : option IdentitySegmentMetadata :=
  providedMetadata ≫= (λ record, asMetadataOverride (metadataProperty record id)).

(** The [fallbackMap] of [buildIdentitySelectionFromSources]: a later
    entry with the same id replaces an earlier one. *)
Definition fallbackMapOf (fallback : option WizardIdentitySelection)
    : gmap string WizardIdentitySegmentSelection :=
  match fallback with
  | Some selection =>
      foldl (λ m entry, <[sel_id entry := entry]> m) ∅ (segments selection)
  | None => ∅
  end.

Record IdentityResolution : Type := {
  selection : option WizardIdentitySelection;
  missingSegmentIds : list string
}.

(** The [for (const segment of segments)] loop, with its two accumulators. *)
Fixpoint buildLoop (provided : option (gmap string string))
    (providedMetadata : option MetadataRecord)
    (fallbackMap : gmap string WizardIdentitySegmentSelection)
    (todo : list IdentitySegment)
    (selections : list WizardIdentitySegmentSelection) (missing : list string)
    : Try (list WizardIdentitySegmentSelection * list string) :=
  match todo with
  | [] => Ok (selections, missing)
  | segment :: rest =>
      match overrideValueOf provided segment with
      | Some overrideValue =>
          built <~ buildWizardIdentitySegmentSelection segment overrideValue SrcCli
                     (metadataOf providedMetadata (seg_id segment)) false ;
          buildLoop provided providedMetadata fallbackMap rest
            (selections ++ [built]) missing
      | None =>
          match fallbackMap !! seg_id segment with
          | Some fallbackEntry =>
              buildLoop provided providedMetadata fallbackMap rest
                (selections ++ [fallbackEntry]) missing
          | None =>
              buildLoop provided providedMetadata fallbackMap rest
                selections (missing ++ [seg_id segment])
          end
      end
  end.

Definition buildIdentitySelectionFromSources
    (declared : list IdentitySegment)
    (provided : option (gmap string string))
    (providedMetadata : option MetadataRecord)
    (fallback : option WizardIdentitySelection) : Try IdentityResolution :=
  '(selections, missing) <~
    buildLoop provided providedMetadata (fallbackMapOf fallback) declared [] [] ;
  Ok match missing with
     | [] => {| selection := Some {| slug := slugOf selections; segments := selections |};
                missingSegmentIds := [] |}
     | _ => {| selection := None; missingSegmentIds := missing |}
     end.

(** [applyIdentityMetadataOverrides]: declared next to the builder, called
    from nowhere in the file. *)
Definition applyIdentityMetadataOverrides (chosen : WizardIdentitySelection)
    (metadataOverrides : option MetadataRecord)
    : WizardIdentitySelection :=
  match metadataOverrides with
  | None => chosen
  | Some overrides =>
      {| slug := slug chosen;
         segments :=
           map (λ segment,
                  match metadataOf (Some overrides) (sel_id segment) with
                  | Some override => overrideMetadata override segment
                  | None => segment
                  end)
               (segments chosen) |}
  end.

(** ** Explicit slug *)

(** [xs.map((x, index) => f(index, x))] where [f] may throw. *)
Fixpoint mapiT {A B} (f : nat → A → Try B) (index : nat) (xs : list A) : Try (list B) :=
  match xs with
  | [] => Ok []
  | x :: rest =>
      y <~ f index x ;
      ys <~ mapiT f (S index) rest ;
      Ok (y :: ys)
  end.

Definition slugParts (slugText : string) : list string :=
  List.filter truthy (map trim (split "/" slugText)).

Definition segmentCountMismatchMessage (expected received : nat) : string :=
  "--answers-identity requires " +:+ ofNat expected +:+
  " segment(s) but received " +:+ ofNat received +:+ ".".

Definition parseIdentitySlug (slugText : string) (declared : list IdentitySegment)
    : Try WizardIdentitySelection :=
  let parts := slugParts slugText in
  if negb (length parts =? length declared)%nat
  then Throw (Error (segmentCountMismatchMessage (length declared) (length parts)))
  else
    selections <~
      mapiT (λ index segment,
               buildWizardIdentitySegmentSelection segment
                 (default "" (parts !! index)) SrcCli None true)
            0 declared ;
    Ok {| slug := slugOf selections; segments := selections |}.

(** ** Normalising the caller's override objects *)

(** [normalizeIdentitySegmentOverrides]: the record starts as [{}] and is
    filled by [normalized[trimmedKey] = trimmedValue]. *)
Definition normalizeIdentitySegmentOverrides (overrides : option (list (string * string)))
    : option (gmap string string) :=
  entries ← overrides;
  let normalized : gmap string string :=
    foldl (λ acc '(key, value),
             let trimmedKey := trim key in
             let trimmedValue := trim value in
             if negb (truthy trimmedKey) || negb (truthy trimmedValue)
             then acc
             else assignString acc trimmedKey trimmedValue)
          ∅ entries in
  if bool_decide (normalized = ∅) then None else Some normalized.

(** [normalizeIdentitySegmentMetadata]: filled by
    [normalized[trimmedKey] = entry]; the result counts as empty when it
    has no own key. *)
Definition normalizeIdentitySegmentMetadata
    (metadata : option (list (string * IdentitySegmentMetadata)))
    : option MetadataRecord :=
  entries ← metadata;
  let normalized : MetadataRecord :=
    foldl (λ acc '(key, value),
             let trimmedKey := trim key in
             if negb (truthy trimmedKey) then acc
             else
               let entryLabel :=
                 match md_label value with
                 | Some text => if truthy (trim text) then Some (trim text) else None
                 | None => None
                 end in
               let entryDetails :=
                 match md_details value with
                 | Some ((_ :: _) as cloned) => Some cloned
                 | _ => None
                 end in
               match entryLabel, entryDetails with
               | None, None => acc
               | _, _ => assignEntry acc trimmedKey {| md_label := entryLabel;
                                                       md_details := entryDetails |}
               end)
          (recordOf ∅) entries in
  if bool_decide (md_own normalized = ∅) then None else Some normalized.

(** [toIdentitySegmentDefaults]: [defaults[segment.id] = segment.value] on
    a record that starts as [{}]. *)
Definition toIdentitySegmentDefaults (chosen : WizardIdentitySelection)
    : gmap string string :=
  foldl (λ defaults segment,
           if negb (truthy (sel_id segment)) || negb (truthy (sel_value segment))
           then defaults
           else assignString defaults (sel_id segment) (sel_value segment))
        ∅ (segments chosen).

(** ** Default-value templates *)

(** [\w] or a hyphen: the class [[\w-]] of the placeholder pattern. *)
Definition isWordOrHyphen (c : ascii) : bool :=
  let n := Ascii.nat_of_ascii c in
  (Nat.leb 48 n && Nat.leb n 57) || (Nat.leb 65 n && Nat.leb n 90) ||
  (Nat.leb 97 n && Nat.leb n 122) || Nat.eqb n 95 || Nat.eqb n 45.

(** The longest prefix made of [[\w-]] characters, and what follows it. *)
Fixpoint takeWord (s : string) : string * string :=
  match s with
  | EmptyString => (EmptyString, EmptyString)
  | String c rest =>
      if isWordOrHyphen c
      then let '(word, after) := takeWord rest in (String c word, after)
      else (EmptyString, s)
  end.

(** One attempt of [/{{\s*([\w-]+)\s*}}/] at the start of [s]: the captured
    id and the text after the match.  White space, [[\w-]] and the closing
    brace are pairwise disjoint classes, so the greedy run of each
    quantifier is the only way the pattern can match and no backtracking
    is involved. *)
Definition matchPlaceholder (s : string) : option (string * string) :=
  match stripPrefix "{{" s with
  | Some inner =>
      let '(word, after) := takeWord (trimStart inner) in
      if truthy word
      then match stripPrefix "}}" (trimStart after) with
           | Some rest => Some (word, rest)
           | None => None
           end
      else None
  | None => None
  end.

(** [template.replace(/{{\s*([\w-]+)\s*}}/g, replacer)]: scan from the left,
    replace a match and resume after it, otherwise keep one character.
    [fuel] bounds the number of steps; every step consumes at least one
    character, so the length of the text plus one is enough (see
    [replacePlaceholders_unfold]). *)
Fixpoint replaceLoop (replacer : string → string) (fuel : nat) (s : string) : string :=
  match fuel with
  | O => s
  | S fuel' =>
      match matchPlaceholder s with
      | Some (segmentId, rest) => replacer segmentId +:+ replaceLoop replacer fuel' rest
      | None =>
          match s with
          | EmptyString => EmptyString
          | String c rest => String c (replaceLoop replacer fuel' rest)
          end
      end
  end.

Definition replacePlaceholders (replacer : string → string) (s : string) : string :=
  replaceLoop replacer (S (String.length s)) s.

Definition renderIdentityDefaultTemplate (template : string)
    (selectionMap : gmap string WizardIdentitySegmentSelection) : option string :=
  if negb (truthy template) then None
  else
    let rendered :=
      replacePlaceholders
        (λ segmentId, default "" (sel_value <$> selectionMap !! segmentId))
        template in
    let trimmed := trim rendered in
    if truthy trimmed then Some trimmed else None.

(** ** What a run does to the outside world *)

(** One choice handed to [select]. *)
Record SelectOption : Type := {
  so_value : string;
  so_label : string;
  so_hint : option string
}.

Inductive Event : Type :=
| EvReaddir (dir : string)
| EvReadFile (filePath : string)
| EvSelect (message : string) (options : list SelectOption)
| EvText (message : string) (placeholder initialValue : option string)
| EvCancel (message : string).

(** ** The answers tree on disk *)

(** What [readFile] followed by [JSON.parse] makes of a file: the read
    fails with an error code, or it yields text that parses ([Some]) or
    makes [JSON.parse] throw ([None]). *)
Inductive FileRead : Type :=
| ReadFails (code : Errno)
| ReadText (parsed : option JSON).

(** A directory entry as [readdir(..., {withFileTypes: true})] reports it,
    together with what a later access finds there.  [NDirError] is an entry
    reported as a directory whose own listing fails; [NOther] is neither a
    regular file nor a directory. *)
#[local] Unset Elimination Schemes.
Inductive FsNode : Type :=
| NFile (content : FileRead)
| NDir (entries : list (string * FsNode))
| NDirError (code : Errno)
| NOther.
#[local] Set Elimination Schemes.

(** The disk maps the path of a scenario directory to what is there. *)
Definition Disk : Type := string → option FsNode.

(** A file the walk has found: the path it is listed under and what
    reading that path yields. *)
Record AnswerFile : Type := {
  af_path : string;
  af_read : FileRead
}.

(** Disk access: a log of what was touched and a value or an exception. *)
Definition Scan (A : Type) : Type := list Event * Try A.

Definition bindS {A B} (m : Scan A) (k : A → Scan B) : Scan B :=
  match m with
  | (log, Ok a) => let '(log', outcome) := k a in ((log ++ log')%list, outcome)
  | (log, Throw e) => (log, Throw e)
  end.

Notation "x <@ m ; k" := (bindS m (λ x, k))
  (at level 20, m at level 100, k at level 200, only parsing).

Definition retS {A} (a : A) : Scan A := ([], Ok a).

(** ** PersistedSnapshotScanner *)

(** One round of the [for (let index = 0; ...)] loop of
    [readIdentitySelectionSnapshot]. *)
Definition readStoredSegment (expectedSegments : list IdentitySegment)
    (segmentsValue : list JSON) (index : nat) : option WizardIdentitySegmentSelection :=
  stored ← segmentsValue !! index ≫= Json.isRecord;
  value ← Json.asString (Json.get "value" stored);
  let id :=
    match Json.asString (Json.get "id" stored) with
    | Some storedId => storedId
    | None =>
        match expectedSegments !! index with
        | Some segment => seg_id segment
        | None => "segment-" +:+ ofNat (index + 1)
        end
    end in
  Some {| sel_id := id;
          sel_value := value;
          sel_label := default value (Json.asString (Json.get "label" stored));
          sel_source := SrcCli;
          sel_details := Json.asRecord (Json.get "details" stored) |}.

(** [readIdentitySelectionSnapshot] from the parsed value on. *)
Definition snapshotOfParsed (parsed : JSON) (expectedSegments : list IdentitySegment)
    : option WizardIdentitySelection :=
  root ← Json.isRecord parsed;
  meta ← Json.asRecord (Json.get "meta" root);
  identity ← Json.asRecord (Json.get "identity" meta);
  storedSlug ← Json.asString (Json.get "slug" identity);
  segmentsValue ← Json.asArray (Json.get "segments" identity);
  if negb (truthy storedSlug) ||
     negb (length segmentsValue =? length expectedSegments)%nat
  then None
  else
    selections ← mapM (readStoredSegment expectedSegments segmentsValue)
                      (seq 0 (length expectedSegments));
    Some {| slug := storedSlug; segments := selections |}.

(** [readIdentitySelectionSnapshot(filePath, expectedSegments)]: a file
    that has vanished or does not parse is no snapshot, any other read
    error is thrown again. *)
Definition readIdentitySelectionSnapshot (file : AnswerFile)
    (expectedSegments : list IdentitySegment) : Scan (option WizardIdentitySelection) :=
  ([EvReadFile (af_path file)],
   match af_read file with
   | ReadFails ENOENT => Ok None
   | ReadFails code => Throw (ErrnoException code (af_path file))
   | ReadText None => Ok None
   | ReadText (Some parsed) => Ok (snapshotOfParsed parsed expectedSegments)
   end).

(** The [selections] map of [collectPersistedIdentitySelections]: insertion
    order is kept, a slug already present is left alone. *)
Definition rememberSelection (selections : list WizardIdentitySelection)
    (found : WizardIdentitySelection) : list WizardIdentitySelection :=
  if existsb (λ known, String.eqb (slug known) (slug found)) selections
  then selections
  else selections ++ [found].

(** The [for (const filePath of files)] loop of
    [collectPersistedIdentitySelections]. *)
Fixpoint readSnapshots (expectedSegments : list IdentitySegment)
    (files : list AnswerFile) (selections : list WizardIdentitySelection)
    : Scan (list WizardIdentitySelection) :=
  match files with
  | [] => retS selections
  | file :: rest =>
      snapshot <@ readIdentitySelectionSnapshot file expectedSegments ;
      match snapshot with
      | None => readSnapshots expectedSegments rest selections
      | Some found =>
          readSnapshots expectedSegments rest (rememberSelection selections found)
      end
  end.

(** ** Collaborators outside this package *)

(** The functions of [node:path] the code calls. *)
Class NodePath : Type := {
  path_join : list string → string;
  path_isAbsolute : string → bool;
  path_resolve : string → string → string;
  path_basename : string → string → string;
  path_extname : string → string
}.

(** One stored identity segment of an answers file's [meta.identity]. *)
Record PersistedSegment : Type := {
  ps_id : string;
  ps_value : string;
  ps_label : string;
  ps_details : option Details
}.

(** [meta.identity] as the persistence manager hands it back; a stored
    file may lack either field. *)
Record PersistedIdentity : Type := {
  pi_slug : option string;
  pi_segments : option (list PersistedSegment)
}.

(** [PromptPersistenceMetadata], without its [execution] block. *)
Record PromptPersistenceMetadata : Type := {
  meta_scenarioId : string;
  meta_identity : option PersistedIdentity
}.

(** What the run observes of a [PromptPersistenceManager]. *)
Record PromptPersistenceManager : Type := {
  getMetadata : option PromptPersistenceMetadata;
  didLoadExistingSnapshot : bool;
  getFilePath : string
}.

(** The exports of the engine's [promptPersistence] module used here. *)
Class PromptPersistence : Type := {
  sanitizePersistenceSegment : string → string;
  createPromptPersistenceManager :
    string → string → option string → PromptPersistenceMetadata → PromptPersistenceManager
}.

Section AnswerTree.

Context `{NodePath} `{PromptPersistence}.

(** [collectIdentityAnswerFiles(dir)] when [dir] holds [node]: the
    listing of a directory is walked in order, a sub-directory is
    collected in place, a regular file is kept when its name ends in
    [.json]; a listing that fails with ENOENT or ENOTDIR counts as
    empty, any other failure is thrown again. *)
Fixpoint collectIdentityAnswerFiles (dir : string) (node : FsNode) {struct node}
    : Scan (list AnswerFile) :=
  match node with
  | NDir entries =>
      _ <@ ([EvReaddir dir], Ok tt) ;
      (fix walk (entries : list (string * FsNode)) (files : list AnswerFile)
         {struct entries} : Scan (list AnswerFile) :=
         match entries with
         | [] => retS files
         | (name, child) :: more =>
             let entryPath := path_join [dir; name] in
             match child with
             | NDir _ | NDirError _ =>
                 nested <@ collectIdentityAnswerFiles entryPath child ;
                 walk more (files ++ nested)%list
             | NFile content =>
                 if endsWith name ".json"
                 then walk more
                        (files ++ [{| af_path := entryPath; af_read := content |}])%list
                 else walk more files
             | NOther => walk more files
             end
         end) entries []
  | NDirError code =>
      ([EvReaddir dir],
       match code with
       | ENOENT | ENOTDIR => Ok []
       | _ => Throw (ErrnoException code dir)
       end)
  | NFile _ | NOther => ([EvReaddir dir], Ok [])
  end.

(** The same call when the disk is asked what [dir] is. *)
Definition collectIdentityAnswerFilesAt (disk : Disk) (dir : string)
    : Scan (list AnswerFile) :=
  match disk dir with
  | Some node => collectIdentityAnswerFiles dir node
  | None => ([EvReaddir dir], Ok [])
  end.

Definition scenarioAnswersDir (repoRoot scenarioId : string) : string :=
  path_join [repoRoot; ".dev-wizard"; "answers"; sanitizePersistenceSegment scenarioId].

(** [collectPersistedIdentitySelections({repoRoot, scenarioId, segments})]. *)
Definition collectPersistedIdentitySelections (disk : Disk)
    (repoRoot scenarioId : string) (declared : list IdentitySegment)
    : Scan (list WizardIdentitySelection) :=
  if (length declared =? 0)%nat then retS []
  else
    files <@ collectIdentityAnswerFilesAt disk (scenarioAnswersDir repoRoot scenarioId) ;
    if (length files =? 0)%nat then retS []
    else readSnapshots declared files [].

(** ** PersistenceAddressBuilder *)

(** [xs[i]] for a possibly negative index. *)
Definition at_index {A} (xs : list A) (i : Z) : option A :=
  if (i <? 0)%Z then None else xs !! Z.to_nat i.

(** [buildIdentityAnswersPath(repoRoot, scenarioId, selection)]; the
    slice bound and the index of the last element are computed in [Z], as
    [length - 1] is negative for an empty list. *)
Definition buildIdentityAnswersPath (repoRoot scenarioId : string)
    (chosen : WizardIdentitySelection) : string :=
  let baseDir := path_join [repoRoot; ".dev-wizard"; "answers"] in
  let sanitizedScenario := sanitizePersistenceSegment scenarioId in
  let sanitizedSegments :=
    map (λ segment, sanitizePersistenceSegment (sel_value segment)) (segments chosen) in
  let directorySegments :=
    List.filter truthy
      (sanitizedScenario ::
       take (Z.to_nat (Z.max (Z.of_nat (length sanitizedSegments) - 1) 0))
            sanitizedSegments) in
  let fileNameSegment :=
    match at_index sanitizedSegments (Z.of_nat (length sanitizedSegments) - 1) with
    | Some last => if truthy last then last else "answers"
    | None => "answers"
    end in
  path_join (baseDir :: directorySegments ++ [fileNameSegment +:+ ".json"])%list.

End AnswerTree.

(** ** The prompt surface *)

(** What a prompt resolves to: the cancel symbol or a string.  The guard
    of [promptForIdentitySegment] against a choice that is neither has no
    case to cover here. *)
Inductive Response : Type :=
| Cancelled
| Answered (value : string).

(** The outcome of code that prompts, run against the responses the
    operator will give: it returns or throws, leaving the responses it did
    not read, or it is still waiting at a prompt when they run out. *)
Inductive Result (A : Type) : Type :=
| Done (a : A) (rest : list Response) (log : list Event)
| Raised (e : WizardError) (rest : list Response) (log : list Event)
| Awaiting (log : list Event).
Arguments Done {A} a rest log.
Arguments Raised {A} e rest log.
Arguments Awaiting {A} log.

Definition Prompt (A : Type) : Type := list Response → Result A.

Definition earlier {A} (before : list Event) (r : Result A) : Result A :=
  match r with
  | Done a rest log => Done a rest (before ++ log)
  | Raised e rest log => Raised e rest (before ++ log)
  | Awaiting log => Awaiting (before ++ log)
  end.

Definition retP {A} (a : A) : Prompt A := λ script, Done a script [].

Definition throwP {A} (e : WizardError) : Prompt A := λ script, Raised e script [].

Definition bindP {A B} (m : Prompt A) (k : A → Prompt B) : Prompt B :=
  λ script,
    match m script with
    | Done a rest log => earlier log (k a rest)
    | Raised e rest log => Raised e rest log
    | Awaiting log => Awaiting log
    end.

Notation "x <- m ; k" := (bindP m (λ x, k))
  (at level 20, m at level 100, k at level 200, only parsing).

Definition liftT {A} (t : Try A) : Prompt A :=
  match t with
  | Ok a => retP a
  | Throw e => throwP e
  end.

Definition liftS {A} (s : Scan A) : Prompt A :=
  λ script,
    match s with
    | (log, Ok a) => Done a script log
    | (log, Throw e) => Raised e script log
    end.

Definition select (message : string) (options : list SelectOption) : Prompt Response :=
  λ script,
    match script with
    | [] => Awaiting [EvSelect message options]
    | response :: rest => Done response rest [EvSelect message options]
    end.

Definition text (message : string) (placeholder initialValue : option string)
    : Prompt Response :=
  λ script,
    match script with
    | [] => Awaiting [EvText message placeholder initialValue]
    | response :: rest => Done response rest [EvText message placeholder initialValue]
    end.

Definition cancel (message : string) : Prompt unit :=
  λ script, Done tt script [EvCancel message].

(** ** InteractiveIdentityPrompter *)

Definition identityCancelMessage : string :=
  "Execution cancelled before selecting an answers identity.".

Definition customChoice : SelectOption :=
  {| so_value := "__custom__"; so_label := "Custom value";
     so_hint := Some "Enter a custom value" |}.

Definition savedChoice (defaultValue : string) : SelectOption :=
  {| so_value := "__saved__"; so_label := defaultValue; so_hint := Some "Saved value" |}.

(** A value tested for truthiness before use: [undefined] and the empty
    string both count as absent. *)
Definition whenTruthy (value : option string) : option string :=
  match value with
  | Some v => if truthy v then Some v else None
  | None => None
  end.

Definition promptForCustomIdentityValue (segment : IdentitySegment)
    (selectionMap : gmap string WizardIdentitySegmentSelection)
    (initialValueOverride : option string) : Prompt string :=
  let initialValue :=
    match whenTruthy initialValueOverride with
    | Some override => Some override
    | None =>
        match whenTruthy (seg_defaultValue segment) with
        | Some template => renderIdentityDefaultTemplate template selectionMap
        | None => None
        end
    end in
  response <- text (seg_prompt segment) (seg_placeholder segment) initialValue ;
  match response with
  | Cancelled =>
      _ <- cancel identityCancelMessage ;
      throwP IdentityPromptCancelledError
  | Answered reply =>
      let trimmed := trim reply in
      if (String.length trimmed =? 0)%nat
      then throwP (Error ("Identity segment " +:+ dquote +:+ seg_id segment +:+ dquote +:+
                           " requires a value."))
      else retP trimmed
  end.

(** The choices shown for a segment with options: the declared ones, the
    custom entry when allowed, and the default floated or prepended. *)
Definition segmentChoices (declaredOptions : list IdentityOption) (allowCustom : bool)
    (defaultValue : option string) : list SelectOption :=
  let listed :=
    map (λ option, {| so_value := opt_value option;
                      so_label := default (opt_value option) (opt_label option);
                      so_hint := opt_hint option |})
        declaredOptions in
  let options := if allowCustom then (listed ++ [customChoice])%list else listed in
  match whenTruthy defaultValue with
  | Some saved =>
      match list_find (λ option, so_value option = saved) options with
      | Some (position, existing) => existing :: delete position options
      | None => if allowCustom then savedChoice saved :: options else options
      end
  | None => options
  end.

Definition promptForIdentitySegment (segment : IdentitySegment)
    (selectionMap : gmap string WizardIdentitySegmentSelection)
    (metadataOverride : option IdentitySegmentMetadata)
    (defaultValue : option string) : Prompt WizardIdentitySegmentSelection :=
  match seg_options segment with
  | Some ((_ :: _) as declaredOptions) =>
      let allowCustom := seg_allowCustom segment in
      choice <- select (seg_prompt segment)
                  (segmentChoices declaredOptions allowCustom defaultValue) ;
      match choice with
      | Cancelled =>
          _ <- cancel identityCancelMessage ;
          throwP IdentityPromptCancelledError
      | Answered chosen =>
          if String.eqb chosen "__saved__"
          then liftT (buildWizardIdentitySegmentSelection segment
                        (default "" defaultValue) SrcCli metadataOverride true)
          else if String.eqb chosen "__custom__"
          then
            customValue <- promptForCustomIdentityValue segment selectionMap defaultValue ;
            liftT (buildWizardIdentitySegmentSelection segment customValue SrcCustom
                     metadataOverride false)
          else
            liftT (buildWizardIdentitySegmentSelection segment chosen
                     (match findOption segment chosen with
                      | Some _ => SrcOption
                      | None => SrcCli
                      end)
                     metadataOverride false)
      end
  | _ =>
      if negb (seg_allowCustom segment)
      then throwP (Error ("Identity segment " +:+ dquote +:+ seg_id segment +:+ dquote +:+
                           " must define options or set allowCustom: true."))
      else
        customValue <- promptForCustomIdentityValue segment selectionMap defaultValue ;
        liftT (buildWizardIdentitySegmentSelection segment customValue SrcCustom
                 metadataOverride false)
  end.

(** The [for (const segment of segments)] loop of
    [promptForIdentitySegments] with its list and its map of selections. *)
Fixpoint promptSegmentsLoop (provided : option (gmap string string))
    (metadataOverrides : option MetadataRecord)
    (defaults : option (gmap string string))
    (todo : list IdentitySegment)
    (selections : list WizardIdentitySegmentSelection)
    (selectionMap : gmap string WizardIdentitySegmentSelection)
    : Prompt WizardIdentitySelection :=
  match todo with
  | [] => retP {| slug := slugOf selections; segments := selections |}
  | segment :: rest =>
      resolved <-
        match overrideValueOf provided segment with
        | Some overrideValue =>
            liftT (buildWizardIdentitySegmentSelection segment overrideValue SrcCli
                     (metadataOf metadataOverrides (seg_id segment)) false)
        | None =>
            promptForIdentitySegment segment selectionMap
              (metadataOf metadataOverrides (seg_id segment))
              (stringOf defaults segment)
        end ;
      promptSegmentsLoop provided metadataOverrides defaults rest
        (selections ++ [resolved]) (<[seg_id segment := resolved]> selectionMap)
  end.

Definition promptForIdentitySegments (declared : list IdentitySegment)
    (provided : option (gmap string string))
    (metadataOverrides : option MetadataRecord)
    (defaults : option (gmap string string)) : Prompt WizardIdentitySelection :=
  promptSegmentsLoop provided metadataOverrides defaults declared [] ∅.

Definition existingIdentityMessage : string :=
  "Select an existing answers identity (or create a new one):".

Definition existingIdentityChoices (existing : list WizardIdentitySelection)
    : list SelectOption :=
  (map (λ known,
          {| so_value := slug known;
             so_label := slug known;
             so_hint :=
               Some (join ", "
                       (map (λ segment, sel_id segment +:+ "=" +:+ sel_value segment)
                            (segments known))) |})
       existing ++
   [{| so_value := "__new__"; so_label := "Create a new identity";
       so_hint := Some "Answer the identity prompts before continuing." |}])%list.

(** [promptForExistingIdentitySelection]: every round of its
    [while (true)] reads one response, so the loop runs on the script. *)
Fixpoint promptForExistingIdentitySelection (existing : list WizardIdentitySelection)
    (declared : list IdentitySegment)
    (metadataOverrides : option MetadataRecord)
    (script : list Response) : Result WizardIdentitySelection :=
  let asked := EvSelect existingIdentityMessage (existingIdentityChoices existing) in
  match script with
  | [] => Awaiting [asked]
  | Cancelled :: rest =>
      Raised IdentityPromptCancelledError rest [asked; EvCancel identityCancelMessage]
  | Answered response :: rest =>
      if String.eqb response "__new__"
      then earlier [asked]
             (promptForIdentitySegments declared None metadataOverrides None rest)
      else
        match find (λ entry, String.eqb (slug entry) response) existing with
        | Some selected =>
            earlier [asked]
              (promptForIdentitySegments declared None metadataOverrides
                 (Some (toIdentitySegmentDefaults selected)) rest)
        | None =>
            earlier [asked]
              (promptForExistingIdentitySelection existing declared metadataOverrides rest)
        end
  end.

(** ** PersistedAnswersStrategyPrompter *)

Inductive PersistedAnswersStrategy : Type :=
| StrategyReuse
| StrategyReview
| StrategyReset.

Definition strategyChoices : list SelectOption :=
  [ {| so_value := "reuse"; so_label := "Reuse saved answers";
       so_hint := Some "Skip prompts and keep the existing values for this run." |};
    {| so_value := "review"; so_label := "Review and update answers";
       so_hint := Some "Use saved answers as defaults, but run every prompt again." |};
    {| so_value := "reset"; so_label := "Start from scratch";
       so_hint := Some "Clear saved answers before prompting and capture new values." |} ].

(** The message without the colour codes [chalk.cyan] wraps the path in. *)
Definition strategyMessage (filePath : string) : string :=
  "Saved answers file " +:+ filePath +:+ " already exists. How should Dev Wizard proceed?".

Definition strategyCancelMessage : string :=
  "Execution cancelled before confirming how to use the saved answers file.".

Fixpoint promptForPersistedAnswersStrategy (filePath : string) (script : list Response)
    : Result PersistedAnswersStrategy :=
  let asked := EvSelect (strategyMessage filePath) strategyChoices in
  match script with
  | [] => Awaiting [asked]
  | Cancelled :: rest =>
      Raised PersistedAnswersStrategyCancelledError rest
        [asked; EvCancel strategyCancelMessage]
  | Answered response :: rest =>
      if String.eqb response "reuse" then Done StrategyReuse rest [asked]
      else if String.eqb response "review" then Done StrategyReview rest [asked]
      else if String.eqb response "reset" then Done StrategyReset rest [asked]
      else earlier [asked] (promptForPersistedAnswersStrategy filePath rest)
  end.

(** ** IdentityResolver *)

Record ResolveOptions : Type := {
  ro_repoRoot : string;
  ro_scenario : DevWizardScenario;
  ro_providedSlug : option string;
  ro_providedSegments : option (list (string * string));
  ro_providedSegmentDetails : option (list (string * IdentitySegmentMetadata));
  ro_usingExternalAnswers : bool;
  ro_interactive : bool
}.

(** The fields of [DevWizardOptions] the answers stage reads. *)
Record DevWizardOptions : Type := {
  answersPathUsed : option string;
  answersPathImplicit : bool;
  answersIdentity : option string;
  answersIdentitySegments : option (list (string * string));
  answersIdentitySegmentDetails : option (list (string * IdentitySegmentMetadata));
  loadPersistedAnswers : bool
}.

(** What the answers stage hands to the rest of the run. *)
Record AnswersSetup : Type := {
  identitySelection : option WizardIdentitySelection;
  answersAlias : string;
  persistencePath : option string;
  promptPersistence : PromptPersistenceManager;
  usePromptPersistenceAnswers : bool;
  resetAllAnswers : bool
}.

(** [return { exitCode }] from the stage, or the run goes on. *)
Inductive StageOutcome : Type :=
| Exit (exitCode : Z)
| Proceed (setup : AnswersSetup).

Definition isTruthy (value : option string) : bool :=
  match whenTruthy value with
  | Some _ => true
  | None => false
  end.

(** [record && Object.keys(record).length > 0]: the own properties count,
    whatever the prototype answers to. *)
Definition hasKeys {V} (record : option (gmap string V)) : bool :=
  match record with
  | Some m => negb (bool_decide (m = ∅))
  | None => false
  end.

Definition noIdentityMessage (scenarioId : string) : string :=
  "Scenario " +:+ scenarioId +:+
  " does not define identity metadata, but identity overrides were provided.".

Definition missingIdentityMessage (scenarioId : string) (missing : list string) : string :=
  let missingSuffix :=
    if (0 <? length missing)%nat then " (" +:+ join ", " missing +:+ ")" else "" in
  "Scenario " +:+ scenarioId +:+ " requires an answers identity" +:+ missingSuffix +:+
  ". Re-run with --answers-identity <segment/...> or supply every segment via --answers-segment <id>=<value>.".

(** [try { ... } catch (error) { ... }] around prompting code. *)
Definition catchP {A} (m : Prompt A) (handler : WizardError → Prompt A) : Prompt A :=
  λ script,
    match m script with
    | Raised e rest log => earlier log (handler e rest)
    | outcome => outcome
    end.

Section Resolver.

Context `{NodePath} `{PromptPersistence}.

Definition resolveWizardIdentitySelection (disk : Disk) (options : ResolveOptions)
    : Prompt (option WizardIdentitySelection) :=
  let scenario := ro_scenario options in
  let providedSegments := normalizeIdentitySegmentOverrides (ro_providedSegments options) in
  let providedSegmentDetails :=
    normalizeIdentitySegmentMetadata (ro_providedSegmentDetails options) in
  let hasSegmentOverrides := hasKeys providedSegments in
  match scn_identity scenario with
  | None | Some [] =>
      let hasSegmentOverrides :=
        hasKeys providedSegments || hasKeys (md_own <$> providedSegmentDetails) in
      if isTruthy (ro_providedSlug options) || hasSegmentOverrides
      then throwP (Error (noIdentityMessage (scn_id scenario)))
      else retP None
  | Some declared =>
      match whenTruthy (ro_providedSlug options) with
      | Some providedSlug =>
          parsed <- liftT (parseIdentitySlug providedSlug declared) ;
          retP (Some parsed)
      | None =>
          persistedIdentities <-
            (if ro_usingExternalAnswers options then retP None
             else
               found <- liftS (collectPersistedIdentitySelections disk
                                 (ro_repoRoot options) (scn_id scenario) declared) ;
               retP (Some found)) ;
          let persistedIdentity :=
            match persistedIdentities with
            | Some [only] => Some only
            | _ => None
            end in
          let promptAllowed :=
            negb (isTruthy (ro_providedSlug options)) && negb hasSegmentOverrides &&
            ro_interactive options && negb (ro_usingExternalAnswers options) in
          if match persistedIdentities with
             | Some existing => (1 <? length existing)%nat
             | None => false
             end && promptAllowed
          then
            picked <- promptForExistingIdentitySelection (default [] persistedIdentities)
                        declared providedSegmentDetails ;
            retP (Some picked)
          else
            resolution <- liftT (buildIdentitySelectionFromSources declared
                                   providedSegments providedSegmentDetails
                                   persistedIdentity) ;
            match selection resolution with
            | Some complete =>
                match persistedIdentity with
                | Some persisted =>
                    if promptAllowed
                    then
                      confirmed <- promptForIdentitySegments declared None
                                     providedSegmentDetails
                                     (Some (toIdentitySegmentDefaults persisted)) ;
                      retP (Some confirmed)
                    else retP (Some complete)
                | None => retP (Some complete)
                end
            | None =>
                if ro_usingExternalAnswers options then retP None
                else if negb (ro_interactive options)
                then throwP (Error (missingIdentityMessage (scn_id scenario)
                                      (missingSegmentIds resolution)))
                else
                  prompted <- promptForIdentitySegments declared providedSegments
                                providedSegmentDetails
                                (toIdentitySegmentDefaults <$> persistedIdentity) ;
                  retP (Some prompted)
            end
      end
  end.

(** ** The answers stage of [runDevWizard]

    From the declaration of [identitySelection] to the end of the
    persisted-answers strategy prompt.  Logging, closing the log writer
    and the prompt history, and the copy of a legacy bootstrap file are
    left out: none of them feeds a value computed here. *)

Definition toPersistedSegment (segment : WizardIdentitySegmentSelection) : PersistedSegment :=
  {| ps_id := sel_id segment;
     ps_value := sel_value segment;
     ps_label := sel_label segment;
     ps_details := sel_details segment |}.

Definition ofPersistedSegment (segment : PersistedSegment) : WizardIdentitySegmentSelection :=
  {| sel_id := ps_id segment;
     sel_value := ps_value segment;
     sel_label := ps_label segment;
     sel_source := SrcCli;
     sel_details := ps_details segment |}.

(** The recovery of the identity from the metadata of the answers file,
    tried when the resolver returned nothing for a scenario with
    identity segments. *)
Definition recoverIdentitySelection (scenario : DevWizardScenario)
    (manager : PromptPersistenceManager) : option WizardIdentitySelection :=
  match scn_identity scenario with
  | Some ((_ :: _) as declared) =>
      identityMeta ← getMetadata manager ≫= meta_identity;
      stored ← pi_segments identityMeta;
      if (length stored =? length declared)%nat
      then
        Some {| slug :=
                  match pi_slug identityMeta with
                  | Some storedSlug =>
                      if (0 <? String.length (trim storedSlug))%nat
                      then trim storedSlug
                      else join "/" (map ps_value stored)
                  | None => join "/" (map ps_value stored)
                  end;
                segments := map ofPersistedSegment stored |}
      else None
  | _ => None
  end.

Definition resolvedAnswersPathOf (repoRoot : string) (options : DevWizardOptions)
    : option string :=
  match whenTruthy (answersPathUsed options) with
  | Some used =>
      if String.eqb used "-" then None
      else Some (if path_isAbsolute used then used else path_resolve repoRoot used)
  | None => None
  end.

Definition aliasPromptMessage : string :=
  "Name for the answers file (stored under .dev-wizard/answers/<name>.json):".

(** The assignment of [answersAlias] and [persistencePath]; [inl] is the
    early [return { exitCode: 0 }] of a cancelled name prompt. *)
Definition assignAnswersAddress (repoRoot : string) (scenario : DevWizardScenario)
    (options : DevWizardOptions) (interactiveTty : bool)
    (chosen : option WizardIdentitySelection) : Prompt (Z + string * option string) :=
  let resolvedAnswersPath := resolvedAnswersPathOf repoRoot options in
  let lockDefaultAnswersAlias :=
    String.eqb (scn_id scenario) "workspace-bootstrap" &&
    negb (bool_decide (is_Some resolvedAnswersPath)) in
  let workspaceBootstrapAnswersPath :=
    path_join [repoRoot; ".dev-wizard"; "answers"; "workspace"; "bootstrap.json"] in
  let '(answersAlias, persistencePath) :=
    if lockDefaultAnswersAlias
    then ("workspace/bootstrap", Some workspaceBootstrapAnswersPath)
    else (scn_id scenario, None) in
  match resolvedAnswersPath with
  | Some resolved =>
      let derivedAlias := path_basename resolved (path_extname resolved) in
      retP (inr (if truthy derivedAlias && (0 <? String.length (trim derivedAlias))%nat
                 then trim derivedAlias else answersAlias,
                 Some resolved))
  | None =>
      match chosen with
      | Some resolvedIdentity =>
          retP (inr (scn_id scenario +:+ "/" +:+ slug resolvedIdentity,
                     Some (buildIdentityAnswersPath repoRoot (scn_id scenario)
                             resolvedIdentity)))
      | None =>
          if negb (loadPersistedAnswers options) && negb lockDefaultAnswersAlias
          then
            if interactiveTty
            then
              selectedAlias <- text aliasPromptMessage (Some (scn_id scenario))
                                 (Some (scn_id scenario)) ;
              match selectedAlias with
              | Cancelled =>
                  _ <- cancel "Execution cancelled before collecting answers." ;
                  retP (inl 0%Z)
              | Answered name =>
                  let trimmed := trim name in
                  retP (inr (if (0 <? String.length trimmed)%nat
                             then trimmed else answersAlias,
                             persistencePath))
              end
            else retP (inr (answersAlias, persistencePath))
          else retP (inr (answersAlias, persistencePath))
      end
  end.

Definition runDevWizard_answersStage (disk : Disk) (repoRoot : string)
    (scenario : DevWizardScenario) (options : DevWizardOptions)
    (interactiveTty : bool) : Prompt StageOutcome :=
  resolved <-
    catchP
      (found <- resolveWizardIdentitySelection disk
                  {| ro_repoRoot := repoRoot;
                     ro_scenario := scenario;
                     ro_providedSlug := answersIdentity options;
                     ro_providedSegments := answersIdentitySegments options;
                     ro_providedSegmentDetails := answersIdentitySegmentDetails options;
                     ro_usingExternalAnswers := loadPersistedAnswers options;
                     ro_interactive := interactiveTty |} ;
       retP (inr found))
      (λ error,
         match error with
         | IdentityPromptCancelledError => retP (inl 0%Z)
         | _ => throwP error
         end) ;
  match resolved with
  | inl exitCode => retP (Exit exitCode)
  | inr chosen =>
      let persistenceMetadata :=
        {| meta_scenarioId := scn_id scenario;
           meta_identity :=
             (λ resolvedIdentity, {| pi_slug := Some (slug resolvedIdentity);
                             pi_segments :=
                               Some (map toPersistedSegment (segments resolvedIdentity)) |})
             <$> chosen |} in
      address <- assignAnswersAddress repoRoot scenario options interactiveTty chosen ;
      match address with
      | inl exitCode => retP (Exit exitCode)
      | inr (alias, filePath) =>
          let manager :=
            createPromptPersistenceManager repoRoot alias filePath persistenceMetadata in
          let chosen :=
            match chosen with
            | Some resolvedIdentity => Some resolvedIdentity
            | None => recoverIdentitySelection scenario manager
            end in
          let finish (useStored resetAll : bool) : StageOutcome :=
            Proceed {| identitySelection := chosen;
                       answersAlias := alias;
                       persistencePath := filePath;
                       promptPersistence := manager;
                       usePromptPersistenceAnswers := useStored;
                       resetAllAnswers := resetAll |} in
          if didLoadExistingSnapshot manager && interactiveTty &&
             (negb (isTruthy (answersPathUsed options)) || answersPathImplicit options)
          then
            catchP
              (strategy <- promptForPersistedAnswersStrategy (getFilePath manager) ;
               match strategy with
               | StrategyReview => retP (finish false false)
               | StrategyReset => retP (finish false true)
               | StrategyReuse => retP (finish true false)
               end)
              (λ error,
                 match error with
                 | PersistedAnswersStrategyCancelledError => retP (Exit 0)
                 | _ => throwP error
                 end)
          else retP (finish true false)
      end
  end.

End Resolver.

(** ** Execution metadata *)

(** [c.toLowerCase()] for one code unit in 0..255: the letters A-Z and the
    Latin-1 capitals move up by 32, the multiplication sign among them
    stays. *)
Definition lowerUnit (c : ascii) : ascii :=
  let n := Ascii.nat_of_ascii c in
  if (Nat.leb 65 n && Nat.leb n 90) ||
     (Nat.leb 192 n && Nat.leb n 222 && negb (Nat.eqb n 215))
  then Ascii.ascii_of_nat (n + 32)
  else c.

Fixpoint toLowerCase (s : string) : string :=
  match s with
  | EmptyString => EmptyString
  | String c rest => String (lowerUnit c) (toLowerCase rest)
  end.

(** The two variables [resolveExecutionMetadata] reads from [process.env]. *)
Record ProcessEnv : Type := {
  DEV_WIZARD_SANDBOX : option string;
  DEV_WIZARD_SANDBOX_SLUG : option string
}.

(** The two fields of [DevWizardOptions] it reads. *)
Record ExecutionOptions : Type := {
  executionSandbox : option bool;
  executionSandboxSlug : option string
}.

Record PromptPersistenceExecutionMetadata : Type := {
  sandbox : option bool;
  sandboxSlug : option string
}.

(** [typeof text === "string" && text.trim().length > 0 ? text.trim() : ...]. *)
Definition trimmedWhenPresent (text : option string) : option string :=
  match text with
  | Some given => if (0 <? String.length (trim given))%nat then Some (trim given) else None
  | None => None
  end.

Definition resolveExecutionMetadata (env : ProcessEnv) (options : ExecutionOptions)
    : option PromptPersistenceExecutionMetadata :=
  let envSandboxEnabled :=
    match DEV_WIZARD_SANDBOX env with
    | Some envSandbox =>
        (0 <? String.length envSandbox)%nat && negb (String.eqb envSandbox "0") &&
        negb (String.eqb (toLowerCase envSandbox) "false")
    | None => false
    end in
  let sandboxChoice :=
    match executionSandbox options with
    | Some explicit => Some explicit
    | None => if envSandboxEnabled then Some true else None
    end in
  let sandboxSlug :=
    match trimmedWhenPresent (executionSandboxSlug options) with
    | Some given => Some given
    | None => trimmedWhenPresent (DEV_WIZARD_SANDBOX_SLUG env)
    end in
  if negb (bool_decide (is_Some sandboxChoice)) && negb (isTruthy sandboxSlug)
  then None
  else Some {| sandbox := sandboxChoice; sandboxSlug := whenTruthy sandboxSlug |}.

(** ** Plan preferences *)

Record PlanPreferences : Type := {
  expandEnv : bool;
  expandTemplates : bool;
  expandBranches : bool
}.

(** [applyPlanExpandSections(plan, sections)]: the preferences it stores
    in the plan. *)
Definition applyPlanExpandSections (sections : option (list string)) : PlanPreferences :=
  foldl (λ preferences section,
           if String.eqb section "env"
           then {| expandEnv := true;
                   expandTemplates := expandTemplates preferences;
                   expandBranches := expandBranches preferences |}
           else if String.eqb section "templates"
           then {| expandEnv := expandEnv preferences;
                   expandTemplates := true;
                   expandBranches := expandBranches preferences |}
           else if String.eqb section "branches"
           then {| expandEnv := expandEnv preferences;
                   expandTemplates := expandTemplates preferences;
                   expandBranches := true |}
           else preferences)
        {| expandEnv := false; expandTemplates := false; expandBranches := false |}
        (default [] sections).

Definition getPlanExpandSectionsFromPreferences (preferences : PlanPreferences)
    : list string :=
  ((if expandEnv preferences then ["env"] else []) ++
   (if expandTemplates preferences then ["templates"] else []) ++
   (if expandBranches preferences then ["branches"] else []))%list.

(** ** The text prompt with history ([textPrompt.ts])

    The listener [createTextPromptWithHistory] installs on the [cursor]
    event of the prompt.  It owns two variables; what it reads of the
    prompt is [prompt.value], what it does to the prompt is to clear the
    line and write a text, recorded here as the text written. *)

Record HistoryState : Type := {
  historyIndex : option nat;
  draftValue : option string
}.

Definition freshHistory : HistoryState :=
  {| historyIndex := None; draftValue := None |}.

Definition onCursor (historyEntries : list string) (direction : option string)
    (promptValue : option string) (state : HistoryState)
    : HistoryState * option string :=
  if negb (bool_decide (direction = Some "up")) &&
     negb (bool_decide (direction = Some "down"))
  then (state, None)
  else if (length historyEntries =? 0)%nat then (state, None)
  else if bool_decide (direction = Some "up")
  then
    let moved :=
      match historyIndex state with
      | None => {| historyIndex := Some (length historyEntries - 1)%nat;
                   draftValue := Some (default "" promptValue) |}
      | Some index =>
          if (0 <? index)%nat
          then {| historyIndex := Some (index - 1)%nat; draftValue := draftValue state |}
          else state
      end in
    (moved, historyIndex moved ≫= (λ index, historyEntries !! index))
  else
    match historyIndex state with
    | None => (state, None)
    | Some index =>
        if (index <? length historyEntries - 1)%nat
        then ({| historyIndex := Some (index + 1)%nat; draftValue := draftValue state |},
              historyEntries !! (index + 1)%nat)
        else ({| historyIndex := None; draftValue := draftValue state |},
              Some (default "" (draftValue state)))
    end.

(** A run of [cursor] events, each with the value the prompt holds when
    it fires: the final state and the texts written to the line. *)
Fixpoint onCursorEvents (historyEntries : list string)
    (events : list (option string * option string)) (state : HistoryState)
    : HistoryState * list string :=
  match events with
  | [] => (state, [])
  | (direction, promptValue) :: later =>
      let '(moved, written) := onCursor historyEntries direction promptValue state in
      let '(final, writes) := onCursorEvents historyEntries later moved in
      (final, (option_list written ++ writes)%list)
  end.

(** ** The select prompt with shortcuts ([shortcutPrompts.ts])

    The part of [render] that scrolls the window over the options and
    lays out the rows.  The row limit is an integer when it is given; no
    limit stands for the page size [Infinity]. *)

Definition visibleRows (maxItems : option Z) : option Z :=
  match maxItems with
  | Some rows => Some (Z.max rows 5)
  | None => None
  end.

(** The update of [windowStart] at the top of [render]. *)
Definition scrollWindow (pageSize : option Z) (count cursor windowStart : Z) : Z :=
  match pageSize with
  | Some size =>
      if (windowStart + size - 3 <=? cursor)%Z
      then Z.max (Z.min (cursor - size + 3) (count - size)) 0
      else if (cursor <? windowStart + 2)%Z then Z.max (cursor - 2) 0
      else windowStart
  | None =>
      if (cursor <? windowStart + 2)%Z then Z.max (cursor - 2) 0 else windowStart
  end.

(** One row of the list: the dimmed ellipsis, or an option drawn as the
    active one or not. *)
Inductive Row (A : Type) : Type :=
| Ellipsis
| Drawn (option : A) (active : bool).
Arguments Ellipsis {A}.
Arguments Drawn {A} option active.

(** The rows [render] lays out while the prompt is active, and the window
    start it leaves behind.  [windowStart] is never negative: it starts
    at 0 and every update is capped below by 0. *)
Definition renderRows {A} (maxItems : option Z) (options : list A)
    (cursor windowStart : nat) : nat * list (Row A) :=
  let pageSize := visibleRows maxItems in
  let count := Z.of_nat (length options) in
  let windowStart :=
    scrollWindow pageSize count (Z.of_nat cursor) (Z.of_nat windowStart) in
  let hasWindow :=
    match pageSize with
    | Some size => (size <? count)%Z
    | None => false
    end in
  let showAbove := hasWindow && (0 <? windowStart)%Z in
  let showBelow :=
    hasWindow &&
    match pageSize with
    | Some size => (windowStart + size <? count)%Z
    | None => false
    end in
  let shown :=
    match pageSize with
    | Some size => take (Z.to_nat size) (drop (Z.to_nat windowStart) options)
    | None => drop (Z.to_nat windowStart) options
    end in
  (Z.to_nat windowStart,
   imap (λ index option,
           if (index =? 0)%nat && showAbove then Ellipsis
           else if (index =? length shown - 1)%nat && showBelow then Ellipsis
           else Drawn option (Z.of_nat index + windowStart =? Z.of_nat cursor)%Z)
        shown).

(** * Contracts in the words of the specification *)

(** ** The builder *)

(** The fallback segment that matches an id: the last one carrying it. *)
Definition matchingFallbackSegment (fallback : option WizardIdentitySelection)
    (id : string) : option WizardIdentitySegmentSelection :=
  match fallback with
  | Some previous => find (λ entry, String.eqb (sel_id entry) id) (rev (segments previous))
  | None => None
  end.

(** A declared segment is covered by an explicit override value or by a
    matching fallback segment. *)
Definition covered (provided : option (gmap string string))
    (fallback : option WizardIdentitySelection) (segment : IdentitySegment) : bool :=
  match overrideValueOf provided segment with
  | Some _ => true
  | None =>
      match matchingFallbackSegment fallback (seg_id segment) with
      | Some _ => true
      | None => false
      end
  end.

(** The override value given for a segment, if any, is one of its listed
    options or the segment allows custom values. *)
Definition overrideAccepted (provided : option (gmap string string))
    (segment : IdentitySegment) : bool :=
  match overrideValueOf provided segment with
  | Some value =>
      match findOption segment value with
      | Some _ => true
      | None => seg_allowCustom segment
      end
  | None => true
  end.

(** How a resolved segment relates to its declaration: it carries the
    declared id, and either the override value with source ["cli"] or a
    copy of the matching fallback segment. *)
Definition resolvedFrom (provided : option (gmap string string))
    (fallback : option WizardIdentitySelection)
    (segment : IdentitySegment) (resolved : WizardIdentitySegmentSelection) : Prop :=
  sel_id resolved = seg_id segment ∧
  match overrideValueOf provided segment with
  | Some value => sel_value resolved = value ∧ sel_source resolved = SrcCli
  | None => matchingFallbackSegment fallback (seg_id segment) = Some resolved
  end.

(** The invariant of an [IdentitySelection]: the slug is the join of the
    values of its segments. *)
Definition slugDerivable (chosen : WizardIdentitySelection) : Prop :=
  slug chosen = join "/" (map sel_value (segments chosen)).

(** ** The scanner *)

(** The parsed file is an object with a [meta.identity] object holding a
    string [slug] and an array [segments]. *)
Definition storedIdentity (parsed : JSON) (storedSlug : string) (entries : list JSON) : Prop :=
  ∃ root meta identity,
    parsed = JObject root ∧
    Json.get "meta" root = Some (JObject meta) ∧
    Json.get "identity" meta = Some (JObject identity) ∧
    Json.get "slug" identity = Some (JString storedSlug) ∧
    Json.get "segments" identity = Some (JArray entries).

(** A stored segment entry is an object with a string [value]. *)
Definition storedSegmentShape (entry : JSON) : Prop :=
  ∃ fields value, entry = JObject fields ∧ Json.get "value" fields = Some (JString value).

(** The shape the scanner asks of a snapshot for [count] declared segments. *)
Definition snapshotShape (parsed : JSON) (count : nat) : Prop :=
  ∃ storedSlug entries,
    storedIdentity parsed storedSlug entries ∧
    length entries = count ∧
    Forall storedSegmentShape entries.

(** A file that can be read but does not hold such a snapshot. *)
Definition malformed (file : AnswerFile) (count : nat) : Prop :=
  match af_read file with
  | ReadText None => True
  | ReadText (Some parsed) => ¬ snapshotShape parsed count
  | ReadFails _ => False
  end.

(** The snapshots the files hold, in traversal order. *)
Definition snapshotsOf (expectedSegments : list IdentitySegment) (files : list AnswerFile)
    : list WizardIdentitySelection :=
  omap (λ file,
          match af_read file with
          | ReadText (Some parsed) => snapshotOfParsed parsed expectedSegments
          | _ => None
          end)
       files.

Definition withSlug (slugText : string) (known : WizardIdentitySelection) : bool :=
  String.eqb (slug known) slugText.

(** The file holds a snapshot for [count] declared segments: it parses to
    an object whose [meta.identity] has the slug [storedSlug], not empty,
    and [count] segment entries, objects whose string values are
    [values]. *)
Definition holdsSnapshot (file : AnswerFile) (count : nat) (storedSlug : string)
    (values : list string) : Prop :=
  ∃ parsed entries,
    af_read file = ReadText (Some parsed) ∧
    storedIdentity parsed storedSlug entries ∧
    truthy storedSlug = true ∧
    length entries = count ∧
    Forall2 (λ entry value,
               ∃ fields, entry = JObject fields ∧
                         Json.get "value" fields = Some (JString value))
            entries values.

(** A tree every directory of which can be listed, or is gone by the time
    it is listed. *)
Fixpoint walkable (node : FsNode) : bool :=
  match node with
  | NDir entries =>
      (fix each (entries : list (string * FsNode)) : bool :=
         match entries with
         | [] => true
         | (_, child) :: more => walkable child && each more
         end) entries
  | NDirError ENOENT | NDirError ENOTDIR => true
  | NDirError _ => false
  | NFile _ | NOther => true
  end.

Section TreeContract.

Context `{NodePath}.

(** The files below [dir] whose names end in [.json], depth first in
    listing order, each under the path that leads to it. *)
Fixpoint jsonFilesOf (dir : string) (node : FsNode) : list AnswerFile :=
  match node with
  | NDir entries =>
      (fix each (entries : list (string * FsNode)) : list AnswerFile :=
         match entries with
         | [] => []
         | (name, child) :: more =>
             (match child with
              | NFile content =>
                  if endsWith name ".json"
                  then [{| af_path := path_join [dir; name]; af_read := content |}]
                  else []
              | NDir _ | NDirError _ => jsonFilesOf (path_join [dir; name]) child
              | NOther => []
              end ++ each more)%list
         end) entries
  | _ => []
  end.

End TreeContract.

(** ** Prompting code and its script *)

(** The result of code that returned or threw without waiting. *)
Definition settle {A} (outcome : Try A) (rest : list Response) (log : list Event)
    : Result A :=
  match outcome with
  | Ok a => Done a rest log
  | Throw e => Raised e rest log
  end.

(** Every value the code returns satisfies [P]. *)
Definition returns {A} (m : Prompt A) (P : A → Prop) : Prop :=
  ∀ script a rest log, m script = Done a rest log → P a.

(** The code never prompts: it settles the same way on every script and
    leaves the script untouched. *)
Definition scriptFree {A} (m : Prompt A) : Prop :=
  ∃ outcome log, ∀ script, m script = settle outcome script log.

(** Responses the code did not read do not change what it does. *)
Definition extends {A} (m : Prompt A) : Prop :=
  ∀ script extra : list Response,
    match m script with
    | Done a rest log => m (script ++ extra)%list = Done a (rest ++ extra)%list log
    | Raised e rest log => m (script ++ extra)%list = Raised e (rest ++ extra)%list log
    | Awaiting _ => True
    end.

(** Whenever the code waits at a prompt, answering that prompt with the
    cancel symbol makes it settle as [outcome], whatever follows. *)
Definition cancelsTo {A} (outcome : Try A) (m : Prompt A) : Prop :=
  ∀ script log,
    m script = Awaiting log →
    ∀ later, ∃ log', m (script ++ Cancelled :: later)%list = settle outcome later log'.

(** A property of the value, when there is one. *)
Definition optionally {A} (P : A → Prop) (value : option A) : Prop :=
  ∀ a, value = Some a → P a.

(** The distinct outcome of a cancelled identity prompt. *)
Definition identityCancelled {A} : Try A := Throw IdentityPromptCancelledError.

(** ** The answers address *)

(** One directory per sanitized segment value except the last, the empty
    ones dropped, and the file name: the sanitized last value, or
    [answers] when that is empty or there is no segment. *)
Fixpoint addressComponents (sanitized : list string) : list string * string :=
  match sanitized with
  | [] => ([], "answers")
  | [final] => ([], if truthy final then final else "answers")
  | directory :: rest =>
      let '(directories, fileName) := addressComponents rest in
      ((if truthy directory then [directory] else []) ++ directories, fileName)%list
  end.

Section AddressContract.

Context `{NodePath} `{PromptPersistence}.

(** [repoRoot/.dev-wizard/answers], the sanitized scenario id unless it is
  empty, the directories, and the file name with [.json]. *)
Definition identityAnswersPath (repoRoot scenarioId : string)
  (chosen : WizardIdentitySelection) : string :=
let '(directories, fileName) :=
  addressComponents
    (map (λ segment, sanitizePersistenceSegment (sel_value segment)) (segments chosen)) in
let scenarioDirectory :=
  if truthy (sanitizePersistenceSegment scenarioId)
  then [sanitizePersistenceSegment scenarioId] else [] in
path_join (path_join [repoRoot; ".dev-wizard"; "answers"] ::
           scenarioDirectory ++ directories ++ [fileName +:+ ".json"])%list.

End AddressContract.

(** ** Default-value templates *)

(** A placeholder as it is written: two opening braces, white space, the
    id of a sibling segment, white space, two closing braces. *)
Record Placeholder : Type := {
  ph_leading : string;
  ph_id : string;
  ph_trailing : string
}.





(** The template with every placeholder replaced by [valueOf] its id. *)
Fixpoint piecesFilled (valueOf : string → string) (pieces : list (Placeholder * string))
    : string :=
  match pieces with
  | [] => ""
  | (p, literal) :: rest => valueOf (ph_id p) +:+ literal +:+ piecesFilled valueOf rest
  end.


Fixpoint allOf (class : ascii → bool) (s : string) : bool :=
  match s with
  | EmptyString => true
  | String c rest => class c && allOf class rest
  end.







Definition logOf {A} (r : Result A) : list Event :=
  match r with
  | Done _ _ log | Raised _ _ log | Awaiting log => log
  end.

(** ** Slugs *)

Definition slashFree (s : string) : bool := allOf (λ c, negb (Ascii.eqb c "/")) s.

(** A value that survives a trip through a slug: not empty, no white
    space around it, no slash inside. *)
Definition slugSafe (value : string) : bool :=
  truthy value && String.eqb (trim value) value && slashFree value.

(** ** The caller's override objects *)

(** An entry of the value overrides counts when neither its key nor its
    value is blank. *)
Definition usableOverride (entry : string * string) : bool :=
  truthy (trim entry.1) && truthy (trim entry.2).

(** An entry that counts leaves a property behind unless its trimmed key
    is [__proto__]. *)
Definition storedOverride (entry : string * string) : bool :=
  usableOverride entry && negb (String.eqb (trim entry.1) "__proto__").

(** The trimmed value of the last entry that counts for [id]. *)
Definition lastOverrideFor (entries : list (string * string)) (id : string)
    : option string :=
  (λ entry, trim entry.2) <$>
  find (λ entry, usableOverride entry && String.eqb (trim entry.1) id) (rev entries).

(** What is kept of a metadata entry: a label that is not blank, trimmed,
    and details that hold at least one property. *)
Definition cleanedMetadata (value : IdentitySegmentMetadata) : IdentitySegmentMetadata :=
  {| md_label :=
       match md_label value with
       | Some text => if truthy (trim text) then Some (trim text) else None
       | None => None
       end;
     md_details :=
       match md_details value with
       | Some [] | None => None
       | Some given => Some given
       end |}.

Definition usableMetadata (entry : string * IdentitySegmentMetadata) : bool :=
  truthy (trim entry.1) &&
  (bool_decide (is_Some (md_label (cleanedMetadata entry.2))) ||
   bool_decide (is_Some (md_details (cleanedMetadata entry.2)))).

(** A metadata entry that counts becomes a property of the record unless
    its trimmed key is [__proto__]; then it becomes the prototype. *)
Definition storedMetadata (entry : string * IdentitySegmentMetadata) : bool :=
  usableMetadata entry && negb (String.eqb (trim entry.1) "__proto__").

Definition lastMetadataFor (entries : list (string * IdentitySegmentMetadata))
    (id : string) : option IdentitySegmentMetadata :=
  (λ entry, cleanedMetadata entry.2) <$>
  find (λ entry, usableMetadata entry && String.eqb (trim entry.1) id) (rev entries).

(** The value of the last segment of a selection that carries [id], among
    the segments whose id and value are not empty. *)
Definition lastDefaultFor (chosen : WizardIdentitySelection) (id : string)
    : option string :=
  sel_value <$>
  find (λ segment,
          truthy (sel_id segment) && truthy (sel_value segment) &&
          String.eqb (sel_id segment) id)
       (rev (segments chosen)).

(** ** The resolver and the prompts *)

(** The stored identity the builder falls back on: the snapshot the scan
    found, when it found exactly one. *)
Definition soleIdentity (found : list WizardIdentitySelection)
    : option WizardIdentitySelection :=
  match found with
  | [only] => Some only
  | _ => None
  end.

(** A declared segment that has an override value. *)
Definition overridden (provided : option (gmap string string))
    (segment : IdentitySegment) : bool :=
  bool_decide (is_Some (overrideValueOf provided segment)).

(** The strategy a response of the strategy prompt stands for. *)
Definition strategyOf (response : string) : option PersistedAnswersStrategy :=
  if String.eqb response "reuse" then Some StrategyReuse
  else if String.eqb response "review" then Some StrategyReview
  else if String.eqb response "reset" then Some StrategyReset
  else None.

(** The choice shown for a declared option. *)
Definition choiceOf (option : IdentityOption) : SelectOption :=
  {| so_value := opt_value option;
     so_label := default (opt_value option) (opt_label option);
     so_hint := opt_hint option |}.

(** The choices of a segment before the default is looked at. *)
Definition plainChoices (declaredOptions : list IdentityOption) (allowCustom : bool)
    : list SelectOption :=
  (map choiceOf declaredOptions ++ (if allowCustom then [customChoice] else []))%list.

(** ** The walk over the answers tree *)

(** A file whose read does not throw: it yields text, or it has vanished
    since it was listed. *)
Definition readable (file : AnswerFile) : bool :=
  match af_read file with
  | ReadFails ENOENT | ReadText _ => true
  | ReadFails _ => false
  end.

Definition readEvent (file : AnswerFile) : Event := EvReadFile (af_path file).

Definition isReaddir (event : Event) : bool :=
  match event with
  | EvReaddir _ => true
  | _ => false
  end.

(** The regular files of a tree, each with the name it is listed under. *)
Fixpoint regularFiles (node : FsNode) : list (string * FileRead) :=
  match node with
  | NDir entries =>
      (fix each (entries : list (string * FsNode)) : list (string * FileRead) :=
         match entries with
         | [] => []
         | (name, child) :: more =>
             (match child with
              | NFile content => [(name, content)]
              | _ => regularFiles child
              end ++ each more)%list
         end) entries
  | _ => []
  end.

(** A collected file stands for a regular file of the tree whose name
    ends in [.json]. *)
Definition jsonFileOf (node : FsNode) (file : AnswerFile) : Prop :=
  ∃ name, (name, af_read file) ∈ regularFiles node ∧ endsWith name ".json" = true.

(** The selection as it comes back from the metadata of an answers file:
    every segment with source ["cli"]. *)
Definition asStored (segment : WizardIdentitySegmentSelection)
    : WizardIdentitySegmentSelection :=
  {| sel_id := sel_id segment;
     sel_value := sel_value segment;
     sel_label := sel_label segment;
     sel_source := SrcCli;
     sel_details := sel_details segment |}.

(** What a response of the stored-identity prompt picks: a new identity
    ([Some None]), a stored one, or nothing the prompt knows. *)
Definition identityPick (existing : list WizardIdentitySelection) (response : string)
    : option (option WizardIdentitySelection) :=
  if String.eqb response "__new__" then Some None
  else Some <$> find (λ entry, String.eqb (slug entry) response) existing.

(** A prompt for a selection, as the resolver hands its result on. *)
Definition asResolved (m : Prompt WizardIdentitySelection)
    : Prompt (option WizardIdentitySelection) :=
  chosen <- m ; retP (Some chosen).

(** ** The execution metadata *)

(** The environment switches the sandbox on: the variable is set and is
    neither empty, nor [0], nor [false] in whatever case of letters. *)
Definition sandboxSwitchedOn (env : ProcessEnv) : bool :=
  match DEV_WIZARD_SANDBOX env with
  | Some text =>
      truthy text && negb (String.eqb text "0") &&
      negb (String.eqb (toLowerCase text) "false")
  | None => false
  end.

(** A source names the slug [given]: it holds a text that is not blank,
    and [given] is that text trimmed. *)
Definition namesSlug (source : option string) (given : string) : Prop :=
  ∃ text, source = Some text ∧ truthy (trim text) = true ∧ given = trim text.

(** A source names no slug: it is not set, or blank. *)
Definition namesNoSlug (source : option string) : Prop :=
  ∀ text, source = Some text → truthy (trim text) = false.

(** ** Keys pressed at the text prompt *)

(** The same arrow key pressed once per element of [values], each press
    finding the prompt with that value. *)
Definition presses (direction : string) (values : list (option string))
    : list (option string * option string) :=
  map (λ promptValue, (Some direction, promptValue)) values.

(** The plan sections the code knows, in the order it lists them. *)
Definition knownSections : list string := ["env"; "templates"; "branches"].

(** * Sample data

    The scenario of the test suite: [category/cadence/window], with a
    plain model of POSIX paths and of a persistence manager that finds no
    file, to run the definitions on. *)

Module Sample.

Definition category : IdentitySegment :=
  {| seg_id := "category"; seg_prompt := "Select a category";
     seg_options := Some [ {| opt_value := "maintenance"; opt_label := Some "Maintenance";
                              opt_hint := None |} ];
     seg_allowCustom := false; seg_defaultValue := None; seg_placeholder := None;
     seg_plainId := eq_refl |}.

Definition cadence : IdentitySegment :=
  {| seg_id := "cadence"; seg_prompt := "Select cadence";
     seg_options := Some [ {| opt_value := "daily"; opt_label := Some "Daily";
                              opt_hint := None |};
                           {| opt_value := "weekly"; opt_label := Some "Weekly";
                              opt_hint := None |} ];
     seg_allowCustom := false; seg_defaultValue := None; seg_placeholder := None;
     seg_plainId := eq_refl |}.

Definition window : IdentitySegment :=
  {| seg_id := "window"; seg_prompt := "Name the maintenance window";
     seg_options := None; seg_allowCustom := true;
     seg_defaultValue := Some "{{cadence}}-maintenance"; seg_placeholder := None;
     seg_plainId := eq_refl |}.

Definition scenario : DevWizardScenario :=
  {| scn_id := "identity-demo"; scn_identity := Some [category; cadence] |}.

Definition dailySnapshot : WizardIdentitySelection :=
  {| slug := "maintenance/daily";
     segments :=
       [ {| sel_id := "category"; sel_value := "maintenance"; sel_label := "Maintenance";
            sel_source := SrcCli; sel_details := None |};
         {| sel_id := "cadence"; sel_value := "daily"; sel_label := "Daily";
            sel_source := SrcCli; sel_details := None |} ] |}.

Definition cadenceMetadata : IdentitySegmentMetadata :=
  {| md_label := Some "custom cadence (0 2 * * * @ UTC)";
     md_details := Some [("cron", JString "0 2 * * *"); ("timezone", JString "UTC")] |}.

(** The last component of a path. *)
Definition lastComponent (p : string) : string := List.last (split "/" p) "".

(** The suffix of [s] that starts at its last dot. *)
Fixpoint lastDotSuffix (s : string) : option string :=
  match s with
  | EmptyString => None
  | String c rest =>
      match lastDotSuffix rest with
      | Some suffix => Some suffix
      | None => if Ascii.eqb c "." then Some s else None
      end
  end.

Definition dropLast (n : nat) (s : string) : string :=
  String.substring 0 (String.length s - n) s.

Definition posix : NodePath :=
  {| path_join := λ parts, join "/" (List.filter truthy parts);
     path_isAbsolute := λ p, startsWith p "/";
     path_resolve := λ from to, from +:+ "/" +:+ to;
     path_basename := λ p ext,
       let base := lastComponent p in
       if truthy ext && endsWith base ext && negb (String.eqb base ext)
       then dropLast (String.length ext) base else base;
     path_extname := λ p,
       match lastComponent p with
       | String _ rest => default "" (lastDotSuffix rest)
       | EmptyString => ""
       end |}.

(** A sanitizer that keeps word characters, dots and hyphens. *)
Fixpoint keepSafe (s : string) : string :=
  match s with
  | EmptyString => EmptyString
  | String c rest =>
      if isWordOrHyphen c || Ascii.eqb c "." then String c (keepSafe rest)
      else keepSafe rest
  end.

Definition freshStore : PromptPersistence :=
  {| sanitizePersistenceSegment := keepSafe;
     createPromptPersistenceManager := λ repoRoot alias filePath metadata,
       {| getMetadata := Some metadata;
          didLoadExistingSnapshot := false;
          getFilePath :=
            default (repoRoot +:+ "/.dev-wizard/answers/" +:+ alias +:+ ".json") filePath |} |}.

(** An answers file whose stored slug is not the join of its values and
    whose only segment entry has a value and nothing else. *)
Definition staleSnapshot : JSON :=
  JObject [("meta",
    JObject [("identity",
      JObject [("slug", JString "x");
               ("segments", JArray [JObject [("value", JString "a")]])])])].

Definition emptyDisk : Disk := λ _, None.

(** A disk with something outside the answers tree. *)
Definition otherDisk : Disk :=
  λ dir, if String.eqb dir "/repo/notes" then Some NOther else None.


Definition weekly : WizardIdentitySegmentSelection :=
  {| sel_id := "cadence"; sel_value := "weekly"; sel_label := "Weekly";
     sel_source := SrcOption; sel_details := None |}.

(** A run that names both an answers file and an identity. *)
Definition explicitAnswersFile : DevWizardOptions :=
  {| answersPathUsed := Some "/repo/saved.json";
     answersPathImplicit := false;
     answersIdentity := Some "maintenance/daily";
     answersIdentitySegments := None;
     answersIdentitySegmentDetails := None;
     loadPersistedAnswers := true |}.

(** A run with no option set. *)
Definition plainRun : DevWizardOptions :=
  {| answersPathUsed := None;
     answersPathImplicit := false;
     answersIdentity := None;
     answersIdentitySegments := None;
     answersIdentitySegmentDetails := None;
     loadPersistedAnswers := false |}.

Definition slugGiven (slugText : string) : ResolveOptions :=
  {| ro_repoRoot := "/repo";
     ro_scenario := scenario;
     ro_providedSlug := Some slugText;
     ro_providedSegments := None;
     ro_providedSegmentDetails := None;
     ro_usingExternalAnswers := false;
     ro_interactive := false |}.

Definition categoryGiven : ResolveOptions :=
  {| ro_repoRoot := "/repo";
     ro_scenario := scenario;
     ro_providedSlug := None;
     ro_providedSegments := Some [("category", "maintenance")];
     ro_providedSegmentDetails := None;
     ro_usingExternalAnswers := false;
     ro_interactive := false |}.

(** What the scanner reads back from that file for the segment
    [category]. *)
Definition staleSelection : WizardIdentitySelection :=
  {| slug := "x";
     segments := [ {| sel_id := "category"; sel_value := "a"; sel_label := "a";
                      sel_source := SrcCli; sel_details := None |} ] |}.

Definition oneSegmentScenario : DevWizardScenario :=
  {| scn_id := "identity-demo"; scn_identity := Some [category] |}.

(** A disk whose answers tree for [identity-demo] holds that file, a
    second copy of it in a sub-directory, and a file that is not JSON. *)
Definition staleDisk : Disk :=
  λ dir,
    if String.eqb dir "/repo/.dev-wizard/answers/identity-demo"
    then Some (NDir [ ("a.json", NFile (ReadText (Some staleSnapshot)));
                      ("broken.json", NFile (ReadText None));
                      ("nested", NDir [ ("b.json", NFile (ReadText (Some staleSnapshot))) ]);
                      ("notes.txt", NFile (ReadText None)) ])
    else None.

(** A scenario that declares no identity. *)
Definition plainScenario : DevWizardScenario :=
  {| scn_id := "plain"; scn_identity := None |}.

(** A run on it whose only override entry has a blank key. *)
Definition blankOverride : ResolveOptions :=
  {| ro_repoRoot := "/repo";
     ro_scenario := plainScenario;
     ro_providedSlug := Some "";
     ro_providedSegments := Some [("  ", "maintenance")];
     ro_providedSegmentDetails := None;
     ro_usingExternalAnswers := false;
     ro_interactive := false |}.

(** A run on it whose only override entries sit under [__proto__]. *)
Definition protoOverride : ResolveOptions :=
  {| ro_repoRoot := "/repo";
     ro_scenario := plainScenario;
     ro_providedSlug := None;
     ro_providedSegments := Some [(" __proto__ ", "x")];
     ro_providedSegmentDetails := Some [("__proto__", cadenceMetadata)];
     ro_usingExternalAnswers := false;
     ro_interactive := false |}.

(** A run that loads its answers from a file and names one segment. *)
Definition externalRun : ResolveOptions :=
  {| ro_repoRoot := "/repo";
     ro_scenario := scenario;
     ro_providedSlug := None;
     ro_providedSegments := Some [("category", "maintenance")];
     ro_providedSegmentDetails := None;
     ro_usingExternalAnswers := true;
     ro_interactive := false |}.

(** Runs on the scenario with one segment that give nothing, with and
    without a terminal. *)
Definition terminalRun : ResolveOptions :=
  {| ro_repoRoot := "/repo";
     ro_scenario := oneSegmentScenario;
     ro_providedSlug := None;
     ro_providedSegments := None;
     ro_providedSegmentDetails := None;
     ro_usingExternalAnswers := false;
     ro_interactive := true |}.


Definition weeklyOption : IdentityOption :=
  {| opt_value := "weekly"; opt_label := Some "Weekly"; opt_hint := None |}.

(** Three collected files: one that has vanished, one that cannot be
    read, one that does not parse. *)
Definition vanishedFile : AnswerFile :=
  {| af_path := "/repo/.dev-wizard/answers/identity-demo/a.json";
     af_read := ReadFails ENOENT |}.

Definition lockedFile : AnswerFile :=
  {| af_path := "/repo/.dev-wizard/answers/identity-demo/b.json";
     af_read := ReadFails EACCES |}.

Definition brokenFile : AnswerFile :=
  {| af_path := "/repo/.dev-wizard/answers/identity-demo/c.json";
     af_read := ReadText None |}.

(** The metadata the answers stage stores for [dailySnapshot], in a
    manager that hands it back. *)
Definition dailyManager : PromptPersistenceManager :=
  {| getMetadata :=
       Some {| meta_scenarioId := "identity-demo";
               meta_identity :=
                 Some {| pi_slug := Some (slug dailySnapshot);
                         pi_segments :=
                           Some (map toPersistedSegment (segments dailySnapshot)) |} |};
     didLoadExistingSnapshot := true;
     getFilePath := "/repo/.dev-wizard/answers/identity-demo/maintenance/daily.json" |}.

(** An environment that names a sandbox slug and spells the flag off. *)
Definition sandboxOff : ProcessEnv :=
  {| DEV_WIZARD_SANDBOX := Some "False"; DEV_WIZARD_SANDBOX_SLUG := Some " demo " |}.

Definition sandboxOn : ProcessEnv :=
  {| DEV_WIZARD_SANDBOX := Some "1"; DEV_WIZARD_SANDBOX_SLUG := None |}.

Definition noExecutionOptions : ExecutionOptions :=
  {| executionSandbox := None; executionSandboxSlug := None |}.

Definition pastAnswers : list string := ["first"; "second"; "third"].

Definition tenOptions : list string :=
  ["a"; "b"; "c"; "d"; "e"; "f"; "g"; "h"; "i"; "j"].

(** A selection whose second value was typed with a slash in it. *)
Definition slashedSelection : WizardIdentitySelection :=
  {| slug := "maintenance/a/b";
     segments :=
       [ {| sel_id := "category"; sel_value := "maintenance"; sel_label := "Maintenance";
            sel_source := SrcOption; sel_details := None |};
         {| sel_id := "window"; sel_value := "a/b"; sel_label := "a/b";
            sel_source := SrcCustom; sel_details := None |} ] |}.

End Sample.

(** * Properties of the code *)

(** ** The builder *)

Lemma fallbackMapOf_lookup fallback id :
  fallbackMapOf fallback !! id = matchingFallbackSegment fallback id.
Proof.
  destruct fallback as [[slugText entries]|]; simpl; [|apply lookup_empty].
  induction entries as [|entry entries IH] using rev_ind; simpl.
  - apply lookup_empty.
  - rewrite foldl_app, rev_app_distr. simpl.
    destruct (String.eqb_spec (sel_id entry) id) as [->|Hne].
    + apply lookup_insert_eq.
    + rewrite lookup_insert_ne by done. exact IH.
Qed.

Lemma matchingFallbackSegment_id fallback id entry :
  matchingFallbackSegment fallback id = Some entry → sel_id entry = id.
Proof.
  destruct fallback as [previous|]; simpl; [|done].
  intros Hfind. apply find_some in Hfind as [_ Heq].
  by apply String.eqb_eq.
Qed.

Lemma buildWizardIdentitySegmentSelection_listed segment value source override accept option :
  findOption segment value = Some option →
  ∃ built,
    buildWizardIdentitySegmentSelection segment value source override accept = Ok built ∧
    sel_id built = seg_id segment ∧ sel_value built = value ∧ sel_source built = source.
Proof.
  intros Hfind. unfold buildWizardIdentitySegmentSelection. rewrite Hfind. simpl.
  assert (opt_value option = value) as Hvalue.
  { unfold findOption in Hfind. destruct (seg_options segment) as [options|]; [|done].
    simpl in Hfind. apply find_some in Hfind as [_ Heq]. by apply String.eqb_eq. }
  destruct override as [override|]; eexists; (split; [reflexivity|]); simpl; auto.
Qed.

Lemma buildWizardIdentitySegmentSelection_unlisted segment value source override accept :
  findOption segment value = None →
  seg_allowCustom segment || accept = true →
  ∃ built,
    buildWizardIdentitySegmentSelection segment value source override accept = Ok built ∧
    sel_id built = seg_id segment ∧ sel_value built = value ∧ sel_source built = source.
Proof.
  intros Hfind Hallowed. unfold buildWizardIdentitySegmentSelection.
  rewrite Hfind, Hallowed. simpl.
  destruct override as [override|]; eexists; (split; [reflexivity|]); simpl; auto.
Qed.

Lemma buildWizardIdentitySegmentSelection_rejected segment value source override :
  findOption segment value = None →
  seg_allowCustom segment = false →
  buildWizardIdentitySegmentSelection segment value source override false =
  Throw (Error (invalidCustomValueMessage segment)).
Proof.
  intros Hfind Hcustom. unfold buildWizardIdentitySegmentSelection.
  by rewrite Hfind, Hcustom.
Qed.

Lemma buildLoop_accepted provided providedMetadata fallback todo selections missing :
  forallb (overrideAccepted provided) todo = true →
  ∃ resolved,
    buildLoop provided providedMetadata (fallbackMapOf fallback) todo selections missing =
      Ok ((selections ++ resolved)%list,
          (missing ++
           map seg_id (List.filter (λ s, negb (covered provided fallback s)) todo))%list) ∧
    Forall2 (resolvedFrom provided fallback)
      (List.filter (covered provided fallback) todo) resolved.
Proof.
  revert selections missing.
  induction todo as [|segment rest IH]; intros selections missing Haccepted; simpl.
  - exists []. rewrite !app_nil_r. split; [reflexivity|constructor].
  - simpl in Haccepted. apply andb_true_iff in Haccepted as [Hhere Hrest].
    pose proof (eq_refl (covered provided fallback segment)) as Hcovered.
    unfold covered at 2 in Hcovered. unfold overrideAccepted in Hhere.
    destruct (overrideValueOf provided segment) as [value|] eqn:Hoverride.
    + rewrite Hcovered. simpl. assert (∃ built,
        buildWizardIdentitySegmentSelection segment value SrcCli
          (metadataOf providedMetadata (seg_id segment)) false = Ok built ∧
        sel_id built = seg_id segment ∧ sel_value built = value ∧
        sel_source built = SrcCli) as (built & -> & Hid & Hvalue & Hsource).
      { destruct (findOption segment value) as [option|] eqn:Hfind.
        - by eapply buildWizardIdentitySegmentSelection_listed.
        - apply buildWizardIdentitySegmentSelection_unlisted; [done|].
          by rewrite Hhere. }
      simpl. destruct (IH (selections ++ [built])%list missing Hrest) as (resolved & -> & Hall).
      exists (built :: resolved). rewrite <- app_assoc. split; [reflexivity|].
      constructor; [|exact Hall]. split; [done|]. by rewrite Hoverride.
    + rewrite fallbackMapOf_lookup.
      destruct (matchingFallbackSegment fallback (seg_id segment)) as [entry|] eqn:Hentry;
        rewrite Hcovered; simpl.
      * destruct (IH (selections ++ [entry])%list missing Hrest) as (resolved & -> & Hall).
        exists (entry :: resolved). rewrite <- app_assoc. split; [reflexivity|].
        constructor; [|exact Hall].
        split; [by eapply matchingFallbackSegment_id|]. by rewrite Hoverride.
      * destruct (IH selections (missing ++ [seg_id segment])%list Hrest)
          as (resolved & -> & Hall).
        exists resolved. rewrite <- app_assoc. split; [reflexivity|exact Hall].
Qed.

Lemma filter_all_true {A} (f : A → bool) (xs : list A) :
  forallb f xs = true → List.filter f xs = xs ∧ List.filter (λ x, negb (f x)) xs = [].
Proof.
  induction xs as [|x xs IH]; simpl; [done|].
  intros [Hx Hxs]%andb_true_iff. rewrite Hx. simpl.
  destruct (IH Hxs) as [-> ->]. done.
Qed.

Lemma filter_some_false {A} (f : A → bool) (xs : list A) :
  forallb f xs = false → List.filter (λ x, negb (f x)) xs ≠ [].
Proof.
  induction xs as [|x xs IH]; simpl; [done|].
  destruct (f x); simpl; [exact IH|done].
Qed.

Lemma resolvedFrom_ids provided fallback declared resolved :
  Forall2 (resolvedFrom provided fallback) declared resolved →
  map sel_id resolved = map seg_id declared.
Proof.
  induction 1 as [|segment entry declared resolved [Hid _] _ IH]; simpl; [done|].
  by rewrite Hid, IH.
Qed.

Lemma buildLoop_rejected provided providedMetadata fallbackMap todo selections missing :
  forallb (overrideAccepted provided) todo = false →
  ∃ segment,
    segment ∈ todo ∧ overrideAccepted provided segment = false ∧
    buildLoop provided providedMetadata fallbackMap todo selections missing =
      Throw (Error (invalidCustomValueMessage segment)).
Proof.
  revert selections missing.
  induction todo as [|segment rest IH]; intros selections missing; simpl; [done|].
  destruct (overrideAccepted provided segment) eqn:Hhere; simpl.
  - intros Hrest. unfold overrideAccepted in Hhere.
    destruct (overrideValueOf provided segment) as [value|] eqn:Hoverride.
    + assert (∃ built,
        buildWizardIdentitySegmentSelection segment value SrcCli
          (metadataOf providedMetadata (seg_id segment)) false = Ok built)
        as (built & ->).
      { destruct (findOption segment value) as [option|] eqn:Hfind.
        - edestruct buildWizardIdentitySegmentSelection_listed as (built & ? & _); eauto.
        - edestruct buildWizardIdentitySegmentSelection_unlisted as (built & ? & _); eauto.
          by rewrite Hhere. }
      simpl. destruct (IH (selections ++ [built])%list missing Hrest)
        as (culprit & ? & ? & ?).
      exists culprit. split; [by right|done].
    + destruct (fallbackMap !! seg_id segment) as [entry|].
      * destruct (IH (selections ++ [entry])%list missing Hrest) as (culprit & ? & ? & ?).
        exists culprit. split; [by right|done].
      * destruct (IH selections (missing ++ [seg_id segment])%list Hrest)
          as (culprit & ? & ? & ?).
        exists culprit. split; [by right|done].
  - intros _. exists segment. split; [by left|]. split; [done|].
    unfold overrideAccepted in Hhere.
    destruct (overrideValueOf provided segment) as [value|]; [|done].
    destruct (findOption segment value) eqn:Hfind; [done|].
    by rewrite buildWizardIdentitySegmentSelection_rejected.
Qed.

Lemma builder_throws_on_rejected_override declared provided providedMetadata fallback :
  forallb (overrideAccepted provided) declared = false →
  ∃ segment,
    segment ∈ declared ∧ overrideAccepted provided segment = false ∧
    buildIdentitySelectionFromSources declared provided providedMetadata fallback =
      Throw (Error (invalidCustomValueMessage segment)).
Proof.
  intros Hrejected.
  destruct (buildLoop_rejected provided providedMetadata (fallbackMapOf fallback)
              declared [] [] Hrejected) as (segment & Hin & Hno & Hloop).
  exists segment. split; [done|]. split; [done|].
  unfold buildIdentitySelectionFromSources. by rewrite Hloop.
Qed.

(** C1.  Provided every explicit override value given for a declared
    segment is one of its listed options or the segment allows custom
    values: when every declared segment is covered by an override value
    or by a matching fallback segment, the builder returns a selection
    whose segments follow the declared order, the override-sourced ones
    with source cli and the others copied from the fallback, whose slug
    is the join of the resolved values, and an empty list of missing ids;
    when some declared segment is covered by neither, it returns no
    selection and exactly the uncovered ids, in declared order.  Without
    the proviso the builder throws the invalid-custom-value error of a
    segment whose override is not accepted.  The declared segments are
    those of the data model: no id among them names a member of
    [Object.prototype], so a segment is covered by the overrides only
    through a property the override record holds itself. *)
Theorem builder_complete_or_missing declared provided providedMetadata fallback :
  (forallb (overrideAccepted provided) declared = true →
   (forallb (covered provided fallback) declared = true →
    ∃ chosen,
      buildIdentitySelectionFromSources declared provided providedMetadata fallback =
        Ok {| selection := Some chosen; missingSegmentIds := [] |} ∧
      Forall2 (resolvedFrom provided fallback) declared (segments chosen) ∧
      map sel_id (segments chosen) = map seg_id declared ∧
      slug chosen = join "/" (map sel_value (segments chosen))) ∧
   (forallb (covered provided fallback) declared = false →
    buildIdentitySelectionFromSources declared provided providedMetadata fallback =
      Ok {| selection := None;
            missingSegmentIds :=
              map seg_id
                (List.filter (λ s, negb (covered provided fallback s)) declared) |})) ∧
  (forallb (overrideAccepted provided) declared = false →
   ∃ segment,
     segment ∈ declared ∧ overrideAccepted provided segment = false ∧
     buildIdentitySelectionFromSources declared provided providedMetadata fallback =
       Throw (Error (invalidCustomValueMessage segment))).
Proof.
  split; [|apply builder_throws_on_rejected_override].
  intros Haccepted.
  destruct (buildLoop_accepted provided providedMetadata fallback declared [] [] Haccepted)
    as (resolved & Hloop & Hall).
  unfold buildIdentitySelectionFromSources. rewrite Hloop. simpl. split.
  - intros Hcovered. destruct (filter_all_true _ _ Hcovered) as [Hkeep Hnone].
    rewrite Hnone. rewrite Hkeep in Hall. simpl.
    eexists. split; [reflexivity|]. simpl. split; [exact Hall|].
    split; [by eapply resolvedFrom_ids|reflexivity].
  - intros Hcovered. pose proof (filter_some_false _ _ Hcovered) as Hsome.
    destruct (List.filter _ declared) as [|segment others]; [done|]. reflexivity.
Qed.

Lemma builder_complete_or_missing_witness :
  (∃ chosen,
     buildIdentitySelectionFromSources [Sample.category; Sample.cadence]
       (Some {[ "category" := "maintenance" ]}) None (Some Sample.dailySnapshot) =
       Ok {| selection := Some chosen; missingSegmentIds := [] |} ∧
     Forall2 (resolvedFrom (Some {[ "category" := "maintenance" ]}) (Some Sample.dailySnapshot))
       [Sample.category; Sample.cadence] (segments chosen) ∧
     map sel_id (segments chosen) = map seg_id [Sample.category; Sample.cadence] ∧
     slug chosen = join "/" (map sel_value (segments chosen))) ∧
  buildIdentitySelectionFromSources [Sample.category; Sample.cadence]
    (Some {[ "category" := "maintenance" ]}) None None =
    Ok {| selection := None; missingSegmentIds := ["cadence"] |}.
Proof.
  split.
  - exact (proj1 (proj1 (builder_complete_or_missing [Sample.category; Sample.cadence]
                           (Some {[ "category" := "maintenance" ]}) None
                           (Some Sample.dailySnapshot)) eq_refl) eq_refl).
  - exact (proj2 (proj1 (builder_complete_or_missing [Sample.category; Sample.cadence]
                           (Some {[ "category" := "maintenance" ]}) None None) eq_refl)
             eq_refl).
Defined.

Lemma builder_rejects_unlisted_override :
  forallb (covered (Some {[ "category" := "other" ]}) None) [Sample.category] = true ∧
  buildIdentitySelectionFromSources [Sample.category]
    (Some {[ "category" := "other" ]}) None None =
  Throw (Error (invalidCustomValueMessage Sample.category)).
Proof. split; reflexivity. Qed.

(** C3.  The builder on the sample scenario, with a metadata override
    for [cadence] and the value of [cadence] coming from the fallback
    snapshot: the selection returned is the snapshot itself, its label and
    details untouched, whereas [applyIdentityMetadataOverrides] would have
    put the overridden label and details on the segment. *)
Theorem fallback_copy_drops_metadata_override :
  buildIdentitySelectionFromSources [Sample.category; Sample.cadence]
    (Some {[ "category" := "maintenance" ]})
    (Some (recordOf {[ "cadence" := Sample.cadenceMetadata ]}))
    (Some Sample.dailySnapshot) =
  Ok {| selection := Some Sample.dailySnapshot; missingSegmentIds := [] |} ∧
  map sel_label (segments Sample.dailySnapshot) = ["Maintenance"; "Daily"] ∧
  map sel_label
    (segments (applyIdentityMetadataOverrides Sample.dailySnapshot
                 (Some (recordOf {[ "cadence" := Sample.cadenceMetadata ]})))) =
  ["Maintenance"; "custom cadence (0 2 * * * @ UTC)"].
Proof. repeat split; reflexivity. Qed.

(** ** Snapshots *)

Lemma readStoredSegment_Some expectedSegments entries index resolved :
  readStoredSegment expectedSegments entries index = Some resolved →
  ∃ fields value,
    entries !! index = Some (JObject fields) ∧
    Json.get "value" fields = Some (JString value) ∧
    sel_value resolved = value ∧
    sel_source resolved = SrcCli ∧
    sel_id resolved =
      match Json.asString (Json.get "id" fields) with
      | Some storedId => storedId
      | None =>
          match expectedSegments !! index with
          | Some segment => seg_id segment
          | None => "segment-" +:+ ofNat (index + 1)
          end
      end.
Proof.
  unfold readStoredSegment. intros Hread.
  destruct (entries !! index) as [[| | | |items|fields]|] eqn:Hentry; simplify_eq/=.
  destruct (Json.get "value" fields) as [[| | |value| |]|] eqn:Hvalue; simplify_eq/=.
  exists fields, value. done.
Qed.

Lemma readStoredSegment_shape expectedSegments entries index fields value :
  entries !! index = Some (JObject fields) →
  Json.get "value" fields = Some (JString value) →
  ∃ resolved,
    readStoredSegment expectedSegments entries index = Some resolved ∧
    sel_value resolved = value ∧
    sel_id resolved =
      match Json.asString (Json.get "id" fields) with
      | Some storedId => storedId
      | None =>
          match expectedSegments !! index with
          | Some segment => seg_id segment
          | None => "segment-" +:+ ofNat (index + 1)
          end
      end.
Proof.
  intros Hentry Hvalue. unfold readStoredSegment. rewrite Hentry. simpl.
  rewrite Hvalue. simpl. eexists. split; [reflexivity|]. done.
Qed.

Lemma snapshotOfParsed_Some parsed expectedSegments chosen :
  snapshotOfParsed parsed expectedSegments = Some chosen →
  ∃ entries,
    storedIdentity parsed (slug chosen) entries ∧
    truthy (slug chosen) = true ∧
    length entries = length expectedSegments ∧
    Forall2 (λ index resolved,
               readStoredSegment expectedSegments entries index = Some resolved)
            (seq 0 (length expectedSegments)) (segments chosen).
Proof.
  unfold snapshotOfParsed. intros Hsnapshot.
  destruct parsed as [| | | | |root]; simplify_eq/=.
  destruct (Json.get "meta" root) as [[| | | | |meta]|] eqn:Hmeta; simplify_eq/=.
  destruct (Json.get "identity" meta) as [[| | | | |identity]|] eqn:Hidentity; simplify_eq/=.
  destruct (Json.get "slug" identity) as [[| | |storedSlug| |]|] eqn:Hslug; simplify_eq/=.
  destruct (Json.get "segments" identity) as [[| | | |entries|]|] eqn:Hsegments; simplify_eq/=.
  destruct (truthy storedSlug) eqn:Htruthy; simplify_eq/=.
  destruct (Nat.eqb_spec (length entries) (length expectedSegments)) as [Hlength|];
    simplify_eq/=.
  destruct (mapM _ _) as [selections|] eqn:Hselections; simplify_eq/=.
  exists entries. split; [by exists root, meta, identity|].
  split; [done|]. split; [done|]. by apply mapM_Some.
Qed.

Lemma snapshotOfParsed_shape parsed expectedSegments chosen :
  snapshotOfParsed parsed expectedSegments = Some chosen →
  snapshotShape parsed (length expectedSegments).
Proof.
  intros (entries & Hstored & _ & Hlength & Hread)%snapshotOfParsed_Some.
  exists (slug chosen), entries. split; [done|]. split; [done|].
  apply Forall_lookup. intros index entry Hentry.
  assert (index < length (seq 0 (length expectedSegments)))%nat as Hindex.
  { rewrite length_seq, <- Hlength. by eapply lookup_lt_Some. }
  apply lookup_lt_is_Some in Hindex as [position Hposition].
  pose proof Hposition as Hseq. apply lookup_seq in Hseq as [-> _].
  destruct (Forall2_lookup_l _ _ _ _ _ Hread Hposition) as (resolved & _ & Hresolved).
  apply readStoredSegment_Some in Hresolved as (fields & value & Hfields & Hvalue & _).
  simpl in Hfields. rewrite Hentry in Hfields. simplify_eq. by exists fields, value.
Qed.

Lemma storedIdentity_inj parsed slug1 entries1 slug2 entries2 :
  storedIdentity parsed slug1 entries1 →
  storedIdentity parsed slug2 entries2 →
  slug1 = slug2 ∧ entries1 = entries2.
Proof.
  intros (root1 & meta1 & identity1 & -> & Hm1 & Hi1 & Hs1 & He1)
         (root2 & meta2 & identity2 & Heq & Hm2 & Hi2 & Hs2 & He2).
  simplify_eq. done.
Qed.

Lemma snapshotOfParsed_accepts parsed expectedSegments storedSlug entries :
  storedIdentity parsed storedSlug entries →
  truthy storedSlug = true →
  length entries = length expectedSegments →
  Forall storedSegmentShape entries →
  ∃ chosen,
    snapshotOfParsed parsed expectedSegments = Some chosen ∧
    slug chosen = storedSlug ∧
    Forall2 (λ index resolved,
               readStoredSegment expectedSegments entries index = Some resolved)
            (seq 0 (length expectedSegments)) (segments chosen).
Proof.
  intros (root & meta & identity & -> & Hmeta & Hidentity & Hslug & Hsegments)
         Htruthy Hlength Hshapes.
  unfold snapshotOfParsed. simpl. rewrite Hmeta. simpl. rewrite Hidentity. simpl.
  rewrite Hslug, Hsegments. simpl. rewrite Htruthy, Hlength, Nat.eqb_refl. simpl.
  assert (is_Some (mapM (readStoredSegment expectedSegments entries)
                        (seq 0 (length expectedSegments)))) as [selections Hselections].
  { apply mapM_is_Some. apply Forall_forall. intros index [_ Hindex]%elem_of_seq.
    simpl in Hindex. rewrite <- Hlength in Hindex.
    apply lookup_lt_is_Some in Hindex as [entry Hentry].
    pose proof (proj1 (Forall_lookup _ _) Hshapes index entry Hentry)
      as (fields & value & -> & Hvalue).
    destruct (readStoredSegment_shape expectedSegments entries index fields value
                Hentry Hvalue) as (resolved & Hresolved & _).
    simpl. rewrite Hresolved. by eexists. }
  rewrite Hselections. simpl. eexists. split; [reflexivity|]. split; [done|].
  by apply mapM_Some.
Qed.

(** ** The scan *)

Lemma readIdentitySelectionSnapshot_malformed file expectedSegments :
  malformed file (length expectedSegments) →
  readIdentitySelectionSnapshot file expectedSegments = ([EvReadFile (af_path file)], Ok None).
Proof.
  unfold malformed, readIdentitySelectionSnapshot.
  destruct (af_read file) as [code|[parsed|]]; [done| |done].
  intros Hshape. destruct (snapshotOfParsed parsed expectedSegments) as [chosen|] eqn:Hsnapshot;
    [|done].
  destruct Hshape. by eapply snapshotOfParsed_shape.
Qed.

Lemma readSnapshots_app expectedSegments before after selections :
  readSnapshots expectedSegments (before ++ after) selections =
  (known <@ readSnapshots expectedSegments before selections ;
   readSnapshots expectedSegments after known).
Proof.
  revert selections. induction before as [|file before IH]; intros selections; simpl.
  - by destruct (readSnapshots expectedSegments after selections).
  - unfold readIdentitySelectionSnapshot.
    destruct (af_read file) as [[| | |]|[parsed|]]; simpl; try done.
    + rewrite IH. unfold bindS.
      destruct (readSnapshots expectedSegments before selections) as [log [known|e]]; [|done].
      by destruct (readSnapshots expectedSegments after known).
    + destruct (snapshotOfParsed parsed expectedSegments) as [found|];
        rewrite IH; unfold bindS;
        destruct (readSnapshots expectedSegments before _) as [log [known|e]]; try done;
        by destruct (readSnapshots expectedSegments after known).
    + rewrite IH. unfold bindS.
      destruct (readSnapshots expectedSegments before selections) as [log [known|e]]; [|done].
      by destruct (readSnapshots expectedSegments after known).
Qed.

Lemma readSnapshots_cons_malformed expectedSegments file after selections :
  malformed file (length expectedSegments) →
  readSnapshots expectedSegments (file :: after) selections =
  (let '(log, outcome) := readSnapshots expectedSegments after selections in
   (EvReadFile (af_path file) :: log, outcome)).
Proof.
  intros Hmalformed.
  change (readSnapshots expectedSegments (file :: after) selections)
    with (snapshot <@ readIdentitySelectionSnapshot file expectedSegments ;
          match snapshot with
          | None => readSnapshots expectedSegments after selections
          | Some found =>
              readSnapshots expectedSegments after (rememberSelection selections found)
          end).
  by rewrite readIdentitySelectionSnapshot_malformed.
Qed.

Lemma readSnapshots_skips expectedSegments before file after selections :
  malformed file (length expectedSegments) →
  (readSnapshots expectedSegments (before ++ file :: after) selections).2 =
  (readSnapshots expectedSegments (before ++ after) selections).2.
Proof.
  intros Hmalformed. rewrite !readSnapshots_app. unfold bindS.
  destruct (readSnapshots expectedSegments before selections) as [log [known|e]]; [|done].
  rewrite readSnapshots_cons_malformed by done.
  by destruct (readSnapshots expectedSegments after known).
Qed.

Lemma readSnapshots_Ok expectedSegments files selections log result :
  readSnapshots expectedSegments files selections = (log, Ok result) →
  result = foldl rememberSelection selections (snapshotsOf expectedSegments files).
Proof.
  revert selections log. induction files as [|file files IH]; intros selections log; simpl.
  - unfold retS. by intros [= _ <-].
  - unfold readIdentitySelectionSnapshot, snapshotsOf. simpl.
    destruct (af_read file) as [[| | |]|[parsed|]]; simpl; try done.
    + destruct (readSnapshots expectedSegments files selections) as [log' outcome] eqn:Hrest.
      intros [= _ ->]. by eapply IH.
    + destruct (snapshotOfParsed parsed expectedSegments) as [found|]; simpl.
      * destruct (readSnapshots expectedSegments files _) as [log' outcome] eqn:Hrest.
        intros [= _ ->]. by eapply IH.
      * destruct (readSnapshots expectedSegments files _) as [log' outcome] eqn:Hrest.
        intros [= _ ->]. by eapply IH.
    + destruct (readSnapshots expectedSegments files selections) as [log' outcome] eqn:Hrest.
      intros [= _ ->]. by eapply IH.
Qed.

Lemma rememberSelection_known selections found :
  existsb (λ known, String.eqb (slug known) (slug found)) selections = true ↔
  slug found ∈ map slug selections.
Proof.
  rewrite existsb_exists, list_elem_of_fmap. split.
  - intros (known & Hin & Heq%String.eqb_eq). exists known.
    split; [done|]. by apply list_elem_of_In.
  - intros (known & -> & Hin). exists known. split; [by apply list_elem_of_In|].
    apply String.eqb_refl.
Qed.

Lemma remembered_NoDup selections found :
  NoDup (map slug selections) →
  NoDup (map slug (foldl rememberSelection selections found)).
Proof.
  revert selections. induction found as [|entry found IH]; intros selections Hnodup; simpl;
    [done|].
  apply IH. unfold rememberSelection.
  destruct (existsb _ selections) eqn:Hknown; [done|].
  rewrite map_app. simpl. apply NoDup_app. split; [done|]. split.
  - intros text Htext ->%list_elem_of_singleton.
    apply rememberSelection_known in Htext. congruence.
  - apply NoDup_singleton.
Qed.

Lemma find_app_first {A} (f : A → bool) (xs ys : list A) :
  find f (xs ++ ys) = match find f xs with Some x => Some x | None => find f ys end.
Proof.
  induction xs as [|x xs IH]; simpl; [done|]. by destruct (f x).
Qed.

Lemma find_withSlug_None slugText selections :
  find (withSlug slugText) selections = None ↔ slugText ∉ map slug selections.
Proof.
  induction selections as [|known selections IH]; simpl.
  - split; [intros _ Hnil; by apply elem_of_nil in Hnil|done].
  - unfold withSlug at 1. destruct (String.eqb_spec (slug known) slugText) as [<-|Hne].
    + split; [done|]. intros Hnot. destruct Hnot. by left.
    + rewrite IH, not_elem_of_cons. split; [by intros|by intros [_ ?]].
Qed.

Lemma remembered_first slugText selections found :
  find (withSlug slugText) (foldl rememberSelection selections found) =
  match find (withSlug slugText) selections with
  | Some known => Some known
  | None => find (withSlug slugText) found
  end.
Proof.
  revert selections. induction found as [|entry found IH]; intros selections; simpl.
  - by destruct (find _ selections).
  - rewrite IH. unfold rememberSelection.
    destruct (existsb _ selections) eqn:Hknown.
    + destruct (find (withSlug slugText) selections) eqn:Hfind; [done|].
      apply rememberSelection_known in Hknown.
      destruct (withSlug slugText entry) eqn:Hentry; [|done].
      apply String.eqb_eq in Hentry as <-.
      apply find_withSlug_None in Hfind. by destruct Hfind.
    + rewrite find_app_first. simpl.
      destruct (find (withSlug slugText) selections); [done|].
      by destruct (withSlug slugText entry).
Qed.

Lemma remembered_sublist selections found :
  ∃ kept, foldl rememberSelection selections found = (selections ++ kept)%list ∧
          kept `sublist_of` found.
Proof.
  revert selections. induction found as [|entry found IH]; intros selections; simpl.
  - exists []. by rewrite app_nil_r.
  - destruct (IH (rememberSelection selections entry)) as (kept & -> & Hkept).
    unfold rememberSelection. destruct (existsb _ selections).
    + exists kept. split; [done|]. by apply sublist_cons.
    + exists (entry :: kept). rewrite <- app_assoc. split; [done|]. by apply sublist_skip.
Qed.

Lemma readSnapshots_readable expectedSegments files selections :
  forallb readable files = true →
  ∃ result,
    readSnapshots expectedSegments files selections = (map readEvent files, Ok result).
Proof.
  revert selections. induction files as [|file files IH]; intros selections; simpl.
  - intros _. by exists selections.
  - intros [Hfile Hfiles]%andb_prop.
    unfold readable in Hfile. unfold readIdentitySelectionSnapshot, readEvent at 1.
    destruct (af_read file) as [[| | |]|[parsed|]]; try done; simpl.
    + destruct (IH selections Hfiles) as [result ->]. by exists result.
    + destruct (snapshotOfParsed parsed expectedSegments) as [found|].
      * destruct (IH (rememberSelection selections found) Hfiles) as [result ->].
        by exists result.
      * destruct (IH selections Hfiles) as [result ->]. by exists result.
    + destruct (IH selections Hfiles) as [result ->]. by exists result.
Qed.

Lemma FsNode_nested_ind (P : FsNode → Prop) :
  (∀ content, P (NFile content)) →
  (∀ entries, Forall (λ entry, P entry.2) entries → P (NDir entries)) →
  (∀ code, P (NDirError code)) →
  P NOther →
  ∀ node, P node.
Proof.
  intros HFile HDir HError HOther. fix IH 1. intros [content|entries|code|].
  - apply HFile.
  - apply HDir. induction entries as [|[name child] entries IHentries].
    + constructor.
    + constructor; [apply IH|apply IHentries].
  - apply HError.
  - apply HOther.
Qed.

(** ** Snapshots and the files that hold them *)

Lemma holdsSnapshot_read file parsed expectedSegments chosen :
  af_read file = ReadText (Some parsed) →
  snapshotOfParsed parsed expectedSegments = Some chosen →
  holdsSnapshot file (length expectedSegments) (slug chosen)
    (map sel_value (segments chosen)).
Proof.
  intros Hread (entries & Hstored & Htruthy & Hlength & Hsegments)%snapshotOfParsed_Some.
  exists parsed, entries. repeat (split; [done|]).
  pose proof (Forall2_length _ _ _ Hsegments) as Hcount. rewrite length_seq in Hcount.
  apply Forall2_same_length_lookup. split; [by rewrite length_map, <- Hcount|].
  intros index entry value Hentry Hvalue.
  rewrite list_lookup_fmap in Hvalue.
  destruct (segments chosen !! index) as [resolved|] eqn:Hresolved; [|done].
  injection Hvalue as <-.
  assert (seq 0 (length expectedSegments) !! index = Some index) as Hindex.
  { apply lookup_seq. split; [done|]. rewrite <- Hlength. by eapply lookup_lt_Some. }
  pose proof (Forall2_lookup_lr _ _ _ _ _ _ Hsegments Hindex Hresolved) as Hstep.
  apply readStoredSegment_Some in Hstep as (fields & value & Hfields & Hvalue & <- & _).
  rewrite Hentry in Hfields. injection Hfields as ->. by exists fields.
Qed.

Lemma holdsSnapshot_accepted file expectedSegments storedSlug values :
  holdsSnapshot file (length expectedSegments) storedSlug values →
  ∃ parsed chosen,
    af_read file = ReadText (Some parsed) ∧
    snapshotOfParsed parsed expectedSegments = Some chosen ∧
    slug chosen = storedSlug ∧
    map sel_value (segments chosen) = values.
Proof.
  intros (parsed & entries & Hread & Hstored & Htruthy & Hlength & Hvalues).
  destruct (snapshotOfParsed_accepts parsed expectedSegments storedSlug entries)
    as (chosen & Hchosen & Hslug & Hsegments); try done.
  { eapply Forall2_Forall_l; [exact Hvalues|]. apply Forall_forall.
    intros value _ entry (fields & -> & Hvalue). by exists fields, value. }
  exists parsed, chosen. repeat (split; [done|]).
  pose proof (Forall2_length _ _ _ Hsegments) as Hcount. rewrite length_seq in Hcount.
  pose proof (Forall2_length _ _ _ Hvalues) as Hcount'.
  apply (list_eq_same_length _ _ (length expectedSegments)).
  - by rewrite <- Hcount', Hlength.
  - by rewrite length_map, <- Hcount.
  - intros index value value' Hindex Hvalue Hvalue'.
    rewrite list_lookup_fmap in Hvalue.
    destruct (segments chosen !! index) as [resolved|] eqn:Hresolved; [|done].
    injection Hvalue as <-.
    assert (seq 0 (length expectedSegments) !! index = Some index) as Hposition.
    { by apply lookup_seq. }
    pose proof (Forall2_lookup_lr _ _ _ _ _ _ Hsegments Hposition Hresolved) as Hstep.
    apply readStoredSegment_Some in Hstep as (fields & value & Hfields & Hvalue & <- & _).
    destruct (Forall2_lookup_l _ _ _ _ _ Hvalues Hfields)
      as (found & Hfound & fields' & Hentry & Hstored').
    injection Hentry as <-. congruence.
Qed.

Lemma snapshotsOf_app expectedSegments before after :
  snapshotsOf expectedSegments (before ++ after) =
  (snapshotsOf expectedSegments before ++ snapshotsOf expectedSegments after)%list.
Proof. unfold snapshotsOf. apply omap_app. Qed.

(** Every snapshot the files yield is held by one of them. *)
Lemma snapshotsOf_held expectedSegments files chosen :
  chosen ∈ snapshotsOf expectedSegments files →
  ∃ file, file ∈ files ∧
          holdsSnapshot file (length expectedSegments) (slug chosen)
            (map sel_value (segments chosen)).
Proof.
  unfold snapshotsOf. intros (file & Hfile & Hchosen)%list_elem_of_omap.
  exists file. split; [done|].
  destruct (af_read file) as [code|[parsed|]] eqn:Hread; try done.
  by eapply holdsSnapshot_read.
Qed.

(** The first file that holds a snapshot under a slug is the one whose
    snapshot is found under that slug. *)
Lemma snapshotsOf_first expectedSegments before file after storedSlug values :
  holdsSnapshot file (length expectedSegments) storedSlug values →
  (∀ earlier values',
     earlier ∈ before →
     ¬ holdsSnapshot earlier (length expectedSegments) storedSlug values') →
  ∃ kept,
    find (withSlug storedSlug)
      (snapshotsOf expectedSegments (before ++ file :: after)) = Some kept ∧
    slug kept = storedSlug ∧
    map sel_value (segments kept) = values.
Proof.
  intros (parsed & chosen & Hread & Hchosen & Hslug & Hvalues)%holdsSnapshot_accepted
    Hfirst.
  exists chosen. split; [|done].
  rewrite snapshotsOf_app, find_app_first.
  assert (find (withSlug storedSlug) (snapshotsOf expectedSegments before) = None)
    as ->.
  { apply find_withSlug_None.
    intros (known & Hknown & Hin)%list_elem_of_fmap.
    apply snapshotsOf_held in Hin as (earlier & Hearlier & Hheld).
    rewrite <- Hknown in Hheld. by eapply Hfirst. }
  unfold snapshotsOf. simpl. rewrite Hread, Hchosen. simpl.
  unfold withSlug at 1. by rewrite Hslug, String.eqb_refl.
Qed.

Lemma walkable_cons name child more :
  walkable (NDir ((name, child) :: more)) = (walkable child && walkable (NDir more)).
Proof. reflexivity. Qed.

Section ScannerProperties.

Context `{NodePath} `{PromptPersistence}.

Lemma collectPersistedIdentitySelections_reads disk repoRoot scenarioId declared log files :
  declared ≠ [] →
  collectIdentityAnswerFilesAt disk (scenarioAnswersDir repoRoot scenarioId) =
    (log, Ok files) →
  (collectPersistedIdentitySelections disk repoRoot scenarioId declared).2 =
  (readSnapshots declared files []).2.
Proof.
  intros Hdeclared Hfiles. unfold collectPersistedIdentitySelections.
  destruct declared as [|segment declared]; [done|]. simpl length. simpl Nat.eqb.
  cbv iota. rewrite Hfiles. unfold bindS.
  destruct files as [|file files]; [done|]. simpl length. simpl Nat.eqb. cbv iota.
  by destruct (readSnapshots _ _ _).
Qed.

Lemma jsonFilesOf_cons dir name child more :
  jsonFilesOf dir (NDir ((name, child) :: more)) =
  (match child with
   | NFile content =>
       if endsWith name ".json"
       then [{| af_path := path_join [dir; name]; af_read := content |}]
       else []
   | NDir _ | NDirError _ => jsonFilesOf (path_join [dir; name]) child
   | NOther => []
   end ++ jsonFilesOf dir (NDir more))%list.
Proof. reflexivity. Qed.

(** On a tree whose directories can all be listed the walk returns the
    files of the tree named [*.json], depth first in listing order. *)
Lemma collectIdentityAnswerFiles_walkable node dir :
  walkable node = true →
  (collectIdentityAnswerFiles dir node).2 = Ok (jsonFilesOf dir node).
Proof.
  revert dir. induction node as [content|entries IH|code|] using FsNode_nested_ind;
    intros dir Hwalkable.
  - reflexivity.
  - simpl collectIdentityAnswerFiles.
    match goal with
    | |- context [?loop entries (@nil AnswerFile)] => set (walk := loop)
    end.
    assert (∀ collected,
              walkable (NDir entries) = true →
              (walk entries collected).2 =
              Ok (collected ++ jsonFilesOf dir (NDir entries))%list) as Hwalk.
    { clear Hwalkable.
      induction IH as [|[name child] more Hchild _ IHmore]; intros collected Hwalkable.
      - simpl. by rewrite app_nil_r.
      - rewrite walkable_cons in Hwalkable.
        apply andb_prop in Hwalkable as [Hhere Hmore].
        rewrite jsonFilesOf_cons. destruct child as [content|nested|code|].
        + change (walk ((name, NFile content) :: more) collected) with
            (if endsWith name ".json"
             then walk more
                    (collected ++ [{| af_path := path_join [dir; name];
                                      af_read := content |}])%list
             else walk more collected).
          destruct (endsWith name ".json").
          * rewrite IHmore by done. by rewrite <- app_assoc.
          * by rewrite IHmore.
        + change (walk ((name, NDir nested) :: more) collected) with
            (bindS (collectIdentityAnswerFiles (path_join [dir; name]) (NDir nested))
               (λ inner, walk more (collected ++ inner)%list)).
          pose proof (Hchild (path_join [dir; name]) Hhere) as Hinner.
          cbn [snd] in Hinner. unfold bindS.
          destruct (collectIdentityAnswerFiles (path_join [dir; name]) (NDir nested))
            as [log outcome]; cbn [snd] in Hinner. subst outcome.
          pose proof (IHmore (collected ++ jsonFilesOf (path_join [dir; name])
                                              (NDir nested))%list Hmore) as Hrest.
          destruct (walk more _) as [log' outcome]. cbn [snd] in *.
          by rewrite Hrest, app_assoc.
        + change (walk ((name, NDirError code) :: more) collected) with
            (bindS (collectIdentityAnswerFiles (path_join [dir; name]) (NDirError code))
               (λ inner, walk more (collected ++ inner)%list)).
          simpl collectIdentityAnswerFiles. unfold bindS.
          destruct code; try done;
            (pose proof (IHmore (collected ++ [])%list Hmore) as Hrest;
             destruct (walk more (collected ++ [])%list) as [log' outcome];
             cbn [snd] in *; by rewrite Hrest, app_nil_r).
        + change (walk ((name, NOther) :: more) collected) with (walk more collected).
          by rewrite IHmore. }
    pose proof (Hwalk [] Hwalkable) as Hfiles.
    destruct (walk entries []) as [log outcome]. by simpl in *.
  - by destruct code.
  - reflexivity.
Qed.

(** C4.  The snapshot scan returns the empty list when the scenario
    answers directory does not exist; a file that fails to parse, or
    that is not an object with a [meta.identity] object holding a string
    slug and a segments array of the declared length whose entries are
    objects with a string value, reads as no snapshot and the scan goes
    on as if the file were not there; and the scan returns at most one
    selection per slug, the first one found in traversal order.  On a
    tree that can be walked and read the scan succeeds, and what it
    returns is what the tree holds: under every slug the values of the
    first file named [*.json], depth first in listing order, that holds
    a snapshot with that slug, and no selection that no such file
    holds. *)
Theorem scan_skips_and_deduplicates disk repoRoot scenarioId declared :
  (disk (scenarioAnswersDir repoRoot scenarioId) = None →
   (collectPersistedIdentitySelections disk repoRoot scenarioId declared).2 = Ok []) ∧
  (∀ file, malformed file (length declared) →
     readIdentitySelectionSnapshot file declared =
       ([EvReadFile (af_path file)], Ok None) ∧
     ∀ log before after,
       declared ≠ [] →
       collectIdentityAnswerFilesAt disk (scenarioAnswersDir repoRoot scenarioId) =
         (log, Ok (before ++ file :: after)%list) →
       (collectPersistedIdentitySelections disk repoRoot scenarioId declared).2 =
       (readSnapshots declared (before ++ after) []).2) ∧
  (∀ log result,
     collectPersistedIdentitySelections disk repoRoot scenarioId declared =
       (log, Ok result) →
     NoDup (map slug result) ∧
     ∀ log' files,
       declared ≠ [] →
       collectIdentityAnswerFilesAt disk (scenarioAnswersDir repoRoot scenarioId) =
         (log', Ok files) →
       result `sublist_of` snapshotsOf declared files ∧
       ∀ slugText,
         find (withSlug slugText) result =
         find (withSlug slugText) (snapshotsOf declared files)) ∧
  (∀ node,
     declared ≠ [] →
     disk (scenarioAnswersDir repoRoot scenarioId) = Some node →
     walkable node = true →
     forallb readable (jsonFilesOf (scenarioAnswersDir repoRoot scenarioId) node) = true →
     ∃ log result,
       collectPersistedIdentitySelections disk repoRoot scenarioId declared =
         (log, Ok result) ∧
       (∀ before file after storedSlug values,
          jsonFilesOf (scenarioAnswersDir repoRoot scenarioId) node =
            (before ++ file :: after)%list →
          holdsSnapshot file (length declared) storedSlug values →
          (∀ earlier values',
             earlier ∈ before →
             ¬ holdsSnapshot earlier (length declared) storedSlug values') →
          ∃ kept,
            find (withSlug storedSlug) result = Some kept ∧
            slug kept = storedSlug ∧
            map sel_value (segments kept) = values) ∧
       (∀ kept,
          kept ∈ result →
          ∃ file,
            file ∈ jsonFilesOf (scenarioAnswersDir repoRoot scenarioId) node ∧
            holdsSnapshot file (length declared) (slug kept)
              (map sel_value (segments kept)))).
Proof.
  split; [|split; [|split]].
  - intros Habsent. unfold collectPersistedIdentitySelections.
    destruct (length declared =? 0)%nat; [done|].
    unfold collectIdentityAnswerFilesAt. by rewrite Habsent.
  - intros file Hmalformed.
    split; [by apply readIdentitySelectionSnapshot_malformed|].
    intros log before after Hdeclared Hfiles.
    erewrite collectPersistedIdentitySelections_reads by done.
    by apply readSnapshots_skips.
  - intros log result Hscan.
    assert (∀ log' files,
              declared ≠ [] →
              collectIdentityAnswerFilesAt disk (scenarioAnswersDir repoRoot scenarioId) =
                (log', Ok files) →
              result = foldl rememberSelection [] (snapshotsOf declared files)) as Hresult.
    { intros log' files Hdeclared Hfiles.
      pose proof (collectPersistedIdentitySelections_reads disk repoRoot scenarioId
                    declared log' files Hdeclared Hfiles) as Hreads.
      rewrite Hscan in Hreads. simpl in Hreads.
      destruct (readSnapshots declared files []) as [log'' outcome] eqn:Hread.
      simpl in Hreads. subst outcome. by eapply readSnapshots_Ok. }
    split.
    + unfold collectPersistedIdentitySelections in Hscan.
      destruct declared as [|segment declared].
      { simpl in Hscan. injection Hscan as _ <-. constructor. }
      simpl length in Hscan. simpl Nat.eqb in Hscan. cbv iota in Hscan.
      destruct (collectIdentityAnswerFilesAt disk (scenarioAnswersDir repoRoot scenarioId))
        as [log' [files|e]] eqn:Hfiles; [|done].
      rewrite (Hresult log' files); [|done|done].
      apply remembered_NoDup. constructor.
    + intros log' files Hdeclared Hfiles. rewrite (Hresult log' files Hdeclared Hfiles).
      split.
      * destruct (remembered_sublist [] (snapshotsOf declared files)) as (kept & -> & Hkept).
        done.
      * intros slugText. by rewrite remembered_first.
  - intros node Hdeclared Hnode Hwalkable Hreadable.
    set (dir := scenarioAnswersDir repoRoot scenarioId) in *.
    pose proof (collectIdentityAnswerFiles_walkable node dir Hwalkable) as Hwalk.
    assert (∃ log', collectIdentityAnswerFilesAt disk dir =
                    (log', Ok (jsonFilesOf dir node))) as [log' Hfiles].
    { unfold collectIdentityAnswerFilesAt. rewrite Hnode.
      destruct (collectIdentityAnswerFiles dir node) as [log' outcome].
      simpl in Hwalk. subst outcome. by exists log'. }
    destruct (readSnapshots_readable declared (jsonFilesOf dir node) [] Hreadable)
      as [result Hread].
    assert (∃ log, collectPersistedIdentitySelections disk repoRoot scenarioId declared =
                   (log, Ok result)) as [log Hscan].
    { pose proof (collectPersistedIdentitySelections_reads disk repoRoot scenarioId
                    declared log' _ Hdeclared Hfiles) as Hreads.
      rewrite Hread in Hreads.
      destruct (collectPersistedIdentitySelections disk repoRoot scenarioId declared)
        as [log outcome].
      simpl in Hreads. subst outcome. by exists log. }
    apply readSnapshots_Ok in Hread.
    exists log, result. split; [done|]. split.
    + intros before file after storedSlug values Hsplit Hheld Hfirst.
      rewrite Hread, remembered_first. simpl. rewrite Hsplit.
      by apply snapshotsOf_first.
    + intros kept Hkept. apply snapshotsOf_held.
      destruct (remembered_sublist [] (snapshotsOf declared (jsonFilesOf dir node)))
        as (chosen & Hchosen & Hsub).
      rewrite <- Hread in Hchosen. simpl in Hchosen. subst chosen.
      by eapply elem_of_sublist.
Qed.

End ScannerProperties.

(** C10.  A stored segment entry that is an object with a string value
    but without a string id does not make the scanner skip the file: the
    segment read back carries the id of the segment declared at that
    position (and [readStoredSegment] falls back to segment-<i+1> where no
    segment is declared at the position). *)
Theorem snapshot_without_id_takes_declared_id parsed storedSlug entries expectedSegments :
  storedIdentity parsed storedSlug entries →
  truthy storedSlug = true →
  length entries = length expectedSegments →
  Forall storedSegmentShape entries →
  ∃ chosen,
    snapshotOfParsed parsed expectedSegments = Some chosen ∧
    ∀ index fields,
      entries !! index = Some (JObject fields) →
      Json.asString (Json.get "id" fields) = None →
      (∃ segment resolved,
         expectedSegments !! index = Some segment ∧
         segments chosen !! index = Some resolved ∧
         sel_id resolved = seg_id segment) ∧
      (∀ fewer resolved,
         fewer !! index = None →
         readStoredSegment fewer entries index = Some resolved →
         sel_id resolved = "segment-" +:+ ofNat (index + 1)).
Proof.
  intros Hstored Htruthy Hlength Hshapes.
  destruct (snapshotOfParsed_accepts parsed expectedSegments storedSlug entries
              Hstored Htruthy Hlength Hshapes) as (chosen & Hchosen & _ & Hread).
  exists chosen. split; [done|]. intros index fields Hentry Hid. split.
  - assert (index < length expectedSegments)%nat as Hindex.
    { rewrite <- Hlength. by eapply lookup_lt_Some. }
    destruct (lookup_lt_is_Some_2 expectedSegments index Hindex) as [segment Hsegment].
    assert (seq 0 (length expectedSegments) !! index = Some index) as Hseq.
    { by apply lookup_seq. }
    destruct (Forall2_lookup_l _ _ _ _ _ Hread Hseq) as (resolved & Hresolved & Hbuilt).
    exists segment, resolved. split; [done|]. split; [done|].
    apply readStoredSegment_Some in Hbuilt as (fields' & value & Hfields & _ & _ & _ & ->).
    rewrite Hentry in Hfields. simplify_eq. by rewrite Hid, Hsegment.
  - intros fewer resolved Hfewer Hbuilt.
    apply readStoredSegment_Some in Hbuilt as (fields' & value & Hfields & _ & _ & _ & ->).
    rewrite Hentry in Hfields. simplify_eq. by rewrite Hid, Hfewer.
Qed.

Section ScannerOnSamples.

#[local] Existing Instances Sample.posix Sample.freshStore.

Lemma scan_skips_and_deduplicates_witness :
  (collectPersistedIdentitySelections Sample.emptyDisk "/repo" "identity-demo"
     [Sample.category]).2 = Ok [] ∧
  (∀ log result,
     collectPersistedIdentitySelections Sample.staleDisk "/repo" "identity-demo"
       [Sample.category] = (log, Ok result) →
     NoDup (map slug result)) ∧
  ∃ log result kept,
    collectPersistedIdentitySelections Sample.staleDisk "/repo" "identity-demo"
      [Sample.category] = (log, Ok result) ∧
    find (withSlug "x") result = Some kept ∧
    slug kept = "x" ∧
    map sel_value (segments kept) = ["a"].
Proof.
  split; [|split].
  - apply (scan_skips_and_deduplicates Sample.emptyDisk "/repo" "identity-demo"
             [Sample.category]). reflexivity.
  - intros log result Hscan.
    apply (proj1 (proj2 (proj2 (scan_skips_and_deduplicates Sample.staleDisk "/repo"
                                  "identity-demo" [Sample.category]))) log result Hscan).
  - destruct (proj2 (proj2 (proj2 (scan_skips_and_deduplicates Sample.staleDisk "/repo"
                                     "identity-demo" [Sample.category])))
                (NDir [ ("a.json", NFile (ReadText (Some Sample.staleSnapshot)));
                        ("broken.json", NFile (ReadText None));
                        ("nested",
                         NDir [ ("b.json", NFile (ReadText (Some Sample.staleSnapshot))) ]);
                        ("notes.txt", NFile (ReadText None)) ])
                ltac:(discriminate) eq_refl eq_refl eq_refl)
      as (log & result & Hscan & Hfirst & _).
    destruct (Hfirst []
                {| af_path := "/repo/.dev-wizard/answers/identity-demo/a.json";
                   af_read := ReadText (Some Sample.staleSnapshot) |}
                [ {| af_path := "/repo/.dev-wizard/answers/identity-demo/broken.json";
                     af_read := ReadText None |};
                  {| af_path := "/repo/.dev-wizard/answers/identity-demo/nested/b.json";
                     af_read := ReadText (Some Sample.staleSnapshot) |} ]
                "x" ["a"] eq_refl)
      as (kept & Hkept & Hslug & Hvalues).
    + exists Sample.staleSnapshot, [JObject [("value", JString "a")]].
      split; [reflexivity|]. split; [by eexists _, _, _|].
      split; [reflexivity|]. split; [reflexivity|].
      constructor; [by eexists|constructor].
    + intros earlier values' Hearlier. by apply elem_of_nil in Hearlier.
    + by exists log, result, kept.
Defined.

Lemma snapshot_without_id_takes_declared_id_witness :
  (∃ chosen,
     snapshotOfParsed Sample.staleSnapshot [Sample.category] = Some chosen ∧
     ∀ index fields,
       [JObject [("value", JString "a")]] !! index = Some (JObject fields) →
       Json.asString (Json.get "id" fields) = None →
       (∃ segment resolved,
          [Sample.category] !! index = Some segment ∧
          segments chosen !! index = Some resolved ∧
          sel_id resolved = seg_id segment) ∧
       (∀ fewer resolved,
          fewer !! index = None →
          readStoredSegment fewer [JObject [("value", JString "a")]] index = Some resolved →
          sel_id resolved = "segment-" +:+ ofNat (index + 1))) ∧
  (collectPersistedIdentitySelections Sample.staleDisk "/repo" "identity-demo"
     [Sample.category]).2 = Ok [Sample.staleSelection].
Proof.
  split; [|reflexivity].
  apply (snapshot_without_id_takes_declared_id Sample.staleSnapshot "x"
           [JObject [("value", JString "a")]] [Sample.category]).
  - eexists _, _, _. repeat split; reflexivity.
  - reflexivity.
  - reflexivity.
  - repeat constructor. by eexists _, _.
Defined.

Lemma scanner_keeps_stored_slug :
  (collectPersistedIdentitySelections Sample.staleDisk "/repo" "identity-demo"
     [Sample.category]).2 = Ok [Sample.staleSelection] ∧
  ¬ slugDerivable Sample.staleSelection.
Proof. split; [reflexivity|]. unfold slugDerivable. simpl. discriminate. Qed.

End ScannerOnSamples.

(** ** The prompt monad *)

Lemma earlier_settle {A} (before : list Event) (outcome : Try A) rest log :
  earlier before (settle outcome rest log) = settle outcome rest (before ++ log).
Proof. by destruct outcome. Qed.

Lemma bindP_Done {A B} (m : Prompt A) (k : A → Prompt B) script b rest log :
  bindP m k script = Done b rest log →
  ∃ a middle log1 log2,
    m script = Done a middle log1 ∧ k a middle = Done b rest log2 ∧
    log = (log1 ++ log2)%list.
Proof.
  unfold bindP. destruct (m script) as [a middle log1|e middle log1|log1]; [|done|done].
  destruct (k a middle) as [b' rest' log2|e rest' log2|log2] eqn:Hk; simpl; [|done|done].
  intros [= -> -> <-]. by exists a, middle, log1, log2.
Qed.

(** *** Returned values *)

Lemma returns_ret {A} (a : A) (P : A → Prop) : P a → returns (retP a) P.
Proof. intros Ha script a' rest log [= <- _ _]. done. Qed.

Lemma returns_throw {A} e (P : A → Prop) : returns (throwP e) P.
Proof. by intros script a rest log. Qed.

Lemma returns_bind {A B} (m : Prompt A) (k : A → Prompt B) (P : A → Prop) (Q : B → Prop) :
  returns m P → (∀ a, P a → returns (k a) Q) → returns (bindP m k) Q.
Proof.
  intros Hm Hk script b rest log (a & middle & log1 & log2 & Hrun & Hnext & _)%bindP_Done.
  eapply Hk; [|done]. by eapply Hm.
Qed.

Lemma returns_weaken {A} (m : Prompt A) (P Q : A → Prop) :
  returns m P → (∀ a, P a → Q a) → returns m Q.
Proof. intros Hm Himpl script a rest log Hrun. eapply Himpl, Hm. done. Qed.

Lemma returns_liftT {A} (t : Try A) (P : A → Prop) :
  (∀ a, t = Ok a → P a) → returns (liftT t) P.
Proof.
  intros Ht. destruct t as [a|e]; simpl; [apply returns_ret; auto|apply returns_throw].
Qed.

Lemma returns_bind_liftT {A B} (t : Try A) (k : A → Prompt B) (Q : B → Prop) :
  (∀ a, t = Ok a → returns (k a) Q) → returns (bindP (liftT t) k) Q.
Proof.
  intros Hk. eapply (returns_bind _ _ (λ a, t = Ok a)); [by apply returns_liftT|done].
Qed.

(** *** Code that never prompts *)

Lemma scriptFree_ret {A} (a : A) : scriptFree (retP a).
Proof. by exists (Ok a), []. Qed.

Lemma scriptFree_throw {A} e : scriptFree (@throwP A e).
Proof. by exists (Throw e), []. Qed.

Lemma scriptFree_cancel message : scriptFree (cancel message).
Proof. by exists (Ok tt), [EvCancel message]. Qed.

Lemma scriptFree_liftT {A} (t : Try A) : scriptFree (liftT t).
Proof. destruct t; [apply scriptFree_ret|apply scriptFree_throw]. Qed.

Lemma scriptFree_liftS {A} (s : Scan A) : scriptFree (liftS s).
Proof. destruct s as [log [a|e]]; [by exists (Ok a), log|by exists (Throw e), log]. Qed.

Lemma scriptFree_bind {A B} (m : Prompt A) (k : A → Prompt B) :
  scriptFree m → (∀ a, scriptFree (k a)) → scriptFree (bindP m k).
Proof.
  intros (outcome & log & Hm) Hk. destruct outcome as [a|e].
  - destruct (Hk a) as (outcome' & log' & Hka).
    exists outcome', (log ++ log')%list. intros script. unfold bindP.
    rewrite Hm. simpl. rewrite Hka. apply earlier_settle.
  - exists (Throw e), log. intros script. unfold bindP. by rewrite Hm.
Qed.

Lemma scriptFree_catch {A} (m : Prompt A) (handler : WizardError → Prompt A) :
  scriptFree m → (∀ e, scriptFree (handler e)) → scriptFree (catchP m handler).
Proof.
  intros (outcome & log & Hm) Hh. destruct outcome as [a|e].
  - exists (Ok a), log. intros script. unfold catchP. by rewrite Hm.
  - destruct (Hh e) as (outcome' & log' & Hhe).
    exists outcome', (log ++ log')%list. intros script. unfold catchP.
    rewrite Hm. simpl. rewrite Hhe. apply earlier_settle.
Qed.

(** *** Unread responses *)

Lemma extends_ret {A} (a : A) : extends (retP a).
Proof. by intros script extra. Qed.

Lemma extends_throw {A} e : extends (@throwP A e).
Proof. by intros script extra. Qed.

Lemma extends_scriptFree {A} (m : Prompt A) : scriptFree m → extends m.
Proof.
  intros (outcome & log & Hm) script extra. rewrite !Hm. by destruct outcome.
Qed.

Lemma extends_liftT {A} (t : Try A) : extends (liftT t).
Proof. apply extends_scriptFree, scriptFree_liftT. Qed.

Lemma extends_select message options : extends (select message options).
Proof. intros [|response script] extra; done. Qed.

Lemma extends_text message placeholder initialValue :
  extends (text message placeholder initialValue).
Proof. intros [|response script] extra; done. Qed.

Lemma extends_cancel message : extends (cancel message).
Proof. by intros script extra. Qed.

Lemma extends_earlier {A} (m : Prompt A) before :
  extends m → extends (λ script, earlier before (m script)).
Proof.
  intros Hm script extra. specialize (Hm script extra).
  destruct (m script); simpl; [|..]; by rewrite ?Hm.
Qed.

Lemma extends_bind {A B} (m : Prompt A) (k : A → Prompt B) :
  extends m → (∀ a, extends (k a)) → extends (bindP m k).
Proof.
  intros Hm Hk script extra. unfold bindP. specialize (Hm script extra).
  destruct (m script) as [a middle log|e middle log|log]; [| |done].
  - rewrite Hm. specialize (Hk a middle extra).
    destruct (k a middle); simpl; [|..]; by rewrite ?Hk.
  - by rewrite Hm.
Qed.

Lemma extends_catch {A} (m : Prompt A) (handler : WizardError → Prompt A) :
  extends m → (∀ e, extends (handler e)) → extends (catchP m handler).
Proof.
  intros Hm Hh script extra. unfold catchP. specialize (Hm script extra).
  destruct (m script) as [a middle log|e middle log|log]; [|  |done].
  - by rewrite Hm.
  - rewrite Hm. specialize (Hh e middle extra).
    destruct (handler e middle); simpl; [|..]; by rewrite ?Hh.
Qed.

(** *** Cancelling a pending prompt *)

Lemma cancelsTo_scriptFree {A} (outcome : Try A) (m : Prompt A) :
  scriptFree m → cancelsTo outcome m.
Proof.
  intros (settled & log & Hm) script log'. rewrite Hm. by destruct settled.
Qed.

Lemma cancelsTo_bind {A B} (first : Try A) (final : Try B)
    (m : Prompt A) (k : A → Prompt B) :
  extends m → cancelsTo first m →
  match first with
  | Ok a0 => ∃ log0, ∀ script, k a0 script = settle final script log0
  | Throw e => final = Throw e
  end →
  (∀ a, cancelsTo final (k a)) →
  cancelsTo final (bindP m k).
Proof.
  intros Hextends Hm Hthen Hk script log Hwait later. unfold bindP in *.
  specialize (Hextends script (Cancelled :: later)).
  destruct (m script) as [a middle log1|e' middle log1|log1] eqn:Hrun; [|done|].
  - rewrite Hextends.
    destruct (k a middle) as [| |log2] eqn:Hnext; [done|done|].
    destruct (Hk a middle log2 Hnext later) as (log' & ->).
    rewrite earlier_settle. by eexists.
  - destruct (Hm script log1 Hrun later) as (log' & ->).
    destruct first as [a0|e]; simpl.
    + destruct Hthen as (log0 & ->). rewrite earlier_settle. by eexists.
    + subst final. by eexists.
Qed.

Lemma cancelsTo_catch {A} (first final : Try A)
    (m : Prompt A) (handler : WizardError → Prompt A) :
  extends m → cancelsTo first m →
  match first with
  | Ok a0 => final = Ok a0
  | Throw e => ∃ log0, ∀ script, handler e script = settle final script log0
  end →
  (∀ e, cancelsTo final (handler e)) →
  cancelsTo final (catchP m handler).
Proof.
  intros Hextends Hm Hthen Hh script log Hwait later. unfold catchP in *.
  specialize (Hextends script (Cancelled :: later)).
  destruct (m script) as [a middle log1|e' middle log1|log1] eqn:Hrun; [done| |].
  - rewrite Hextends.
    destruct (handler e' middle) as [| |log2] eqn:Hnext; [done|done|].
    destruct (Hh e' middle log2 Hnext later) as (log' & ->).
    rewrite earlier_settle. by eexists.
  - destruct (Hm script log1 Hrun later) as (log' & ->).
    destruct first as [a0|e]; simpl.
    + subst final. by eexists.
    + destruct Hthen as (log0 & ->). rewrite earlier_settle. by eexists.
Qed.

Lemma cancelsTo_select message options :
  cancelsTo (Ok Cancelled) (select message options).
Proof. intros [|response script] log Hwait later; [by eexists|done]. Qed.

Lemma cancelsTo_text message placeholder initialValue :
  cancelsTo (Ok Cancelled) (text message placeholder initialValue).
Proof. intros [|response script] log Hwait later; [by eexists|done]. Qed.

Ltac extends_step :=
  lazy zeta;
  first
    [ apply extends_ret | apply extends_throw | apply extends_liftT
    | apply extends_select | apply extends_text | apply extends_cancel
    | apply extends_scriptFree, scriptFree_liftS
    | apply extends_bind; [|intros ?]
    | apply extends_catch; [|intros ?]
    | match goal with
      | |- extends (match ?x with _ => _ end) => destruct x
      | |- extends (if ?b then _ else _) => destruct b
      end ].

Ltac scriptFree_step :=
  lazy zeta;
  first
    [ apply scriptFree_ret | apply scriptFree_throw | apply scriptFree_liftT
    | apply scriptFree_liftS | apply scriptFree_cancel
    | apply scriptFree_bind; [|intros ?]
    | apply scriptFree_catch; [|intros ?]
    | match goal with
      | |- scriptFree (match ?x with _ => _ end) => destruct x
      | |- scriptFree (if ?b then _ else _) => destruct b
      end ].

(** ** The identity prompts *)

Lemma promptForCustomIdentityValue_extends segment selectionMap initialValueOverride :
  extends (promptForCustomIdentityValue segment selectionMap initialValueOverride).
Proof. unfold promptForCustomIdentityValue. repeat extends_step. Qed.

Lemma promptForIdentitySegment_extends segment selectionMap metadataOverride defaultValue :
  extends (promptForIdentitySegment segment selectionMap metadataOverride defaultValue).
Proof.
  unfold promptForIdentitySegment.
  repeat first [apply promptForCustomIdentityValue_extends | extends_step].
Qed.

Lemma promptSegmentsLoop_extends provided metadataOverrides defaults todo selections selectionMap :
  extends (promptSegmentsLoop provided metadataOverrides defaults todo selections selectionMap).
Proof.
  revert selections selectionMap.
  induction todo as [|segment rest IH]; intros selections selectionMap; simpl.
  - apply extends_ret.
  - apply extends_bind; [|intros resolved; apply IH].
    destruct (overrideValueOf provided segment);
      [apply extends_liftT|apply promptForIdentitySegment_extends].
Qed.

Lemma promptForIdentitySegments_extends declared provided metadataOverrides defaults :
  extends (promptForIdentitySegments declared provided metadataOverrides defaults).
Proof. apply promptSegmentsLoop_extends. Qed.

Lemma promptForExistingIdentitySelection_extends existing declared metadataOverrides :
  extends (promptForExistingIdentitySelection existing declared metadataOverrides).
Proof.
  intros script extra. induction script as [|response script IH]; simpl; [done|].
  destruct response as [|response]; [done|].
  destruct (String.eqb response "__new__").
  { pose proof (promptForIdentitySegments_extends declared None metadataOverrides None
                  script extra) as Hnew.
    destruct (promptForIdentitySegments _ _ _ _ script); simpl;
      [by rewrite Hnew|by rewrite Hnew|done]. }
  destruct (find _ existing) as [selected|].
  { pose proof (promptForIdentitySegments_extends declared None metadataOverrides
                  (Some (toIdentitySegmentDefaults selected)) script extra) as Hold.
    destruct (promptForIdentitySegments _ _ _ _ script); simpl;
      [by rewrite Hold|by rewrite Hold|done]. }
  destruct (promptForExistingIdentitySelection _ _ _ script); simpl;
    [by rewrite IH|by rewrite IH|done].
Qed.

Lemma promptForPersistedAnswersStrategy_extends filePath :
  extends (promptForPersistedAnswersStrategy filePath).
Proof.
  intros script extra. induction script as [|response script IH]; simpl; [done|].
  destruct response as [|response]; [done|].
  destruct (String.eqb response "reuse"); [done|].
  destruct (String.eqb response "review"); [done|].
  destruct (String.eqb response "reset"); [done|].
  destruct (promptForPersistedAnswersStrategy _ script); simpl;
    [by rewrite IH|by rewrite IH|done].
Qed.

Lemma promptForCustomIdentityValue_cancels segment selectionMap initialValueOverride :
  cancelsTo identityCancelled
    (promptForCustomIdentityValue segment selectionMap initialValueOverride).
Proof.
  unfold promptForCustomIdentityValue. lazy zeta.
  eapply (cancelsTo_bind (Ok Cancelled)); [apply extends_text|apply cancelsTo_text| |].
  - by eexists.
  - intros [|reply]; apply cancelsTo_scriptFree; repeat scriptFree_step.
Qed.

Lemma promptForIdentitySegment_cancels segment selectionMap metadataOverride defaultValue :
  cancelsTo identityCancelled
    (promptForIdentitySegment segment selectionMap metadataOverride defaultValue).
Proof.
  assert (cancelsTo identityCancelled
            (customValue <- promptForCustomIdentityValue segment selectionMap defaultValue ;
             liftT (buildWizardIdentitySegmentSelection segment customValue SrcCustom
                      metadataOverride false))) as Hcustom.
  { eapply (cancelsTo_bind identityCancelled);
      [apply promptForCustomIdentityValue_extends
      |apply promptForCustomIdentityValue_cancels|done|].
    intros customValue. apply cancelsTo_scriptFree, scriptFree_liftT. }
  unfold promptForIdentitySegment.
  destruct (seg_options segment) as [[|option options]|].
  - destruct (negb _); [apply cancelsTo_scriptFree, scriptFree_throw|exact Hcustom].
  - lazy zeta.
    eapply (cancelsTo_bind (Ok Cancelled)); [apply extends_select|apply cancelsTo_select| |].
    + by eexists.
    + intros [|chosen].
      { apply cancelsTo_scriptFree; repeat scriptFree_step. }
      destruct (String.eqb chosen "__saved__");
        [apply cancelsTo_scriptFree, scriptFree_liftT|].
      destruct (String.eqb chosen "__custom__"); [exact Hcustom|].
      apply cancelsTo_scriptFree, scriptFree_liftT.
  - destruct (negb _); [apply cancelsTo_scriptFree, scriptFree_throw|exact Hcustom].
Qed.

Lemma promptSegmentsLoop_cancels provided metadataOverrides defaults todo selections selectionMap :
  cancelsTo identityCancelled
    (promptSegmentsLoop provided metadataOverrides defaults todo selections selectionMap).
Proof.
  revert selections selectionMap.
  induction todo as [|segment rest IH]; intros selections selectionMap; simpl.
  - apply cancelsTo_scriptFree, scriptFree_ret.
  - eapply (cancelsTo_bind identityCancelled); [| |done|intros resolved; apply IH].
    + destruct (overrideValueOf provided segment);
        [apply extends_liftT|apply promptForIdentitySegment_extends].
    + destruct (overrideValueOf provided segment);
        [apply cancelsTo_scriptFree, scriptFree_liftT|apply promptForIdentitySegment_cancels].
Qed.

Lemma promptForIdentitySegments_cancels declared provided metadataOverrides defaults :
  cancelsTo identityCancelled
    (promptForIdentitySegments declared provided metadataOverrides defaults).
Proof. apply promptSegmentsLoop_cancels. Qed.

Lemma earlier_Awaiting {A} before (r : Result A) log :
  earlier before r = Awaiting log → ∃ log', r = Awaiting log'.
Proof. destruct r; simpl; [done|done|]. by eexists. Qed.

Lemma promptForExistingIdentitySelection_cancels existing declared metadataOverrides :
  cancelsTo identityCancelled
    (promptForExistingIdentitySelection existing declared metadataOverrides).
Proof.
  intros script. induction script as [|response script IH]; intros log Hwait later; simpl.
  - by eexists.
  - simpl in Hwait. destruct response as [|response]; [done|].
    destruct (String.eqb response "__new__").
    { apply earlier_Awaiting in Hwait as (log' & Hwait).
      destruct (promptForIdentitySegments_cancels declared None metadataOverrides None
                  script log' Hwait later) as (log'' & ->). by eexists. }
    destruct (find _ existing) as [selected|].
    { apply earlier_Awaiting in Hwait as (log' & Hwait).
      destruct (promptForIdentitySegments_cancels declared None metadataOverrides _
                  script log' Hwait later) as (log'' & ->). by eexists. }
    apply earlier_Awaiting in Hwait as (log' & Hwait).
    destruct (IH log' Hwait later) as (log'' & ->). by eexists.
Qed.

Lemma promptForPersistedAnswersStrategy_cancels filePath :
  cancelsTo (Throw PersistedAnswersStrategyCancelledError)
    (promptForPersistedAnswersStrategy filePath).
Proof.
  intros script. induction script as [|response script IH]; intros log Hwait later; simpl.
  - by eexists.
  - simpl in Hwait. destruct response as [|response]; [done|].
    destruct (String.eqb response "reuse"); [done|].
    destruct (String.eqb response "review"); [done|].
    destruct (String.eqb response "reset"); [done|].
    apply earlier_Awaiting in Hwait as (log' & Hwait).
    destruct (IH log' Hwait later) as (log'' & ->). by eexists.
Qed.

(** ** Where the slug comes from *)

Lemma earlier_Done {A} before (r : Result A) a rest log :
  earlier before r = Done a rest log → ∃ log', r = Done a rest log'.
Proof. destruct r; simpl; [|done|done]. intros [= -> -> _]. by eexists. Qed.

Lemma parseIdentitySlug_slug slugText declared chosen :
  parseIdentitySlug slugText declared = Ok chosen → slugDerivable chosen.
Proof.
  unfold parseIdentitySlug. destruct (negb _); [done|].
  destruct (mapiT _ 0 declared) as [selections|e]; [|done].
  simpl. by intros [= <-].
Qed.

Lemma buildIdentitySelectionFromSources_slug declared provided providedMetadata fallback
    resolution chosen :
  buildIdentitySelectionFromSources declared provided providedMetadata fallback =
    Ok resolution →
  selection resolution = Some chosen → slugDerivable chosen.
Proof.
  unfold buildIdentitySelectionFromSources.
  destruct (buildLoop _ _ _ _ _ _) as [[selections missing]|e]; [|done].
  simpl. destruct missing; intros [= <-]; simpl; [|done]. by intros [= <-].
Qed.

Lemma promptSegmentsLoop_slug provided metadataOverrides defaults todo selections selectionMap :
  returns (promptSegmentsLoop provided metadataOverrides defaults todo selections selectionMap)
    slugDerivable.
Proof.
  revert selections selectionMap.
  induction todo as [|segment rest IH]; intros selections selectionMap; simpl.
  - by apply returns_ret.
  - eapply (returns_bind _ _ (λ _, True)); [by intros ? ? ? ? _|].
    intros resolved _. apply IH.
Qed.

Lemma promptForIdentitySegments_slug declared provided metadataOverrides defaults :
  returns (promptForIdentitySegments declared provided metadataOverrides defaults)
    slugDerivable.
Proof. apply promptSegmentsLoop_slug. Qed.

Lemma promptForExistingIdentitySelection_slug existing declared metadataOverrides :
  returns (promptForExistingIdentitySelection existing declared metadataOverrides)
    slugDerivable.
Proof.
  intros script. induction script as [|response script IH]; intros chosen rest log; simpl;
    [done|].
  destruct response as [|response]; [done|].
  destruct (String.eqb response "__new__").
  { intros (log' & Hrun)%earlier_Done. by eapply promptForIdentitySegments_slug. }
  destruct (find _ existing) as [selected|].
  { intros (log' & Hrun)%earlier_Done. by eapply promptForIdentitySegments_slug. }
  intros (log' & Hrun)%earlier_Done. by eapply IH.
Qed.

(** ** Explicit slug *)

Lemma buildWizardIdentitySegmentSelection_accepting segment value source override :
  ∃ built,
    buildWizardIdentitySegmentSelection segment value source override true = Ok built ∧
    sel_id built = seg_id segment ∧ sel_value built = value ∧ sel_source built = source.
Proof.
  destruct (findOption segment value) as [option|] eqn:Hfind.
  - by eapply buildWizardIdentitySegmentSelection_listed.
  - apply buildWizardIdentitySegmentSelection_unlisted; [done|apply orb_true_r].
Qed.

Lemma mapiT_parts (parts : list string) declared index :
  ∃ selections,
    mapiT (λ index segment,
             buildWizardIdentitySegmentSelection segment
               (default "" (parts !! index)) SrcCli None true)
          index declared = Ok selections ∧
    map sel_value selections =
      map (λ position, default "" (parts !! position)) (seq index (length declared)) ∧
    map sel_id selections = map seg_id declared ∧
    Forall (λ resolved, sel_source resolved = SrcCli) selections.
Proof.
  revert index. induction declared as [|segment declared IH]; intros index; simpl.
  - exists []. repeat split; constructor.
  - destruct (buildWizardIdentitySegmentSelection_accepting segment
                (default "" (parts !! index)) SrcCli None)
      as (built & -> & Hid & Hvalue & Hsource).
    destruct (IH (S index)) as (selections & -> & Hvalues & Hids & Hsources).
    simpl. eexists. split; [reflexivity|]. simpl.
    rewrite Hid, Hvalue, Hvalues, Hids. repeat split. by constructor.
Qed.

Lemma lookup_all_positions (parts : list string) :
  map (λ position, default "" (parts !! position)) (seq 0 (length parts)) = parts.
Proof.
  induction parts as [|part parts IH]; simpl; [done|].
  f_equal. rewrite <- seq_shift, map_map. exact IH.
Qed.

Lemma parseIdentitySlug_mismatch slugText declared :
  length (slugParts slugText) ≠ length declared →
  parseIdentitySlug slugText declared =
  Throw (Error (segmentCountMismatchMessage (length declared) (length (slugParts slugText)))).
Proof.
  intros Hlength. unfold parseIdentitySlug.
  by destruct (Nat.eqb_spec (length (slugParts slugText)) (length declared)).
Qed.

Lemma parseIdentitySlug_match slugText declared :
  length (slugParts slugText) = length declared →
  ∃ chosen,
    parseIdentitySlug slugText declared = Ok chosen ∧
    map sel_value (segments chosen) = slugParts slugText ∧
    map sel_id (segments chosen) = map seg_id declared ∧
    Forall (λ resolved, sel_source resolved = SrcCli) (segments chosen) ∧
    slug chosen = join "/" (slugParts slugText).
Proof.
  intros Hlength. unfold parseIdentitySlug.
  rewrite Hlength, Nat.eqb_refl. simpl.
  destruct (mapiT_parts (slugParts slugText) declared 0)
    as (selections & -> & Hvalues & Hids & Hsources).
  rewrite <- Hlength, lookup_all_positions in Hvalues.
  simpl. eexists. split; [reflexivity|]. simpl.
  split; [done|]. split; [done|]. split; [done|]. unfold slugOf. by rewrite Hvalues.
Qed.

Section ResolverProperties.

Context `{NodePath} `{PromptPersistence}.

Lemma resolveWizardIdentitySelection_slug disk options :
  returns (resolveWizardIdentitySelection disk options) (optionally slugDerivable).
Proof.
  unfold resolveWizardIdentitySelection. lazy zeta.
  assert (returns (retP None) (optionally slugDerivable)) as Hnone
    by (apply returns_ret; by intros chosen).
  destruct (scn_identity (ro_scenario options)) as [[|segment declared]|].
  - destruct (_ || _); [apply returns_throw|exact Hnone].
  - destruct (whenTruthy (ro_providedSlug options)) as [providedSlug|].
    { apply returns_bind_liftT.
      intros chosen Hparsed. apply returns_ret. intros ? [= <-].
      by eapply parseIdentitySlug_slug. }
    eapply (returns_bind _ _ (λ _, True)); [by intros ? ? ? ? _|].
    intros persistedIdentities _.
    destruct (_ && _).
    { eapply returns_bind; [apply promptForExistingIdentitySelection_slug|].
      intros chosen Hslug. apply returns_ret. by intros ? [= <-]. }
    apply returns_bind_liftT. intros resolution Hbuilt.
    destruct (selection resolution) as [complete|] eqn:Hcomplete.
    + assert (slugDerivable complete) as Hslug
        by (by eapply buildIdentitySelectionFromSources_slug).
      assert (returns (retP (Some complete)) (optionally slugDerivable)) as Hdone
        by (apply returns_ret; by intros ? [= <-]).
      destruct (match persistedIdentities with Some [only] => Some only | _ => None end)
        as [persisted|]; [|exact Hdone].
      destruct (_ && _); [|exact Hdone].
      eapply returns_bind; [apply promptForIdentitySegments_slug|].
      intros chosen Hchosen. apply returns_ret. by intros ? [= <-].
    + destruct (ro_usingExternalAnswers options); [exact Hnone|].
      destruct (negb _); [apply returns_throw|].
      eapply returns_bind; [apply promptForIdentitySegments_slug|].
      intros chosen Hchosen. apply returns_ret. by intros ? [= <-].
  - destruct (_ || _); [apply returns_throw|exact Hnone].
Qed.

Lemma recoverIdentitySelection_Some scenario manager chosen :
  recoverIdentitySelection scenario manager = Some chosen →
  ∃ identityMeta stored,
    getMetadata manager ≫= meta_identity = Some identityMeta ∧
    pi_segments identityMeta = Some stored ∧
    segments chosen = map ofPersistedSegment stored ∧
    slug chosen =
      match pi_slug identityMeta with
      | Some storedSlug =>
          if truthy (trim storedSlug) then trim storedSlug
          else join "/" (map ps_value stored)
      | None => join "/" (map ps_value stored)
      end.
Proof.
  unfold recoverIdentitySelection.
  destruct (scn_identity scenario) as [[|segment declared]|]; [done| |done].
  destruct (getMetadata manager ≫= meta_identity) as [identityMeta|]; [|done].
  cbn [mbind option_bind].
  destruct (pi_segments identityMeta) as [stored|] eqn:Hstored; [|done].
  cbn [mbind option_bind].
  destruct (Nat.eqb _ _); [|done]. intros [= <-]. exists identityMeta, stored.
  split; [done|]. split; [done|]. split; [done|]. cbn [slug].
  destruct (pi_slug identityMeta) as [storedSlug|]; [|done].
  by destruct (trim storedSlug).
Qed.

(** C2.  Every selection the resolver returns, whether from an explicit
    slug, from the per-segment prompts or from the builder, has a slug
    equal to the join of its segment values.  A selection read back by
    the scanner carries the slug stored in the file, and a selection
    recovered from the metadata of an answers file carries the trimmed
    stored slug unless that is missing or blank, in which case the join
    is used. *)
Theorem resolver_slug_is_derivable :
  (∀ slugText declared chosen,
     parseIdentitySlug slugText declared = Ok chosen → slugDerivable chosen) ∧
  (∀ declared provided metadataOverrides defaults,
     returns (promptForIdentitySegments declared provided metadataOverrides defaults)
       slugDerivable) ∧
  (∀ declared provided providedMetadata fallback resolution chosen,
     buildIdentitySelectionFromSources declared provided providedMetadata fallback =
       Ok resolution →
     selection resolution = Some chosen → slugDerivable chosen) ∧
  (∀ disk options,
     returns (resolveWizardIdentitySelection disk options) (optionally slugDerivable)) ∧
  (∀ parsed expectedSegments chosen,
     snapshotOfParsed parsed expectedSegments = Some chosen →
     ∃ entries, storedIdentity parsed (slug chosen) entries) ∧
  (∀ scenario manager chosen,
     recoverIdentitySelection scenario manager = Some chosen →
     ∃ identityMeta stored,
       getMetadata manager ≫= meta_identity = Some identityMeta ∧
       pi_segments identityMeta = Some stored ∧
       map sel_value (segments chosen) = map ps_value stored ∧
       slug chosen =
         match pi_slug identityMeta with
         | Some storedSlug =>
             if truthy (trim storedSlug) then trim storedSlug
             else join "/" (map ps_value stored)
         | None => join "/" (map ps_value stored)
         end).
Proof.
  split; [exact parseIdentitySlug_slug|].
  split; [exact promptForIdentitySegments_slug|].
  split; [exact buildIdentitySelectionFromSources_slug|].
  split; [exact resolveWizardIdentitySelection_slug|].
  split.
  - intros parsed expectedSegments chosen (entries & Hstored & _)%snapshotOfParsed_Some.
    by exists entries.
  - intros scenario manager chosen
      (identityMeta & stored & Hmeta & Hstored & Hsegments & Hslug)%recoverIdentitySelection_Some.
    exists identityMeta, stored. split; [done|]. split; [done|]. split; [|done].
    rewrite Hsegments, map_map. done.
Qed.

Lemma resolveWizardIdentitySelection_slug_given disk options declared slugText :
  scn_identity (ro_scenario options) = Some declared → declared ≠ [] →
  ro_providedSlug options = Some slugText → truthy slugText = true →
  resolveWizardIdentitySelection disk options =
  (parsed <- liftT (parseIdentitySlug slugText declared) ; retP (Some parsed)).
Proof.
  intros Hidentity Hdeclared Hslug Htruthy. unfold resolveWizardIdentitySelection.
  rewrite Hidentity, Hslug. destruct declared as [|segment declared]; [done|].
  unfold whenTruthy. by rewrite Htruthy.
Qed.

(** C7.  With an explicit slug for a scenario that declares identity
    segments, the slug is split on the slash, the pieces are trimmed and
    the empty ones dropped.  A piece count other than the number of
    declared segments throws the count-mismatch error naming both counts;
    an equal count returns at once a selection holding the pieces as
    values, listed or not, with nothing read from the disk or asked of
    the operator.  For two declared segments and the slug maintenance the
    message reads: requires 2 segment(s) but received 1. *)
Theorem explicit_slug_resolution disk options declared slugText script :
  scn_identity (ro_scenario options) = Some declared → declared ≠ [] →
  ro_providedSlug options = Some slugText → truthy slugText = true →
  (length (slugParts slugText) ≠ length declared →
   resolveWizardIdentitySelection disk options script =
     Raised (Error (segmentCountMismatchMessage (length declared)
                      (length (slugParts slugText)))) script []) ∧
  (length (slugParts slugText) = length declared →
   ∃ chosen,
     resolveWizardIdentitySelection disk options script = Done (Some chosen) script [] ∧
     map sel_value (segments chosen) = slugParts slugText ∧
     map sel_id (segments chosen) = map seg_id declared ∧
     Forall (λ resolved, sel_source resolved = SrcCli) (segments chosen) ∧
     slug chosen = join "/" (slugParts slugText)) ∧
  parseIdentitySlug "maintenance" [Sample.category; Sample.cadence] =
    Throw (Error "--answers-identity requires 2 segment(s) but received 1.").
Proof.
  intros Hidentity Hdeclared Hslug Htruthy.
  rewrite (resolveWizardIdentitySelection_slug_given disk options declared slugText)
    by done.
  split; [|split; [|reflexivity]].
  - intros Hlength. unfold bindP. by rewrite parseIdentitySlug_mismatch.
  - intros Hlength.
    destruct (parseIdentitySlug_match slugText declared Hlength) as (chosen & Hparsed & Hrest).
    exists chosen. split; [|done]. unfold bindP. by rewrite Hparsed.
Qed.

(** ** Runs without a terminal *)

Lemma resolveWizardIdentitySelection_same_tree disk1 disk2 options :
  disk1 (scenarioAnswersDir (ro_repoRoot options) (scn_id (ro_scenario options))) =
  disk2 (scenarioAnswersDir (ro_repoRoot options) (scn_id (ro_scenario options))) →
  resolveWizardIdentitySelection disk1 options =
  resolveWizardIdentitySelection disk2 options.
Proof.
  intros Hsame. unfold resolveWizardIdentitySelection. lazy zeta.
  destruct (scn_identity (ro_scenario options)) as [[|segment declared]|]; [done| |done].
  destruct (whenTruthy (ro_providedSlug options)); [done|].
  unfold collectPersistedIdentitySelections, collectIdentityAnswerFilesAt.
  by rewrite Hsame.
Qed.

Lemma resolveWizardIdentitySelection_scriptFree disk options :
  ro_interactive options = false →
  scriptFree (resolveWizardIdentitySelection disk options).
Proof.
  intros Hinteractive. unfold resolveWizardIdentitySelection. lazy zeta.
  destruct (scn_identity (ro_scenario options)) as [[|segment declared]|];
    [repeat scriptFree_step| |repeat scriptFree_step].
  destruct (whenTruthy (ro_providedSlug options)); [repeat scriptFree_step|].
  apply scriptFree_bind; [repeat scriptFree_step|].
  intros persistedIdentities.
  rewrite Hinteractive, !andb_false_r. simpl negb. simpl andb. rewrite ?andb_false_r.
  repeat scriptFree_step.
Qed.

Lemma runDevWizard_answersStage_same_tree disk1 disk2 repoRoot scenario options tty :
  disk1 (scenarioAnswersDir repoRoot (scn_id scenario)) =
  disk2 (scenarioAnswersDir repoRoot (scn_id scenario)) →
  runDevWizard_answersStage disk1 repoRoot scenario options tty =
  runDevWizard_answersStage disk2 repoRoot scenario options tty.
Proof.
  intros Hsame. unfold runDevWizard_answersStage.
  by rewrite (resolveWizardIdentitySelection_same_tree disk1 disk2).
Qed.

Lemma runDevWizard_answersStage_scriptFree disk repoRoot scenario options :
  scriptFree (runDevWizard_answersStage disk repoRoot scenario options false).
Proof.
  unfold runDevWizard_answersStage.
  apply scriptFree_bind.
  { apply scriptFree_catch.
    - apply scriptFree_bind; [by apply resolveWizardIdentitySelection_scriptFree|].
      intros found. apply scriptFree_ret.
    - intros e. destruct e; repeat scriptFree_step. }
  intros [exitCode|chosen]; [apply scriptFree_ret|].
  lazy zeta. apply scriptFree_bind.
  { unfold assignAnswersAddress. repeat scriptFree_step. }
  intros [exitCode|[alias filePath]]; [apply scriptFree_ret|].
  rewrite andb_false_r. simpl andb. cbv iota. apply scriptFree_ret.
Qed.

(** C5.  Two runs of the resolver without a terminal, on the same
    options and on disks that hold the same answers tree for the
    scenario, settle in the same way whatever the operator might type
    (nothing is read from the script), so the answers path built from
    the selection is the same; the whole answers stage of such runs
    settles in the same way too. *)
Theorem noninteractive_resolution_is_deterministic disk1 disk2 options script1 script2 :
  ro_interactive options = false →
  disk1 (scenarioAnswersDir (ro_repoRoot options) (scn_id (ro_scenario options))) =
  disk2 (scenarioAnswersDir (ro_repoRoot options) (scn_id (ro_scenario options))) →
  (∃ outcome log,
     resolveWizardIdentitySelection disk1 options script1 = settle outcome script1 log ∧
     resolveWizardIdentitySelection disk2 options script2 = settle outcome script2 log ∧
     ∀ chosen, outcome = Ok (Some chosen) →
       ∃ filePath,
         filePath = buildIdentityAnswersPath (ro_repoRoot options)
                      (scn_id (ro_scenario options)) chosen ∧
         ∀ answers,
           resolvedAnswersPathOf (ro_repoRoot options) answers = None →
           assignAnswersAddress (ro_repoRoot options) (ro_scenario options) answers false
             (Some chosen) script1 =
           Done (inr (scn_id (ro_scenario options) +:+ "/" +:+ slug chosen, Some filePath))
             script1 [] ∧
           assignAnswersAddress (ro_repoRoot options) (ro_scenario options) answers false
             (Some chosen) script2 =
           Done (inr (scn_id (ro_scenario options) +:+ "/" +:+ slug chosen, Some filePath))
             script2 []) ∧
  (∀ answers, ∃ outcome log,
     runDevWizard_answersStage disk1 (ro_repoRoot options) (ro_scenario options) answers
       false script1 = settle outcome script1 log ∧
     runDevWizard_answersStage disk2 (ro_repoRoot options) (ro_scenario options) answers
       false script2 = settle outcome script2 log).
Proof.
  intros Hinteractive Hsame. split.
  - destruct (resolveWizardIdentitySelection_scriptFree disk1 options Hinteractive)
      as (outcome & log & Hsettles).
    exists outcome, log. split; [apply Hsettles|].
    split; [rewrite <- (resolveWizardIdentitySelection_same_tree disk1 disk2) by done;
            apply Hsettles|].
    intros chosen _. eexists. split; [reflexivity|].
    intros answers Hnone. unfold assignAnswersAddress. rewrite Hnone. lazy zeta.
    by destruct (_ && _).
  - intros answers.
    destruct (runDevWizard_answersStage_scriptFree disk1 (ro_repoRoot options)
                (ro_scenario options) answers) as (outcome & log & Hsettles).
    exists outcome, log. split; [apply Hsettles|].
    rewrite <- (runDevWizard_answersStage_same_tree disk1 disk2) by done.
    apply Hsettles.
Qed.

End ResolverProperties.

(** ** The answers address *)

Lemma addressComponents_directories (sanitized : list string) :
  List.filter truthy
    (take (Z.to_nat (Z.max (Z.of_nat (length sanitized) - 1) 0)) sanitized) =
  (addressComponents sanitized).1.
Proof.
  induction sanitized as [|first [|second rest] IH]; [done|done|].
  assert (Z.to_nat (Z.max (Z.of_nat (length (first :: second :: rest)) - 1) 0) =
          S (Z.to_nat (Z.max (Z.of_nat (length (second :: rest)) - 1) 0))) as ->
    by (simpl length; lia).
  change (take (S ?n) (first :: ?l)) with (first :: take n l).
  change (addressComponents (first :: second :: rest))
    with (let '(directories, fileName) := addressComponents (second :: rest) in
          ((if truthy first then [first] else []) ++ directories, fileName)%list).
  destruct (addressComponents (second :: rest)) as [directories fileName].
  simpl in IH. simpl List.filter at 1. rewrite IH. by destruct (truthy first).
Qed.

Lemma at_index_last {A} (xs : list A) :
  at_index xs (Z.of_nat (length xs) - 1) = last xs.
Proof.
  rewrite last_lookup. unfold at_index. destruct xs as [|x xs]; [done|].
  destruct (Z.ltb_spec (Z.of_nat (length (x :: xs)) - 1) 0) as [Hlt|_];
    [simpl length in Hlt; lia|].
  f_equal. simpl length. lia.
Qed.

Lemma addressComponents_fileName (sanitized : list string) :
  match at_index sanitized (Z.of_nat (length sanitized) - 1) with
  | Some final => if truthy final then final else "answers"
  | None => "answers"
  end = (addressComponents sanitized).2.
Proof.
  rewrite at_index_last.
  induction sanitized as [|first [|second rest] IH]; [done|done|].
  change (last (first :: second :: rest)) with (last (second :: rest)).
  change (addressComponents (first :: second :: rest))
    with (let '(directories, fileName) := addressComponents (second :: rest) in
          ((if truthy first then [first] else []) ++ directories, fileName)%list).
  by destruct (addressComponents (second :: rest)) as [directories fileName].
Qed.

Section AddressProperties.

Context `{NodePath} `{PromptPersistence}.

Lemma buildIdentityAnswersPath_spec repoRoot scenarioId chosen :
  buildIdentityAnswersPath repoRoot scenarioId chosen =
  identityAnswersPath repoRoot scenarioId chosen.
Proof.
  unfold buildIdentityAnswersPath, identityAnswersPath. lazy zeta.
  set (sanitized := map _ (segments chosen)).
  rewrite addressComponents_fileName. simpl List.filter.
  rewrite addressComponents_directories.
  destruct (addressComponents sanitized) as [directories fileName]. simpl.
  by destruct (truthy (sanitizePersistenceSegment scenarioId)).
Qed.

(** The name test of the explicit answers file: a base name that is not
    empty and is not blank once trimmed. *)
Lemma derivedAlias_usable (derivedAlias : string) :
  truthy derivedAlias && (0 <? String.length (trim derivedAlias))%nat =
  truthy (trim derivedAlias).
Proof.
  destruct derivedAlias as [|unit rest]; [reflexivity|].
  simpl truthy at 1. simpl andb. by destruct (trim (String unit rest)).
Qed.

(** C6.  The answers path of a selection is
    [repoRoot/.dev-wizard/answers], then the sanitized scenario id, then
    one directory per sanitized segment value except the last, then the
    sanitized last value with [.json]; empty directory components are
    dropped and an empty file-name component becomes [answers].  When no
    explicit answers file is in effect, the answers alias of a run with
    that selection is the scenario id, a slash and the slug, and its
    persistence path is that answers path.  When an explicit answers file
    is in effect, whatever the identity, the persistence path is that
    file and the alias is the base name of the file without its
    extension, trimmed, or the scenario id when that base name is
    blank. *)
Theorem identity_answers_address repoRoot scenario options tty chosen script :
  buildIdentityAnswersPath repoRoot (scn_id scenario) chosen =
    identityAnswersPath repoRoot (scn_id scenario) chosen ∧
  (resolvedAnswersPathOf repoRoot options = None →
   assignAnswersAddress repoRoot scenario options tty (Some chosen) script =
     Done (inr (scn_id scenario +:+ "/" +:+ slug chosen,
                Some (identityAnswersPath repoRoot (scn_id scenario) chosen)))
          script []) ∧
  (∀ resolved identity,
     resolvedAnswersPathOf repoRoot options = Some resolved →
     assignAnswersAddress repoRoot scenario options tty identity script =
       Done (inr (let baseName := trim (path_basename resolved (path_extname resolved)) in
                  if truthy baseName then baseName else scn_id scenario,
                  Some resolved))
            script []).
Proof.
  split; [apply buildIdentityAnswersPath_spec|]. split.
  - intros Hnone. unfold assignAnswersAddress. rewrite Hnone. lazy zeta.
    rewrite buildIdentityAnswersPath_spec. by destruct (_ && _).
  - intros resolved identity Hresolved. unfold assignAnswersAddress.
    rewrite Hresolved. lazy zeta. rewrite derivedAlias_usable.
    rewrite bool_decide_eq_true_2 by by eexists. by rewrite andb_false_r.
Qed.

End AddressProperties.

(** ** Cancellation *)

Section CancellationProperties.

Context `{NodePath} `{PromptPersistence}.

Ltac prompts_extend :=
  repeat first
    [ apply promptForIdentitySegments_extends
    | apply promptForExistingIdentitySelection_extends
    | apply promptForPersistedAnswersStrategy_extends
    | extends_step ].

Lemma resolveWizardIdentitySelection_extends disk options :
  extends (resolveWizardIdentitySelection disk options).
Proof. unfold resolveWizardIdentitySelection. prompts_extend. Qed.

Lemma assignAnswersAddress_extends repoRoot scenario options tty chosen :
  extends (assignAnswersAddress repoRoot scenario options tty chosen).
Proof. unfold assignAnswersAddress. prompts_extend. Qed.

Lemma resolveWizardIdentitySelection_cancels disk options :
  cancelsTo identityCancelled (resolveWizardIdentitySelection disk options).
Proof.
  unfold resolveWizardIdentitySelection. lazy zeta.
  destruct (scn_identity (ro_scenario options)) as [[|segment declared]|];
    [apply cancelsTo_scriptFree; repeat scriptFree_step|
    |apply cancelsTo_scriptFree; repeat scriptFree_step].
  destruct (whenTruthy (ro_providedSlug options));
    [apply cancelsTo_scriptFree; repeat scriptFree_step|].
  assert (∀ m : Prompt WizardIdentitySelection,
            extends m → cancelsTo identityCancelled m →
            cancelsTo identityCancelled (chosen <- m ; retP (Some chosen))) as Hwrap.
  { intros m Hextends Hcancels.
    eapply (cancelsTo_bind identityCancelled); [done|done|done|].
    intros chosen. apply cancelsTo_scriptFree, scriptFree_ret. }
  eapply (cancelsTo_bind identityCancelled);
    [prompts_extend|apply cancelsTo_scriptFree; repeat scriptFree_step|done|].
  intros persistedIdentities.
  destruct (_ && _).
  { apply Hwrap; [apply promptForExistingIdentitySelection_extends
                 |apply promptForExistingIdentitySelection_cancels]. }
  eapply (cancelsTo_bind identityCancelled);
    [apply extends_liftT|apply cancelsTo_scriptFree, scriptFree_liftT|done|].
  intros resolution.
  destruct (selection resolution) as [complete|].
  - destruct (match persistedIdentities with Some [only] => Some only | _ => None end);
      [|apply cancelsTo_scriptFree, scriptFree_ret].
    destruct (_ && _); [|apply cancelsTo_scriptFree, scriptFree_ret].
    apply Hwrap; [apply promptForIdentitySegments_extends
                 |apply promptForIdentitySegments_cancels].
  - destruct (ro_usingExternalAnswers options);
      [apply cancelsTo_scriptFree, scriptFree_ret|].
    destruct (negb _); [apply cancelsTo_scriptFree, scriptFree_throw|].
    apply Hwrap; [apply promptForIdentitySegments_extends
                 |apply promptForIdentitySegments_cancels].
Qed.

Lemma assignAnswersAddress_cancels repoRoot scenario options tty chosen :
  cancelsTo (Ok (inl 0%Z)) (assignAnswersAddress repoRoot scenario options tty chosen).
Proof.
  unfold assignAnswersAddress. lazy zeta.
  destruct (String.eqb (scn_id scenario) "workspace-bootstrap" && _);
  destruct (resolvedAnswersPathOf repoRoot options);
    try (apply cancelsTo_scriptFree, scriptFree_ret);
  (destruct chosen; [apply cancelsTo_scriptFree, scriptFree_ret|]);
  (destruct (_ && _); [|apply cancelsTo_scriptFree, scriptFree_ret]);
  (destruct tty; [|apply cancelsTo_scriptFree, scriptFree_ret]);
  (eapply (cancelsTo_bind (Ok Cancelled)); [apply extends_text|apply cancelsTo_text| |]);
  try (by eexists);
  intros [|name]; apply cancelsTo_scriptFree; repeat scriptFree_step.
Qed.

Lemma runDevWizard_answersStage_cancels disk repoRoot scenario options tty :
  cancelsTo (Ok (Exit 0)) (runDevWizard_answersStage disk repoRoot scenario options tty).
Proof.
  unfold runDevWizard_answersStage.
  eapply (cancelsTo_bind (Ok (inl 0%Z))).
  - apply extends_catch; [|intros e; destruct e; prompts_extend].
    apply extends_bind; [apply resolveWizardIdentitySelection_extends|].
    intros found. apply extends_ret.
  - eapply (cancelsTo_catch identityCancelled).
    + apply extends_bind; [apply resolveWizardIdentitySelection_extends|].
      intros found. apply extends_ret.
    + eapply (cancelsTo_bind identityCancelled);
        [apply resolveWizardIdentitySelection_extends
        |apply resolveWizardIdentitySelection_cancels|done|].
      intros found. apply cancelsTo_scriptFree, scriptFree_ret.
    + by eexists.
    + intros e. apply cancelsTo_scriptFree. destruct e; repeat scriptFree_step.
  - by eexists.
  - intros [exitCode|chosen]; [apply cancelsTo_scriptFree, scriptFree_ret|].
    lazy zeta.
    eapply (cancelsTo_bind (Ok (inl 0%Z)));
      [apply assignAnswersAddress_extends|apply assignAnswersAddress_cancels| |].
    + by eexists.
    + intros [exitCode|[alias filePath]]; [apply cancelsTo_scriptFree, scriptFree_ret|].
      destruct (_ && _); [|apply cancelsTo_scriptFree, scriptFree_ret].
      eapply (cancelsTo_catch (Throw PersistedAnswersStrategyCancelledError)).
      * apply extends_bind; [apply promptForPersistedAnswersStrategy_extends|].
        intros strategy. destruct strategy; apply extends_ret.
      * eapply (cancelsTo_bind (Throw PersistedAnswersStrategyCancelledError));
          [apply promptForPersistedAnswersStrategy_extends
          |apply promptForPersistedAnswersStrategy_cancels|done|].
        intros strategy. apply cancelsTo_scriptFree. destruct strategy; apply scriptFree_ret.
      * by eexists.
      * intros e. apply cancelsTo_scriptFree. destruct e; repeat scriptFree_step.
Qed.

(** C9.  A cancel signal at a pending identity prompt (the choice among
    a segment's options, the free-text entry, the pick among existing
    identities) makes identity resolution throw the identity-cancelled
    error, and one at the persisted-answers strategy prompt throws the
    strategy-cancelled error; neither is an ordinary [Error].  Whenever
    the answers stage of a run waits at a prompt, cancelling that prompt
    makes the stage return exit code 0. *)
Theorem cancellation_exits_cleanly :
  (∀ segment selectionMap metadataOverride defaultValue,
     cancelsTo identityCancelled
       (promptForIdentitySegment segment selectionMap metadataOverride defaultValue)) ∧
  (∀ segment selectionMap initialValueOverride,
     cancelsTo identityCancelled
       (promptForCustomIdentityValue segment selectionMap initialValueOverride)) ∧
  (∀ existing declared metadataOverrides,
     cancelsTo identityCancelled
       (promptForExistingIdentitySelection existing declared metadataOverrides)) ∧
  (∀ disk options,
     cancelsTo identityCancelled (resolveWizardIdentitySelection disk options)) ∧
  (∀ filePath,
     cancelsTo (Throw PersistedAnswersStrategyCancelledError)
       (promptForPersistedAnswersStrategy filePath)) ∧
  (∀ message,
     IdentityPromptCancelledError ≠ Error message ∧
     PersistedAnswersStrategyCancelledError ≠ Error message) ∧
  (∀ disk repoRoot scenario options tty,
     cancelsTo (Ok (Exit 0))
       (runDevWizard_answersStage disk repoRoot scenario options tty)).
Proof.
  split; [exact promptForIdentitySegment_cancels|].
  split; [exact promptForCustomIdentityValue_cancels|].
  split; [exact promptForExistingIdentitySelection_cancels|].
  split; [exact resolveWizardIdentitySelection_cancels|].
  split; [exact promptForPersistedAnswersStrategy_cancels|].
  split; [done|].
  exact runDevWizard_answersStage_cancels.
Qed.

End CancellationProperties.

(** ** Default-value templates *)













Lemma trimStart_stops c s : isWhiteSpace c = false → trimStart (String c s) = String c s.
Proof. intros Hc. simpl. by rewrite Hc. Qed.








Lemma piecesFilled_ext (f g : string → string) pieces :
  (∀ siblingId, f siblingId = g siblingId) → piecesFilled f pieces = piecesFilled g pieces.
Proof.
  intros Hext. induction pieces as [|[p literal] pieces IH]; [done|].
  simpl. by rewrite Hext, IH.
Qed.




(** ** The properties on the sample scenario *)

Section OnSamples.

#[local] Existing Instances Sample.posix Sample.freshStore.

Lemma resolver_slug_is_derivable_witness : slugDerivable Sample.dailySnapshot.
Proof.
  apply (proj1 resolver_slug_is_derivable "maintenance/daily"
           [Sample.category; Sample.cadence]).
  reflexivity.
Defined.

Lemma explicit_slug_resolution_witness :
  ∃ chosen,
    resolveWizardIdentitySelection Sample.staleDisk (Sample.slugGiven " maintenance / daily/")
      [Answered "weekly"] = Done (Some chosen) [Answered "weekly"] [] ∧
    map sel_value (segments chosen) = ["maintenance"; "daily"] ∧
    map sel_id (segments chosen) = ["category"; "cadence"] ∧
    Forall (λ resolved, sel_source resolved = SrcCli) (segments chosen) ∧
    slug chosen = "maintenance/daily".
Proof.
  apply (explicit_slug_resolution Sample.staleDisk (Sample.slugGiven " maintenance / daily/")
           [Sample.category; Sample.cadence] " maintenance / daily/" [Answered "weekly"]
           eq_refl ltac:(discriminate) eq_refl eq_refl).
  reflexivity.
Defined.

Lemma noninteractive_resolution_is_deterministic_witness :
  ∃ outcome log,
    resolveWizardIdentitySelection Sample.emptyDisk Sample.categoryGiven [] =
      settle outcome [] log ∧
    resolveWizardIdentitySelection Sample.otherDisk Sample.categoryGiven [Answered "daily"] =
      settle outcome [Answered "daily"] log.
Proof.
  destruct (noninteractive_resolution_is_deterministic Sample.emptyDisk Sample.otherDisk
              Sample.categoryGiven [] [Answered "daily"])
    as [(outcome & log & Hfirst & Hsecond & _) _]; [reflexivity|vm_compute; reflexivity|].
  by exists outcome, log.
Defined.

Lemma identity_answers_address_witness :
  assignAnswersAddress "/repo" Sample.scenario Sample.plainRun false
    (Some Sample.dailySnapshot) [] =
  Done (inr ("identity-demo/maintenance/daily",
             Some "/repo/.dev-wizard/answers/identity-demo/maintenance/daily.json")) [] [] ∧
  assignAnswersAddress "/repo" Sample.scenario Sample.explicitAnswersFile false
    (Some Sample.dailySnapshot) [] =
  Done (inr ("saved", Some "/repo/saved.json")) [] [].
Proof.
  split.
  - rewrite (proj1 (proj2 (identity_answers_address "/repo" Sample.scenario
                             Sample.plainRun false Sample.dailySnapshot [])))
      by reflexivity.
    reflexivity.
  - rewrite (proj2 (proj2 (identity_answers_address "/repo" Sample.scenario
                             Sample.explicitAnswersFile false Sample.dailySnapshot []))
               "/repo/saved.json" (Some Sample.dailySnapshot)) by reflexivity.
    reflexivity.
Defined.

Lemma alias_follows_explicit_answers_file :
  match runDevWizard_answersStage Sample.emptyDisk "/repo" Sample.scenario
          Sample.explicitAnswersFile false [] with
  | Done (Proceed setup) _ _ =>
      identitySelection setup = Some Sample.dailySnapshot ∧
      answersAlias setup = "saved" ∧
      persistencePath setup = Some "/repo/saved.json" ∧
      answersAlias setup ≠ scn_id Sample.scenario +:+ "/" +:+ slug Sample.dailySnapshot
  | _ => False
  end.
Proof. vm_compute. repeat split; congruence. Qed.


Lemma cancellation_exits_cleanly_witness :
  ∃ log,
    runDevWizard_answersStage Sample.emptyDisk "/repo" Sample.scenario Sample.plainRun true
      [Answered "maintenance"; Cancelled; Answered "daily"] =
    Done (Exit 0) [Answered "daily"] log.
Proof.
  destruct cancellation_exits_cleanly as (_ & _ & _ & _ & _ & _ & Hstage).
  exact (Hstage Sample.emptyDisk "/repo" Sample.scenario Sample.plainRun true
           [Answered "maintenance"] _ eq_refl [Answered "daily"]).
Defined.

End OnSamples.

(** ** Trimming and splitting *)

Lemma trimEnd_idem s : trimEnd (trimEnd s) = trimEnd s.
Proof.
  induction s as [|c s IH]; [done|]. simpl.
  destruct (trimEnd s) as [|d kept] eqn:Hkept.
  - destruct (isWhiteSpace c) eqn:Hc; [done|]. simpl. by rewrite Hc.
  - change (trimEnd (String c (String d kept))) with
      (match trimEnd (String d kept) with
       | EmptyString => if isWhiteSpace c then EmptyString else String c EmptyString
       | kept' => String c kept'
       end).
    by rewrite IH.
Qed.

Lemma trimEnd_head c s :
  isWhiteSpace c = false → ∃ kept, trimEnd (String c s) = String c kept.
Proof.
  intros Hc. simpl. destruct (trimEnd s) as [|d kept]; rewrite ?Hc; eauto.
Qed.

Lemma trimStart_head s :
  trimStart s = "" ∨ ∃ c rest, trimStart s = String c rest ∧ isWhiteSpace c = false.
Proof.
  induction s as [|c s IH]; [by left|]. simpl.
  destruct (isWhiteSpace c) eqn:Hc; [done|]. right. by exists c, s.
Qed.

Lemma trim_head s :
  trim s = "" ∨ ∃ c rest, trim s = String c rest ∧ isWhiteSpace c = false.
Proof.
  unfold trim. destruct (trimStart_head s) as [->|(c & rest & -> & Hc)]; [by left|].
  right. destruct (trimEnd_head c rest Hc) as [kept ->]. by exists c, kept.
Qed.

Lemma trim_idem s : trim (trim s) = trim s.
Proof.
  destruct (trim_head s) as [->|(c & rest & Htrim & Hc)]; [done|].
  rewrite Htrim. unfold trim at 1. rewrite trimStart_stops by done.
  rewrite <- Htrim. unfold trim. apply trimEnd_idem.
Qed.

Lemma truthy_length s : (0 <? String.length s)%nat = truthy s.
Proof. by destruct s. Qed.

Lemma length_zero_truthy s : (String.length s =? 0)%nat = negb (truthy s).
Proof. by destruct s. Qed.

Lemma allOf_trimStart class s : allOf class s = true → allOf class (trimStart s) = true.
Proof.
  induction s as [|c s IH]; [done|]. simpl. intros [Hc Hs]%andb_prop.
  destruct (isWhiteSpace c); [by apply IH|]. simpl. by rewrite Hc, Hs.
Qed.

Lemma allOf_trimEnd class s : allOf class s = true → allOf class (trimEnd s) = true.
Proof.
  induction s as [|c s IH]; [done|]. simpl. intros [Hc Hs]%andb_prop.
  specialize (IH Hs). destruct (trimEnd s) as [|d kept].
  - destruct (isWhiteSpace c); [done|]. simpl. by rewrite Hc.
  - change (allOf class (String c (String d kept))) with
      (class c && allOf class (String d kept)). by rewrite Hc, IH.
Qed.

Lemma allOf_trim class s : allOf class s = true → allOf class (trim s) = true.
Proof. intros Hs. by apply allOf_trimEnd, allOf_trimStart. Qed.

Lemma split_pieces sep s : ∃ piece pieces, split sep s = piece :: pieces.
Proof.
  induction s as [|c s (piece & pieces & IH)]; simpl; [eauto|].
  destruct (Ascii.eqb c sep); [eauto|]. rewrite IH. eauto.
Qed.

Lemma split_free sep s :
  Forall (λ piece, allOf (λ c, negb (Ascii.eqb c sep)) piece = true) (split sep s).
Proof.
  induction s as [|c s IH]; simpl; [by repeat constructor|].
  destruct (Ascii.eqb c sep) eqn:Hc; [by constructor|].
  destruct (split sep s) as [|piece pieces].
  - repeat constructor. simpl. by rewrite Hc.
  - inversion_clear IH as [|? ? Hpiece Hpieces]. constructor; [|done].
    simpl. by rewrite Hc, Hpiece.
Qed.

Lemma split_whole sep s :
  allOf (λ c, negb (Ascii.eqb c sep)) s = true → split sep s = [s].
Proof.
  induction s as [|c s IH]; [done|]. simpl. intros [Hc Hs]%andb_prop.
  apply negb_true_iff in Hc. by rewrite Hc, (IH Hs).
Qed.

Lemma split_first sep s rest :
  allOf (λ c, negb (Ascii.eqb c sep)) s = true →
  split sep (s +:+ String sep rest) = s :: split sep rest.
Proof.
  induction s as [|c s IH]; simpl.
  - intros _. by rewrite Ascii.eqb_refl.
  - intros [Hc Hs]%andb_prop. apply negb_true_iff in Hc.
    simpl. by rewrite Hc, (IH Hs).
Qed.

Lemma join_cons sep value next values :
  join sep (value :: next :: values) = value +:+ sep +:+ join sep (next :: values).
Proof. reflexivity. Qed.

Lemma split_join (values : list string) :
  values ≠ [] → Forall (λ value, slashFree value = true) values →
  split "/" (join "/" values) = values.
Proof.
  induction values as [|value values IH]; [done|]. intros _ Hfree.
  inversion_clear Hfree as [|? ? Hvalue Hvalues].
  destruct values as [|next values].
  - by apply split_whole.
  - rewrite join_cons. change ("/" +:+ join "/" (next :: values)) with
      (String "/" (join "/" (next :: values))).
    rewrite split_first by done. f_equal. by apply IH.
Qed.

Lemma slugSafe_parts value :
  slugSafe value = true → truthy value = true ∧ trim value = value ∧ slashFree value = true.
Proof.
  unfold slugSafe. intros [[Hvalue Htrim]%andb_prop Hfree]%andb_prop.
  by apply String.eqb_eq in Htrim.
Qed.

Lemma slugParts_join (values : list string) :
  Forall (λ value, slugSafe value = true) values → slugParts (join "/" values) = values.
Proof.
  intros Hsafe. unfold slugParts. destruct values as [|value values]; [done|].
  rewrite split_join; [|done|].
  - induction Hsafe as [|first more Hfirst _ IH]; [done|].
    apply slugSafe_parts in Hfirst as (Htruthy & Htrim & _).
    simpl. by rewrite Htrim, Htruthy, IH.
  - eapply Forall_impl; [done|]. intros candidate Hcandidate.
    by apply slugSafe_parts in Hcandidate as (_ & _ & ?).
Qed.

Lemma slugParts_safe slugText :
  Forall (λ value, slugSafe value = true) (slugParts slugText).
Proof.
  unfold slugParts. pose proof (split_free "/" slugText) as Hfree.
  induction Hfree as [|piece pieces Hpiece _ IH]; [done|]. simpl.
  destruct (truthy (trim piece)) eqn:Hkept; [|done]. constructor; [|done].
  unfold slugSafe. rewrite Hkept, trim_idem, String.eqb_refl. simpl.
  by apply allOf_trim.
Qed.

(** ** Slugs and the selections they stand for *)

(** X1.  The slug of a selection parses back to the values it was built
    from: when the slug is the join of the values, there is one value per
    declared segment and every value is non-empty, carries no white space
    around it and holds no slash, [parseIdentitySlug] accepts the slug and
    returns the same values under the declared ids, with the same slug. *)
Theorem slug_of_safe_values_parses_back chosen declared :
  slugDerivable chosen →
  length (segments chosen) = length declared →
  Forall (λ segment, slugSafe (sel_value segment) = true) (segments chosen) →
  ∃ parsed,
    parseIdentitySlug (slug chosen) declared = Ok parsed ∧
    map sel_value (segments parsed) = map sel_value (segments chosen) ∧
    map sel_id (segments parsed) = map seg_id declared ∧
    slug parsed = slug chosen.
Proof.
  intros Hslug Hlength Hsafe. rewrite Hslug.
  assert (slugParts (join "/" (map sel_value (segments chosen))) =
          map sel_value (segments chosen)) as Hparts.
  { apply slugParts_join. by apply Forall_map. }
  destruct (parseIdentitySlug_match (join "/" (map sel_value (segments chosen))) declared)
    as (parsed & Hparsed & Hvalues & Hids & _ & Hjoin).
  { by rewrite Hparts, length_map. }
  exists parsed. by rewrite Hparsed, Hvalues, Hjoin, Hparts.
Qed.

(** X2.  An accepted explicit slug is brought to a canonical form: every
    value of the returned selection is non-empty, trimmed and free of
    slashes, and parsing the slug of the returned selection again gives
    the same selection. *)
Theorem parsed_slug_is_canonical slugText declared chosen :
  parseIdentitySlug slugText declared = Ok chosen →
  Forall (λ segment, slugSafe (sel_value segment) = true) (segments chosen) ∧
  parseIdentitySlug (slug chosen) declared = Ok chosen.
Proof.
  intros Hparsed.
  destruct (decide (length (slugParts slugText) = length declared)) as [Hlength|Hlength];
    [|by rewrite parseIdentitySlug_mismatch in Hparsed].
  destruct (parseIdentitySlug_match slugText declared Hlength)
    as (chosen' & Hchosen & Hvalues & _ & _ & Hjoin).
  rewrite Hparsed in Hchosen. injection Hchosen as <-.
  split.
  { apply Forall_map with (f := sel_value) (P := λ value, slugSafe value = true).
    rewrite Hvalues. apply slugParts_safe. }
  revert Hparsed. unfold parseIdentitySlug. lazy zeta.
  rewrite Hjoin, slugParts_join by apply slugParts_safe.
  done.
Qed.

(** ** Override objects and defaults *)

Lemma foldl_pointwise {A B} (f g : A → B → A) (a : A) (xs : list B) :
  (∀ acc x, f acc x = g acc x) → foldl f a xs = foldl g a xs.
Proof.
  intros Hfg. revert a. induction xs as [|x xs IH]; intros a; simpl; [done|].
  by rewrite Hfg, IH.
Qed.

(** A map filled by a loop that inserts the entries that count: the value
    under a key is that of the last such entry with this key. *)
Lemma foldl_insert_lookup {A V} (keep : A → bool) (keyOf : A → string)
    (valueOf : A → V) (xs : list A) (key : string) :
  foldl (λ (acc : gmap string V) x, if keep x then <[keyOf x := valueOf x]> acc else acc)
        ∅ xs !! key =
  valueOf <$> find (λ x, keep x && String.eqb (keyOf x) key) (rev xs).
Proof.
  induction xs as [|x xs IH] using rev_ind; simpl; [apply lookup_empty|].
  rewrite foldl_app, rev_app_distr. simpl.
  destruct (keep x); simpl; [|exact IH].
  destruct (String.eqb_spec (keyOf x) key) as [->|Hne].
  - apply lookup_insert_eq.
  - rewrite lookup_insert_ne by done. exact IH.
Qed.

Lemma foldl_insert_empty {A V} (keep : A → bool) (keyOf : A → string)
    (valueOf : A → V) (xs : list A) :
  foldl (λ (acc : gmap string V) x, if keep x then <[keyOf x := valueOf x]> acc else acc)
        ∅ xs = ∅ ↔
  existsb keep xs = false.
Proof.
  induction xs as [|x xs IH] using rev_ind; simpl; [done|].
  rewrite foldl_app, existsb_app. simpl. rewrite orb_false_r.
  destruct (keep x); simpl.
  - rewrite orb_true_r. split; [|done]. intros Hempty.
    by apply insert_non_empty in Hempty.
  - by rewrite orb_false_r.
Qed.

Lemma find_agree {A} (f g : A → bool) (xs : list A) :
  (∀ x, f x = g x) → find f xs = find g xs.
Proof.
  intros Hfg. induction xs as [|x xs IH]; simpl; [done|]. by rewrite Hfg, IH.
Qed.

Lemma storedOverride_for entry id :
  String.eqb id "__proto__" = false →
  storedOverride entry && String.eqb (trim entry.1) id =
  usableOverride entry && String.eqb (trim entry.1) id.
Proof.
  intros Hid. unfold storedOverride.
  destruct (String.eqb_spec (trim entry.1) id) as [->|]; [|by rewrite !andb_false_r].
  by rewrite Hid, !andb_true_r.
Qed.

Lemma storedMetadata_for entry id :
  String.eqb id "__proto__" = false →
  storedMetadata entry && String.eqb (trim entry.1) id =
  usableMetadata entry && String.eqb (trim entry.1) id.
Proof.
  intros Hid. unfold storedMetadata.
  destruct (String.eqb_spec (trim entry.1) id) as [->|]; [|by rewrite !andb_false_r].
  by rewrite Hid, !andb_true_r.
Qed.

(** The id of a declared segment is not [__proto__]. *)
Lemma seg_id_stored (segment : IdentitySegment) :
  String.eqb (seg_id segment) "__proto__" = false.
Proof.
  pose proof (seg_plainId segment) as Hplain. unfold inheritedMember in Hplain.
  destruct (String.eqb_spec (seg_id segment) "__proto__") as [Hid|]; [|done].
  rewrite Hid in Hplain. discriminate Hplain.
Qed.

Lemma normalizeIdentitySegmentOverrides_fold entries :
  normalizeIdentitySegmentOverrides (Some entries) =
  let normalized : gmap string string :=
    foldl (λ acc entry,
             if storedOverride entry then <[trim entry.1 := trim entry.2]> acc else acc)
          ∅ entries in
  if bool_decide (normalized = ∅) then None else Some normalized.
Proof.
  unfold normalizeIdentitySegmentOverrides. simpl. lazy zeta.
  rewrite (foldl_pointwise _
             (λ (acc : gmap string string) entry,
                if storedOverride entry then <[trim entry.1 := trim entry.2]> acc else acc));
    [done|].
  intros acc [key value]. unfold storedOverride, usableOverride, assignString. simpl.
  destruct (truthy (trim key)), (truthy (trim value)); simpl; try done.
  by destruct (String.eqb (trim key) "__proto__").
Qed.

Lemma normalizeIdentitySegmentMetadata_fold entries :
  normalizeIdentitySegmentMetadata (Some entries) =
  let normalized : MetadataRecord :=
    foldl (λ acc entry,
             if usableMetadata entry
             then assignEntry acc (trim entry.1) (cleanedMetadata entry.2) else acc)
          (recordOf ∅) entries in
  if bool_decide (md_own normalized = ∅) then None else Some normalized.
Proof.
  unfold normalizeIdentitySegmentMetadata. simpl. lazy zeta.
  rewrite (foldl_pointwise _
             (λ (acc : MetadataRecord) entry,
                if usableMetadata entry
                then assignEntry acc (trim entry.1) (cleanedMetadata entry.2) else acc));
    [done|].
  intros acc [key [label details]]. unfold usableMetadata, cleanedMetadata. simpl.
  destruct (truthy (trim key)); simpl; [|done].
  destruct label as [text|]; [destruct (truthy (trim text))|];
    by destruct details as [[|detail details]|].
Qed.

(** The own properties of the record the metadata loop fills. *)
Lemma metadata_fold_own entries :
  md_own (foldl (λ acc entry,
                   if usableMetadata entry
                   then assignEntry acc (trim entry.1) (cleanedMetadata entry.2) else acc)
                (recordOf ∅) entries) =
  foldl (λ (acc : gmap string IdentitySegmentMetadata) entry,
           if storedMetadata entry
           then <[trim entry.1 := cleanedMetadata entry.2]> acc else acc)
        ∅ entries.
Proof.
  induction entries as [|entry entries IH] using rev_ind; simpl; [done|].
  rewrite !foldl_app. simpl. unfold storedMetadata, assignEntry.
  destruct (usableMetadata entry); simpl; [|exact IH].
  destruct (String.eqb (trim entry.1) "__proto__"); simpl; [exact IH|by f_equal].
Qed.

(** Its prototype: the last entry that counts under the key [__proto__]. *)
Lemma metadata_fold_prototype entries :
  md_prototype (foldl (λ acc entry,
                         if usableMetadata entry
                         then assignEntry acc (trim entry.1) (cleanedMetadata entry.2)
                         else acc)
                      (recordOf ∅) entries) =
  lastMetadataFor entries "__proto__".
Proof.
  unfold lastMetadataFor.
  induction entries as [|entry entries IH] using rev_ind; simpl; [done|].
  rewrite foldl_app, rev_app_distr. simpl. unfold assignEntry.
  destruct (usableMetadata entry); simpl; [|exact IH].
  destruct (String.eqb (trim entry.1) "__proto__"); simpl; [done|exact IH].
Qed.

Lemma hasKeys_normalizeIdentitySegmentOverrides overrides :
  hasKeys (normalizeIdentitySegmentOverrides overrides) =
  existsb storedOverride (default [] overrides).
Proof.
  destruct overrides as [entries|]; [|done].
  rewrite normalizeIdentitySegmentOverrides_fold. lazy zeta. simpl.
  pose proof (foldl_insert_empty storedOverride (λ entry, trim entry.1)
                (λ entry, trim entry.2) entries) as Hempty.
  case_bool_decide as Hnormalized; simpl.
  - symmetry. by apply Hempty.
  - rewrite bool_decide_eq_false_2 by done. simpl.
    destruct (existsb storedOverride entries); [done|]. destruct Hnormalized.
    by apply Hempty.
Qed.

Lemma hasKeys_normalizeIdentitySegmentMetadata metadata :
  hasKeys (md_own <$> normalizeIdentitySegmentMetadata metadata) =
  existsb storedMetadata (default [] metadata).
Proof.
  destruct metadata as [entries|]; [|done].
  rewrite normalizeIdentitySegmentMetadata_fold. lazy zeta. simpl default.
  pose proof (foldl_insert_empty storedMetadata (λ entry, trim entry.1)
                (λ entry, cleanedMetadata entry.2) entries) as Hempty.
  rewrite <- metadata_fold_own in Hempty.
  case_bool_decide as Hnormalized; simpl.
  - symmetry. by apply Hempty.
  - rewrite bool_decide_eq_false_2 by done. simpl.
    destruct (existsb storedMetadata entries); [done|]. destruct Hnormalized.
    by apply Hempty.
Qed.

Lemma hasKeys_is_Some {V} (record : option (gmap string V)) :
  (∀ own, record = Some own → own ≠ ∅) →
  is_Some record ↔ hasKeys record = true.
Proof.
  intros Hfilled. destruct record as [own|]; simpl.
  - rewrite bool_decide_eq_false_2 by by apply Hfilled. split; [done|by eexists].
  - split; [by intros [? ?]|done].
Qed.

Lemma normalizeIdentitySegmentOverrides_filled overrides own :
  normalizeIdentitySegmentOverrides overrides = Some own → own ≠ ∅.
Proof.
  destruct overrides as [entries|]; [|done].
  unfold normalizeIdentitySegmentOverrides. simpl. lazy zeta.
  case_bool_decide; [done|]. by intros [= <-].
Qed.

Lemma normalizeIdentitySegmentMetadata_filled metadata record :
  normalizeIdentitySegmentMetadata metadata = Some record → md_own record ≠ ∅.
Proof.
  destruct metadata as [entries|]; [|done].
  unfold normalizeIdentitySegmentMetadata. simpl. lazy zeta.
  case_bool_decide; [done|]. by intros [= <-].
Qed.

(** X3.  The normaliser of the value overrides returns a record exactly
    when some entry of the caller's object has a key and a value that are
    not blank and a trimmed key other than [__proto__].  The override
    value the code reads out of that record for a declared segment is the
    trimmed value of the last entry whose trimmed key is the id of the
    segment, among the entries whose key and value are not blank; it is
    never the empty string. *)
Theorem normalized_override_is_last_usable_entry overrides segment :
  (is_Some (normalizeIdentitySegmentOverrides overrides) ↔
   existsb storedOverride (default [] overrides) = true) ∧
  overrideValueOf (normalizeIdentitySegmentOverrides overrides) segment =
    lastOverrideFor (default [] overrides) (seg_id segment) ∧
  overrideValueOf (normalizeIdentitySegmentOverrides overrides) segment ≠ Some "".
Proof.
  assert (overrideValueOf (normalizeIdentitySegmentOverrides overrides) segment =
          lastOverrideFor (default [] overrides) (seg_id segment)) as Hlookup.
  { destruct overrides as [entries|]; [|done].
    rewrite normalizeIdentitySegmentOverrides_fold. lazy zeta.
    pose proof (foldl_insert_lookup storedOverride (λ entry, trim entry.1)
                  (λ entry, trim entry.2) entries (seg_id segment)) as Hfold.
    rewrite (find_agree _ (λ entry, usableOverride entry &&
                                    String.eqb (trim entry.1) (seg_id segment))) in Hfold
      by (intros entry; apply storedOverride_for, seg_id_stored).
    unfold lastOverrideFor, overrideValueOf, stringOf. simpl default.
    destruct (find _ (rev entries)) as [found|] eqn:Hfound.
    - apply find_some in Hfound as [_ [Husable _]%andb_prop].
      apply andb_prop in Husable as [_ Hvalue].
      case_bool_decide as Hempty; simpl.
      + rewrite Hempty in Hfold. by rewrite lookup_empty in Hfold.
      + rewrite Hfold. simpl. by rewrite Hvalue.
    - case_bool_decide; simpl; [done|]. by rewrite Hfold. }
  split; [|split; [done|]].
  - rewrite <- hasKeys_normalizeIdentitySegmentOverrides.
    apply hasKeys_is_Some, normalizeIdentitySegmentOverrides_filled.
  - rewrite Hlookup. unfold lastOverrideFor.
    destruct (find _ _) as [found|] eqn:Hfound; [|done]. simpl.
    apply find_some in Hfound as [_ [[_ Hvalue]%andb_prop _]%andb_prop].
    intros [= Hblank]. by rewrite Hblank in Hvalue.
Qed.

(** X4.  What is kept of a metadata entry is its label, trimmed, when it
    is not blank, and its details when they hold a property; an entry
    counts when its key is not blank and something of it is kept.  The
    normaliser of the metadata overrides returns a record exactly when
    some entry that counts has a trimmed key other than [__proto__].  The
    own properties of that record are, key by key, what is kept of the
    last entry that counts under the key; the last entry that counts
    under [__proto__] is no property of the record but its prototype.
    When no entry counts under [__proto__], the override the code reads
    for a declared segment is what is kept of the last entry that counts
    under the id of the segment. *)
Theorem normalized_metadata_is_last_usable_entry metadata segment :
  (is_Some (normalizeIdentitySegmentMetadata metadata) ↔
   existsb storedMetadata (default [] metadata) = true) ∧
  (∀ record,
     normalizeIdentitySegmentMetadata metadata = Some record →
     md_prototype record = lastMetadataFor (default [] metadata) "__proto__" ∧
     md_own record !! "__proto__" = None ∧
     ∀ id, String.eqb id "__proto__" = false →
           md_own record !! id = lastMetadataFor (default [] metadata) id) ∧
  (lastMetadataFor (default [] metadata) "__proto__" = None →
   metadataOf (normalizeIdentitySegmentMetadata metadata) (seg_id segment) =
   lastMetadataFor (default [] metadata) (seg_id segment)).
Proof.
  assert (∀ record,
            normalizeIdentitySegmentMetadata metadata = Some record →
            md_prototype record = lastMetadataFor (default [] metadata) "__proto__" ∧
            md_own record !! "__proto__" = None ∧
            ∀ id, String.eqb id "__proto__" = false →
                  md_own record !! id = lastMetadataFor (default [] metadata) id)
    as Hrecord.
  { intros record. destruct metadata as [entries|]; [|done].
    rewrite normalizeIdentitySegmentMetadata_fold. lazy zeta. simpl default.
    case_bool_decide; [done|]. intros [= <-].
    rewrite metadata_fold_prototype, metadata_fold_own. split; [done|].
    split.
    - rewrite (foldl_insert_lookup storedMetadata (λ entry, trim entry.1)
                 (λ entry, cleanedMetadata entry.2) entries "__proto__").
      destruct (find _ (rev entries)) as [found|] eqn:Hfound; [|done].
      apply find_some in Hfound as [_ [Hstored Hkey]%andb_prop].
      unfold storedMetadata in Hstored. apply andb_prop in Hstored as [_ Hother].
      by rewrite Hkey in Hother.
    - intros id Hid.
      rewrite (foldl_insert_lookup storedMetadata (λ entry, trim entry.1)
                 (λ entry, cleanedMetadata entry.2) entries id).
      unfold lastMetadataFor. f_equal. apply find_agree. intros entry.
      by apply storedMetadata_for. }
  split; [|split; [exact Hrecord|]].
  - rewrite <- hasKeys_normalizeIdentitySegmentMetadata.
    destruct (normalizeIdentitySegmentMetadata metadata) as [record|] eqn:Hnormalized;
      simpl.
    + rewrite bool_decide_eq_false_2
        by by eapply normalizeIdentitySegmentMetadata_filled.
      split; [done|by eexists].
    + split; [by intros [? ?]|done].
  - intros Hprototype.
    destruct (normalizeIdentitySegmentMetadata metadata) as [record|] eqn:Hnormalized.
    + destruct (Hrecord record eq_refl) as (Hproto & _ & Hown).
      simpl. unfold metadataProperty.
      rewrite (Hown (seg_id segment) (seg_id_stored segment)).
      destruct (lastMetadataFor (default [] metadata) (seg_id segment)); [done|].
      rewrite Hproto, Hprototype. by rewrite (seg_plainId segment).
    + simpl. symmetry.
      destruct metadata as [entries|]; [|done]. simpl default.
      pose proof (hasKeys_normalizeIdentitySegmentMetadata (Some entries)) as Hkeys.
      rewrite Hnormalized in Hkeys. simpl in Hkeys.
      unfold lastMetadataFor.
      destruct (find _ (rev entries)) as [found|] eqn:Hfound; [|done].
      apply find_some in Hfound as [Hin [Husable Hkey]%andb_prop].
      assert (existsb storedMetadata entries = true) as Hstored; [|congruence].
      apply existsb_exists. exists found. split; [by apply in_rev|].
      unfold storedMetadata. rewrite Husable. simpl.
      apply String.eqb_eq in Hkey. rewrite Hkey. by rewrite seg_id_stored.
Qed.

(** X5.  The default offered for a declared segment when a stored
    identity is reviewed is the value of the last segment of that identity
    carrying the id of the declared segment, segments with an empty id or
    an empty value left aside. *)
Theorem defaults_come_from_last_segment chosen segment :
  stringOf (Some (toIdentitySegmentDefaults chosen)) segment =
  lastDefaultFor chosen (seg_id segment).
Proof.
  unfold stringOf, toIdentitySegmentDefaults, lastDefaultFor. simpl.
  rewrite (foldl_pointwise _
             (λ (acc : gmap string string) chosenSegment,
                if truthy (sel_id chosenSegment) && truthy (sel_value chosenSegment) &&
                   negb (String.eqb (sel_id chosenSegment) "__proto__")
                then <[sel_id chosenSegment := sel_value chosenSegment]> acc else acc)).
  - rewrite (foldl_insert_lookup
               (λ chosenSegment,
                  truthy (sel_id chosenSegment) && truthy (sel_value chosenSegment) &&
                  negb (String.eqb (sel_id chosenSegment) "__proto__"))
               sel_id sel_value).
    f_equal. apply find_agree. intros chosenSegment.
    destruct (String.eqb_spec (sel_id chosenSegment) (seg_id segment)) as [->|];
      [|by rewrite !andb_false_r].
    by rewrite seg_id_stored, !andb_true_r.
  - intros acc chosenSegment. unfold assignString.
    by destruct (truthy (sel_id chosenSegment)), (truthy (sel_value chosenSegment)),
         (String.eqb (sel_id chosenSegment) "__proto__").
Qed.

(** ** The builder, once more *)


(** ** The resolver at its edges *)

Section ResolverEdges.

Context `{NodePath} `{PromptPersistence}.

(** X6.  For a scenario that declares no identity segments the resolver
    touches neither the disk nor the prompts: it returns no identity,
    unless a slug that is not empty was given or an override entry left a
    property in a normalised record (an entry that counts, its trimmed key
    other than [__proto__]), in which case it throws the error that names
    the scenario. *)
Theorem resolver_without_declared_identity disk options script :
  scn_identity (ro_scenario options) = None ∨
  scn_identity (ro_scenario options) = Some [] →
  resolveWizardIdentitySelection disk options script =
  if isTruthy (ro_providedSlug options) ||
     existsb storedOverride (default [] (ro_providedSegments options)) ||
     existsb storedMetadata (default [] (ro_providedSegmentDetails options))
  then Raised (Error (noIdentityMessage (scn_id (ro_scenario options)))) script []
  else Done None script [].
Proof.
  intros Hidentity. unfold resolveWizardIdentitySelection. lazy zeta.
  rewrite hasKeys_normalizeIdentitySegmentOverrides,
    hasKeys_normalizeIdentitySegmentMetadata, orb_assoc.
  by destruct Hidentity as [-> | ->]; destruct (_ || _).
Qed.

(** X7.  When the answers come from an external file and no slug is
    given, the resolver reads nothing from the disk and asks nothing: its
    outcome is that of the builder on the normalised overrides with no
    fallback, and an identity left incomplete is no error, the resolver
    then returns nothing. *)
Theorem external_answers_resolve_without_disk disk options declared script :
  scn_identity (ro_scenario options) = Some declared → declared ≠ [] →
  whenTruthy (ro_providedSlug options) = None →
  ro_usingExternalAnswers options = true →
  resolveWizardIdentitySelection disk options script =
  settle (resolution <~
            buildIdentitySelectionFromSources declared
              (normalizeIdentitySegmentOverrides (ro_providedSegments options))
              (normalizeIdentitySegmentMetadata (ro_providedSegmentDetails options))
              None ;
          Ok (selection resolution))
         script [].
Proof.
  intros Hidentity Hdeclared Hslug Hexternal.
  unfold resolveWizardIdentitySelection. lazy zeta.
  rewrite Hidentity, Hslug, Hexternal.
  destruct declared as [|segment declared]; [done|].
  unfold bindP at 1. unfold retP at 1. simpl andb. rewrite !andb_false_r. cbv iota.
  unfold bindP, liftT.
  destruct (buildIdentitySelectionFromSources _ _ _ _) as [resolution|e]; [|done].
  simpl. by destruct (selection resolution).
Qed.



End ResolverEdges.

(** ** The prompts, answer by answer *)

Lemma earlier_nil {A} (r : Result A) : earlier [] r = r.
Proof. by destruct r. Qed.

Lemma overridden_value provided segment :
  overridden provided segment = true →
  ∃ value, overrideValueOf provided segment = Some value.
Proof.
  unfold overridden. intros Hgiven%bool_decide_eq_true. destruct Hgiven as [value Hvalue].
  by exists value.
Qed.

Lemma promptSegmentsLoop_overridden provided metadataOverrides defaults fallbackMap todo
    selections selectionMap missing script :
  forallb (overridden provided) todo = true →
  match buildLoop provided metadataOverrides fallbackMap todo selections missing with
  | Ok (resolved, stillMissing) =>
      stillMissing = missing ∧
      promptSegmentsLoop provided metadataOverrides defaults todo selections selectionMap
        script = Done {| slug := slugOf resolved; segments := resolved |} script []
  | Throw e =>
      promptSegmentsLoop provided metadataOverrides defaults todo selections selectionMap
        script = Raised e script []
  end.
Proof.
  revert selections selectionMap.
  induction todo as [|segment todo IH]; intros selections selectionMap; simpl; [done|].
  intros [Hsegment Htodo]%andb_prop.
  destruct (overridden_value provided segment Hsegment) as [value ->].
  unfold bindP.
  destruct (buildWizardIdentitySegmentSelection segment value SrcCli _ false)
    as [built|e]; [|done].
  cbn [liftT retP bindT]. rewrite earlier_nil.
  apply (IH (selections ++ [built])%list (<[seg_id segment := built]> selectionMap)
           Htodo).
Qed.

(** X9.  Segments that come with an override value are not prompted for.
    When every declared segment has one, [promptForIdentitySegments] reads
    nothing from the operator and shows nothing, and it settles as the
    builder does on the same overrides: with the builder's selection, or
    with the error the builder throws for an override that is not
    acceptable. *)
Theorem overridden_segments_are_not_prompted declared provided metadataOverrides
    defaults script :
  forallb (overridden provided) declared = true →
  match buildIdentitySelectionFromSources declared provided metadataOverrides None with
  | Ok resolution =>
      ∃ chosen,
        resolution = {| selection := Some chosen; missingSegmentIds := [] |} ∧
        promptForIdentitySegments declared provided metadataOverrides defaults script =
          Done chosen script []
  | Throw e =>
      promptForIdentitySegments declared provided metadataOverrides defaults script =
        Raised e script []
  end.
Proof.
  intros Hgiven. unfold buildIdentitySelectionFromSources, promptForIdentitySegments.
  pose proof (promptSegmentsLoop_overridden provided metadataOverrides defaults
                (fallbackMapOf None) declared [] ∅ [] script Hgiven) as Hloop.
  destruct (buildLoop _ _ _ declared [] []) as [[resolved stillMissing]|e]; simpl; [|done].
  destruct Hloop as [-> Hloop]. eauto.
Qed.

Lemma findOption_value segment value option :
  findOption segment value = Some option →
  opt_value option = value ∧
  ∃ declaredOptions, seg_options segment = Some declaredOptions ∧ declaredOptions ≠ [].
Proof.
  unfold findOption. destruct (seg_options segment) as [declaredOptions|]; [|done].
  simpl. intros Hfound. split.
  - apply find_some in Hfound as [_ Heq]. by apply String.eqb_eq.
  - exists declaredOptions. split; [done|]. by destruct declaredOptions.
Qed.

(** X10.  Picking one of the listed options at the prompt of a segment
    resolves the segment to that option: the value is the option's value,
    the label is the option's label or else its value, the source is
    ["option"], a metadata override is laid on top, and the prompt was
    shown once.  The two reserved values [__saved__] and [__custom__] are
    the only ones read otherwise. *)
Theorem listed_choice_resolves_to_option segment selectionMap metadataOverride
    defaultValue chosen option rest :
  findOption segment chosen = Some option →
  chosen ≠ "__saved__" → chosen ≠ "__custom__" →
  ∃ declaredOptions,
    seg_options segment = Some declaredOptions ∧
    promptForIdentitySegment segment selectionMap metadataOverride defaultValue
      (Answered chosen :: rest) =
    Done (let picked :=
            {| sel_id := seg_id segment;
               sel_value := chosen;
               sel_label := default chosen (opt_label option);
               sel_source := SrcOption;
               sel_details := None |} in
          match metadataOverride with
          | Some override => overrideMetadata override picked
          | None => picked
          end)
         rest
         [EvSelect (seg_prompt segment)
            (segmentChoices declaredOptions (seg_allowCustom segment) defaultValue)].
Proof.
  intros Hfound Hsaved Hcustom.
  destruct (findOption_value _ _ _ Hfound) as (Hvalue & declaredOptions & Hoptions & Hsome).
  exists declaredOptions. split; [done|].
  unfold promptForIdentitySegment. rewrite Hoptions.
  destruct declaredOptions as [|first others]; [done|].
  unfold bindP, select.
  apply String.eqb_neq in Hsaved, Hcustom. rewrite Hsaved, Hcustom.
  unfold buildWizardIdentitySegmentSelection. rewrite Hfound. simpl.
  rewrite Hvalue. by destruct metadataOverride.
Qed.

(** X11.  A value typed at the free-text prompt of a segment is taken
    trimmed, and never empty: whatever [promptForCustomIdentityValue]
    returns is non-empty and has no white space around it, and a reply
    that is blank makes it throw instead. *)
Theorem custom_value_is_trimmed_and_not_blank segment selectionMap initialValueOverride :
  returns (promptForCustomIdentityValue segment selectionMap initialValueOverride)
    (λ value, truthy value = true ∧ trim value = value) ∧
  ∀ reply rest,
    truthy (trim reply) = false →
    ∃ log,
      promptForCustomIdentityValue segment selectionMap initialValueOverride
        (Answered reply :: rest) =
      Raised (Error ("Identity segment " +:+ dquote +:+ seg_id segment +:+ dquote +:+
                     " requires a value."))
             rest log.
Proof.
  split.
  - intros script value rest log. unfold promptForCustomIdentityValue. lazy zeta.
    unfold bindP, text. destruct script as [|[|reply] script]; [done|done|].
    rewrite length_zero_truthy.
    destruct (truthy (trim reply)) eqn:Hreply; simpl; [|done].
    intros [= <- _ _]. split; [done|apply trim_idem].
  - intros reply rest Hblank. unfold promptForCustomIdentityValue. lazy zeta.
    unfold bindP, text. rewrite length_zero_truthy, Hblank. simpl. eauto.
Qed.

Lemma strategyOf_step filePath response rest :
  promptForPersistedAnswersStrategy filePath (Answered response :: rest) =
  match strategyOf response with
  | Some strategy =>
      Done strategy rest [EvSelect (strategyMessage filePath) strategyChoices]
  | None =>
      earlier [EvSelect (strategyMessage filePath) strategyChoices]
        (promptForPersistedAnswersStrategy filePath rest)
  end.
Proof.
  unfold strategyOf. simpl.
  by destruct (String.eqb response "reuse"), (String.eqb response "review"),
    (String.eqb response "reset").
Qed.

(** X12.  The strategy prompt asks again until it gets an answer it
    knows.  After any number of answers that are none of [reuse],
    [review] and [reset], the first one that is settles the prompt with
    the strategy it names; the question was shown once per answer read,
    and what follows in the script is left unread. *)
Theorem strategy_prompt_asks_until_recognised filePath unknown response strategy rest :
  Forall (λ other, strategyOf other = None) unknown →
  strategyOf response = Some strategy →
  promptForPersistedAnswersStrategy filePath
    (map Answered unknown ++ Answered response :: rest) =
  Done strategy rest
    (replicate (S (length unknown)) (EvSelect (strategyMessage filePath) strategyChoices)).
Proof.
  intros Hunknown Hknown.
  induction Hunknown as [|other unknown Hother _ IH].
  - simpl map. simpl app. by rewrite strategyOf_step, Hknown.
  - simpl map. rewrite <- app_comm_cons, strategyOf_step, Hother, IH. reflexivity.
Qed.

Lemma segmentChoices_plain declaredOptions allowCustom defaultValue :
  segmentChoices declaredOptions allowCustom defaultValue =
  let options := plainChoices declaredOptions allowCustom in
  match whenTruthy defaultValue with
  | Some saved =>
      match list_find (λ option, so_value option = saved) options with
      | Some (position, existing) => existing :: delete position options
      | None => if allowCustom then savedChoice saved :: options else options
      end
  | None => options
  end.
Proof.
  unfold segmentChoices, plainChoices. fold choiceOf.
  destruct allowCustom; simpl; by rewrite ?app_nil_r.
Qed.

(** X13.  The choices shown for a segment lose none of its options.  They
    are the declared options, and the custom entry when custom values are
    allowed, in some order, with at most one entry put in front of them:
    the saved value, when custom values are allowed and no choice carries
    it.  When there is a default that is not empty and that is a declared
    option, or custom values are allowed, the first choice shown stands
    for that default. *)
Theorem segment_choices_keep_options_and_lead_with_default declaredOptions allowCustom
    defaultValue :
  let plain := plainChoices declaredOptions allowCustom in
  let shown := segmentChoices declaredOptions allowCustom defaultValue in
  (shown ≡ₚ plain ∨
   ∃ saved,
     whenTruthy defaultValue = Some saved ∧ allowCustom = true ∧
     (saved ∉ map so_value plain) ∧ shown = savedChoice saved :: plain) ∧
  (∀ saved,
     whenTruthy defaultValue = Some saved →
     (allowCustom = true ∨ saved ∈ map opt_value declaredOptions) →
     ∃ first,
       head shown = Some first ∧ (so_value first = saved ∨ first = savedChoice saved)).
Proof.
  intros plain shown. subst shown. rewrite segmentChoices_plain. lazy zeta.
  fold plain.
  destruct (whenTruthy defaultValue) as [saved|]; [|by split; [left|]].
  destruct (list_find _ plain) as [[position existing]|] eqn:Hfind.
  - apply list_find_Some in Hfind as (Hat & Hvalue & _). split.
    + left. symmetry. by apply delete_Permutation.
    + intros ? [= <-] _. exists existing. by split; [|left].
  - apply list_find_None in Hfind. split.
    + destruct allowCustom; [|by left]. right. exists saved.
      repeat split; try done.
      intros (option & Hvalue & Hin)%list_elem_of_fmap.
      rewrite Forall_forall in Hfind. by apply (Hfind option).
    + intros ? [= <-] Hcan. destruct allowCustom.
      * exists (savedChoice saved). by split; [|right].
      * destruct Hcan as [|Hlisted]; [done|]. exfalso.
        apply list_elem_of_fmap in Hlisted as (option & Hvalue & Hin).
        rewrite Forall_forall in Hfind. apply (Hfind (choiceOf option)); [|done].
        unfold plain, plainChoices. rewrite app_nil_r. by apply list_elem_of_fmap_2.
Qed.

(** ** Reading the files of the answers tree *)

(** X14.  The scan reads the collected files one by one, in order, each
    once.  A file that has vanished since it was listed is passed over
    like one that does not parse, so a scan over such files and files
    that yield text succeeds; a file whose read fails for any other
    reason aborts the scan with that error, and the files after it are
    not read. *)
Theorem scan_reads_in_order_until_a_read_fails expectedSegments files selections :
  (forallb readable files = true →
   ∃ result,
     readSnapshots expectedSegments files selections = (map readEvent files, Ok result)) ∧
  (∀ before file after code,
     files = (before ++ file :: after)%list →
     forallb readable before = true →
     af_read file = ReadFails code → code ≠ ENOENT →
     readSnapshots expectedSegments files selections =
       (map readEvent (before ++ [file]), Throw (ErrnoException code (af_path file)))).
Proof.
  split; [apply readSnapshots_readable|].
  intros before file after code -> Hbefore Hread Hcode.
  rewrite readSnapshots_app.
  destruct (readSnapshots_readable expectedSegments before selections Hbefore)
    as [known ->].
  unfold bindS. simpl. unfold readIdentitySelectionSnapshot. rewrite Hread.
  rewrite map_app. simpl. by destruct code.
Qed.

(** ** Walking the answers tree *)

Lemma regularFiles_cons name child more :
  regularFiles (NDir ((name, child) :: more)) =
  (match child with
   | NFile content => [(name, content)]
   | _ => regularFiles child
   end ++ regularFiles (NDir more))%list.
Proof. reflexivity. Qed.

Lemma jsonFileOf_later name child more file :
  jsonFileOf (NDir more) file → jsonFileOf (NDir ((name, child) :: more)) file.
Proof.
  intros (listed & Hin & Hjson). exists listed. split; [|done].
  rewrite regularFiles_cons. apply elem_of_app. by right.
Qed.

Lemma jsonFileOf_nested name child more file :
  jsonFileOf child file → jsonFileOf (NDir ((name, child) :: more)) file.
Proof.
  intros (listed & Hin & Hjson). exists listed. split; [|done].
  rewrite regularFiles_cons. apply elem_of_app. left.
  destruct child; try done. by apply elem_of_nil in Hin.
Qed.

Section WalkProperties.

Context `{NodePath}.

Lemma collectIdentityAnswerFiles_sound node dir :
  forallb isReaddir (collectIdentityAnswerFiles dir node).1 = true ∧
  ∀ files,
    (collectIdentityAnswerFiles dir node).2 = Ok files →
    Forall (jsonFileOf node) files.
Proof.
  revert dir. induction node as [content|entries IH|code|] using FsNode_nested_ind;
    intros dir.
  - split; [done|]. by intros files [= <-].
  - simpl.
    match goal with
    | |- context [?loop entries (@nil AnswerFile)] => set (walk := loop)
    end.
    assert (∀ collected,
              forallb isReaddir (walk entries collected).1 = true ∧
              ∀ files,
                (walk entries collected).2 = Ok files →
                ∃ found, files = (collected ++ found)%list ∧
                         Forall (jsonFileOf (NDir entries)) found) as Hwalk.
    { induction IH as [|[name child] more Hchild _ IHmore]; intros collected.
      - split; [done|]. intros files [= <-]. exists []. by rewrite app_nil_r.
      - destruct child as [content|nested|code|].
        + change (walk ((name, NFile content) :: more) collected) with
            (if endsWith name ".json"
             then walk more
                    (collected ++ [{| af_path := path_join [dir; name];
                                      af_read := content |}])%list
             else walk more collected).
          destruct (endsWith name ".json") eqn:Hjson.
          * destruct (IHmore (collected ++ [{| af_path := path_join [dir; name];
                                               af_read := content |}])%list)
              as [Hlog Hfiles].
            split; [done|]. intros files Hresult.
            destruct (Hfiles files Hresult) as (found & -> & Hfound).
            eexists. split; [by rewrite <- app_assoc|].
            constructor.
            -- exists name. split; [|done]. rewrite regularFiles_cons. simpl.
               apply elem_of_cons. by left.
            -- eapply Forall_impl; [done|]. intros file. apply jsonFileOf_later.
          * destruct (IHmore collected) as [Hlog Hfiles]. split; [done|].
            intros files Hresult. destruct (Hfiles files Hresult) as (found & -> & Hfound).
            exists found. split; [done|].
            eapply Forall_impl; [done|]. intros file. apply jsonFileOf_later.
        + change (walk ((name, NDir nested) :: more) collected) with
            (bindS (collectIdentityAnswerFiles (path_join [dir; name]) (NDir nested))
               (λ inner, walk more (collected ++ inner)%list)).
          destruct (Hchild (path_join [dir; name])) as [Hlog Hinner].
          cbn [snd] in Hlog, Hinner. unfold bindS.
          destruct (collectIdentityAnswerFiles (path_join [dir; name]) (NDir nested))
            as [log [inner|e]]; cbn [fst snd] in Hlog, Hinner; [|by split].
          destruct (IHmore (collected ++ inner)%list) as [Hlog' Hfiles].
          destruct (walk more (collected ++ inner)%list) as [log' outcome].
          simpl in *. split; [by rewrite forallb_app, Hlog, Hlog'|].
          intros files Hresult. destruct (Hfiles files Hresult) as (found & -> & Hfound).
          exists (inner ++ found)%list. split; [by rewrite app_assoc|].
          apply Forall_app. split.
          * eapply Forall_impl; [by apply Hinner|]. intros file. apply jsonFileOf_nested.
          * eapply Forall_impl; [done|]. intros file. apply jsonFileOf_later.
        + change (walk ((name, NDirError code) :: more) collected) with
            (bindS (collectIdentityAnswerFiles (path_join [dir; name]) (NDirError code))
               (λ inner, walk more (collected ++ inner)%list)).
          simpl collectIdentityAnswerFiles. unfold bindS.
          destruct code; try done;
            (destruct (IHmore (collected ++ [])%list) as [Hlog' Hfiles];
             destruct (walk more (collected ++ [])%list) as [log' outcome];
             simpl in *; split; [done|];
             intros files Hresult; destruct (Hfiles files Hresult) as (found & -> & Hfound);
             exists found; split; [by rewrite app_nil_r|];
             eapply Forall_impl; [done|]; intros file; apply jsonFileOf_later).
        + change (walk ((name, NOther) :: more) collected) with (walk more collected).
          destruct (IHmore collected) as [Hlog Hfiles]. split; [done|].
          intros files Hresult. destruct (Hfiles files Hresult) as (found & -> & Hfound).
          exists found. split; [done|].
          eapply Forall_impl; [done|]. intros file. apply jsonFileOf_later. }
    destruct (Hwalk []) as [Hlog Hfiles].
    destruct (walk entries []) as [log outcome]. simpl in *. split; [done|].
    intros files Hresult. by destruct (Hfiles files Hresult) as (found & -> & Hfound).
  - split; [done|]. simpl. destruct code; by intros files [= <-].
  - split; [done|]. by intros files [= <-].
Qed.

(** X15.  Collecting the answer files only lists directories: no file is
    read while the tree is walked.  Every file it returns stands for a
    regular file of the tree whose name ends in [.json], with the content
    found there; entries that are neither files nor directories and files
    with another name are never returned.  A directory that is not there
    yields no file. *)
Theorem walk_lists_json_files_without_reading disk dir :
  forallb isReaddir (collectIdentityAnswerFilesAt disk dir).1 = true ∧
  ∀ files,
    (collectIdentityAnswerFilesAt disk dir).2 = Ok files →
    match disk dir with
    | Some node => Forall (jsonFileOf node) files
    | None => files = []
    end.
Proof.
  unfold collectIdentityAnswerFilesAt. destruct (disk dir) as [node|].
  - apply collectIdentityAnswerFiles_sound.
  - split; [done|]. by intros files [= <-].
Qed.

End WalkProperties.

(** ** The answers stage, piece by piece *)

(** X16.  What the stage stores about a resolved identity is enough to
    recover it.  From a manager whose metadata holds the slug and the
    segments of a selection as the stage writes them, the recovery returns
    that selection when it has one segment per declared segment: the same
    ids, values, labels and details in the same order, every source read
    back as ["cli"], and the stored slug trimmed, or the join of the
    values when the stored slug is blank.  With another number of segments
    nothing is recovered. *)
Theorem stored_identity_is_recovered scenario declared manager scenarioId chosen :
  scn_identity scenario = Some declared → declared ≠ [] →
  getMetadata manager =
    Some {| meta_scenarioId := scenarioId;
            meta_identity :=
              Some {| pi_slug := Some (slug chosen);
                      pi_segments := Some (map toPersistedSegment (segments chosen)) |} |} →
  recoverIdentitySelection scenario manager =
  if (length (segments chosen) =? length declared)%nat
  then Some {| slug := if truthy (trim (slug chosen)) then trim (slug chosen)
                       else join "/" (map sel_value (segments chosen));
               segments := map asStored (segments chosen) |}
  else None.
Proof.
  intros Hidentity Hdeclared Hmetadata. unfold recoverIdentitySelection.
  rewrite Hidentity, Hmetadata. destruct declared as [|segment declared]; [done|].
  simpl. rewrite length_map.
  destruct (_ =? _)%nat; [|done].
  rewrite truthy_length. do 2 f_equal.
  - destruct (truthy _); [done|]. f_equal. rewrite map_map. by apply map_ext.
  - rewrite map_map. by apply map_ext.
Qed.

Section StageProperties.

Context `{NodePath} `{PromptPersistence}.

(** X17.  Without an answers file in effect and without an identity, the
    name of the answers file is asked for only in a terminal, only when
    the stored answers are not to be loaded, and never for the scenario
    [workspace-bootstrap], whose answers always live in
    [workspace/bootstrap.json] under the answers directory.  The name
    typed is taken trimmed; a blank one stands for the scenario id. *)
Theorem answers_name_is_asked_only_when_free repoRoot scenario options tty script :
  resolvedAnswersPathOf repoRoot options = None →
  (scn_id scenario = "workspace-bootstrap" →
   assignAnswersAddress repoRoot scenario options tty None script =
     Done (inr ("workspace/bootstrap",
                Some (path_join [repoRoot; ".dev-wizard"; "answers"; "workspace";
                                 "bootstrap.json"])))
          script []) ∧
  (scn_id scenario ≠ "workspace-bootstrap" →
   tty = false ∨ loadPersistedAnswers options = true →
   assignAnswersAddress repoRoot scenario options tty None script =
     Done (inr (scn_id scenario, None)) script []) ∧
  (scn_id scenario ≠ "workspace-bootstrap" →
   tty = true → loadPersistedAnswers options = false →
   ∀ name rest,
     assignAnswersAddress repoRoot scenario options tty None (Answered name :: rest) =
       Done (inr (if truthy (trim name) then trim name else scn_id scenario, None))
            rest
            [EvText aliasPromptMessage (Some (scn_id scenario)) (Some (scn_id scenario))]).
Proof.
  intros Hpath. unfold assignAnswersAddress. rewrite Hpath. lazy zeta.
  rewrite bool_decide_eq_false_2 by (by intros [? ?]). simpl negb. rewrite andb_true_r.
  repeat split.
  - intros ->. simpl. by rewrite andb_false_r.
  - intros Hother%String.eqb_neq Hquiet. rewrite Hother. simpl.
    destruct Hquiet as [-> | ->]; [|done]. by destruct (negb _ && _).
  - intros Hother%String.eqb_neq -> Hload name rest. rewrite Hother, Hload. simpl.
    unfold bindP, text. simpl. by rewrite truthy_length.
Qed.

End StageProperties.

(** ** What the free-text prompt is filled with *)

Lemma renderIdentityDefaultTemplate_truthy template selectionMap rendered :
  renderIdentityDefaultTemplate template selectionMap = Some rendered →
  truthy rendered = true ∧ trim rendered = rendered.
Proof.
  unfold renderIdentityDefaultTemplate. destruct (negb (truthy template)); [done|].
  lazy zeta. destruct (truthy (trim _)) eqn:Hrendered; [|done].
  intros [= <-]. split; [done|apply trim_idem].
Qed.

(** X18.  The free-text prompt of a segment is never filled in with the
    empty string: the initial value it is shown with is absent, or it is
    the default handed in, or the rendered default template of the
    segment, and in each case not empty. *)
Theorem prefilled_value_is_never_empty segment selectionMap initialValueOverride script
    message placeholder initialValue rest :
  logOf (promptForCustomIdentityValue segment selectionMap initialValueOverride script) =
    EvText message placeholder (Some initialValue) :: rest →
  truthy initialValue = true ∧
  (initialValueOverride = Some initialValue ∨
   ∃ template,
     seg_defaultValue segment = Some template ∧
     renderIdentityDefaultTemplate template selectionMap = Some initialValue).
Proof.
  unfold promptForCustomIdentityValue. lazy zeta.
  set (shown := match whenTruthy initialValueOverride with
                | Some override => Some override
                | None => _
                end).
  intros Hlog.
  assert (shown = Some initialValue) as Hshown.
  { revert Hlog. unfold bindP, text.
    destruct script as [|[|reply] script]; simpl.
    - by intros [= _ _ ->].
    - by intros [= _ _ ->].
    - destruct (_ =? _)%nat; simpl; by intros [= _ _ ->]. }
  clear Hlog. subst shown. unfold whenTruthy in Hshown.
  destruct initialValueOverride as [override|].
  - destruct (truthy override) eqn:Hoverride.
    + injection Hshown as ->. by split; [|left].
    + destruct (seg_defaultValue segment) as [template|]; [|done].
      destruct (truthy template); [|done].
      split; [by eapply renderIdentityDefaultTemplate_truthy|]. right. by exists template.
  - destruct (seg_defaultValue segment) as [template|]; [|done].
    destruct (truthy template); [|done].
    split; [by eapply renderIdentityDefaultTemplate_truthy|]. right. by exists template.
Qed.

(** ** Execution metadata *)

Lemma trimmedWhenPresent_Some text given :
  trimmedWhenPresent text = Some given → truthy given = true ∧ trim given = given.
Proof.
  unfold trimmedWhenPresent. destruct text as [raw|]; [|done].
  rewrite truthy_length. destruct (truthy (trim raw)) eqn:Hraw; [|done].
  intros [= <-]. split; [done|apply trim_idem].
Qed.

Lemma trimmedWhenPresent_names source given :
  trimmedWhenPresent source = Some given ↔ namesSlug source given.
Proof.
  unfold trimmedWhenPresent, namesSlug. destruct source as [text|].
  - rewrite truthy_length. split.
    + destruct (truthy (trim text)) eqn:Htext; [|done]. intros [= <-]. by exists text.
    + intros (same & [= <-] & Htext & ->). by rewrite Htext.
  - split; [done|]. by intros (text & Hnone & _).
Qed.

Lemma trimmedWhenPresent_names_none source :
  trimmedWhenPresent source = None ↔ namesNoSlug source.
Proof.
  unfold trimmedWhenPresent, namesNoSlug. destruct source as [text|].
  - rewrite truthy_length. split.
    + destruct (truthy (trim text)) eqn:Htext; [done|]. by intros _ same [= <-].
    + intros Hblank. by rewrite (Hblank text eq_refl).
  - split; [by intros _ text|done].
Qed.

(** The metadata in one piece: the sandbox choice and the slug in effect,
    and nothing when there is neither. *)
Lemma resolveExecutionMetadata_choice env options :
  resolveExecutionMetadata env options =
  let choice :=
    match executionSandbox options with
    | Some explicit => Some explicit
    | None => if sandboxSwitchedOn env then Some true else None
    end in
  let chosenSlug :=
    match trimmedWhenPresent (executionSandboxSlug options) with
    | Some given => Some given
    | None => trimmedWhenPresent (DEV_WIZARD_SANDBOX_SLUG env)
    end in
  match choice, chosenSlug with
  | None, None => None
  | _, _ => Some {| sandbox := choice; sandboxSlug := chosenSlug |}
  end.
Proof.
  unfold resolveExecutionMetadata, sandboxSwitchedOn. lazy zeta.
  assert (match DEV_WIZARD_SANDBOX env with
          | Some envSandbox =>
              (0 <? String.length envSandbox)%nat && negb (String.eqb envSandbox "0") &&
              negb (String.eqb (toLowerCase envSandbox) "false")
          | None => false
          end =
          match DEV_WIZARD_SANDBOX env with
          | Some text =>
              truthy text && negb (String.eqb text "0") &&
              negb (String.eqb (toLowerCase text) "false")
          | None => false
          end) as ->.
  { destruct (DEV_WIZARD_SANDBOX env) as [text|]; [|done]. by rewrite truthy_length. }
  set (enabled := match DEV_WIZARD_SANDBOX env with Some _ => _ | None => false end).
  set (choice := match executionSandbox options with
                 | Some explicit => Some explicit
                 | None => if enabled then Some true else None
                 end).
  set (chosenSlug := match trimmedWhenPresent (executionSandboxSlug options) with
                     | Some given => Some given
                     | None => trimmedWhenPresent (DEV_WIZARD_SANDBOX_SLUG env)
                     end).
  assert (whenTruthy chosenSlug = chosenSlug) as Hkept.
  { unfold whenTruthy. destruct chosenSlug as [given|] eqn:Hchosen; [|done].
    assert (truthy given = true) as ->; [|done]. unfold chosenSlug in Hchosen.
    destruct (trimmedWhenPresent (executionSandboxSlug options)) as [first|] eqn:Hfirst.
    - injection Hchosen as <-. by eapply trimmedWhenPresent_Some.
    - by eapply trimmedWhenPresent_Some. }
  unfold isTruthy. rewrite Hkept.
  destruct choice as [flag|], chosenSlug as [given|]; simpl; try done.
  all: rewrite bool_decide_eq_true_2 by by eexists; done.
Qed.

(** X19.  The execution metadata of a run follows the options first and
    the environment second.  An explicit sandbox option is always
    reported, as given.  Without one the environment switches the sandbox
    on when its variable is set and is neither empty, [0] nor [false];
    it never switches it off.  A sandbox slug named by the options is
    reported trimmed; when the options name none, the one named by the
    environment is.  A slug that is reported is never empty and comes
    from one of the two.  Nothing is reported exactly when there is no
    explicit option, the environment does not switch the sandbox on and
    neither source names a slug. *)
Theorem execution_metadata_prefers_options env options :
  (∀ explicit,
     executionSandbox options = Some explicit →
     ∃ metadata,
       resolveExecutionMetadata env options = Some metadata ∧
       sandbox metadata = Some explicit) ∧
  (executionSandbox options = None →
   sandboxSwitchedOn env = true →
   ∃ metadata,
     resolveExecutionMetadata env options = Some metadata ∧
     sandbox metadata = Some true) ∧
  (executionSandbox options = None →
   sandboxSwitchedOn env = false →
   ∀ metadata,
     resolveExecutionMetadata env options = Some metadata → sandbox metadata = None) ∧
  (∀ given,
     namesSlug (executionSandboxSlug options) given →
     ∃ metadata,
       resolveExecutionMetadata env options = Some metadata ∧
       sandboxSlug metadata = Some given) ∧
  (∀ given,
     namesNoSlug (executionSandboxSlug options) →
     namesSlug (DEV_WIZARD_SANDBOX_SLUG env) given →
     ∃ metadata,
       resolveExecutionMetadata env options = Some metadata ∧
       sandboxSlug metadata = Some given) ∧
  (∀ metadata given,
     resolveExecutionMetadata env options = Some metadata →
     sandboxSlug metadata = Some given →
     truthy given = true ∧ trim given = given ∧
     (namesSlug (executionSandboxSlug options) given ∨
      namesSlug (DEV_WIZARD_SANDBOX_SLUG env) given)) ∧
  (resolveExecutionMetadata env options = None ↔
   executionSandbox options = None ∧
   sandboxSwitchedOn env = false ∧
   namesNoSlug (executionSandboxSlug options) ∧
   namesNoSlug (DEV_WIZARD_SANDBOX_SLUG env)).
Proof.
  rewrite resolveExecutionMetadata_choice. lazy zeta.
  split; [|split; [|split; [|split; [|split; [|split]]]]].
  - intros explicit ->.
    destruct (match trimmedWhenPresent _ with Some _ => _ | None => _ end); by eexists.
  - intros -> ->.
    destruct (match trimmedWhenPresent _ with Some _ => _ | None => _ end); by eexists.
  - intros -> -> metadata.
    destruct (match trimmedWhenPresent _ with Some _ => _ | None => _ end); [|done].
    by intros [= <-].
  - intros given Hgiven%trimmedWhenPresent_names. rewrite Hgiven.
    destruct (match executionSandbox options with Some _ => _ | None => _ end);
      by eexists.
  - intros given Hnone%trimmedWhenPresent_names_none Hgiven%trimmedWhenPresent_names.
    rewrite Hnone, Hgiven.
    destruct (match executionSandbox options with Some _ => _ | None => _ end);
      by eexists.
  - intros metadata given Hresolved Hslug.
    assert (match trimmedWhenPresent (executionSandboxSlug options) with
            | Some first => Some first
            | None => trimmedWhenPresent (DEV_WIZARD_SANDBOX_SLUG env)
            end = Some given) as Hchosen.
    { destruct (match executionSandbox options with Some _ => _ | None => _ end),
        (match trimmedWhenPresent _ with Some _ => _ | None => _ end);
        simplify_eq/=; done. }
    destruct (trimmedWhenPresent (executionSandboxSlug options)) as [first|] eqn:Hfirst.
    + injection Hchosen as ->.
      destruct (trimmedWhenPresent_Some _ _ Hfirst) as [Htruthy Htrim].
      split; [done|]. split; [done|]. left. by apply trimmedWhenPresent_names.
    + destruct (trimmedWhenPresent_Some _ _ Hchosen) as [Htruthy Htrim].
      split; [done|]. split; [done|]. right. by apply trimmedWhenPresent_names.
  - rewrite <- !trimmedWhenPresent_names_none. split.
    + destruct (executionSandbox options); [done|].
      destruct (sandboxSwitchedOn env); [done|].
      destruct (trimmedWhenPresent (executionSandboxSlug options)); [done|].
      by destruct (trimmedWhenPresent (DEV_WIZARD_SANDBOX_SLUG env)).
    + by intros (-> & -> & -> & ->).
Qed.

(** ** Plan preferences *)

Lemma bool_decide_elem_of_snoc (known section : string) (sections : list string) :
  bool_decide (known ∈ (sections ++ [section])%list) =
  bool_decide (known ∈ sections) || String.eqb section known.
Proof.
  destruct (String.eqb_spec section known) as [->|Hother].
  - rewrite orb_true_r. apply bool_decide_eq_true. apply elem_of_app. right.
    by apply list_elem_of_singleton.
  - rewrite orb_false_r. apply bool_decide_ext. rewrite elem_of_app, list_elem_of_singleton.
    split; [intros [?|Hsame]; [done|by destruct Hother]|by left].
Qed.

Lemma applyPlanExpandSections_flags sections :
  applyPlanExpandSections (Some sections) =
  {| expandEnv := bool_decide ("env" ∈ sections);
     expandTemplates := bool_decide ("templates" ∈ sections);
     expandBranches := bool_decide ("branches" ∈ sections) |}.
Proof.
  unfold applyPlanExpandSections. simpl default.
  induction sections as [|section sections IH] using rev_ind; [done|].
  rewrite foldl_app, IH, !bool_decide_elem_of_snoc. simpl.
  destruct (String.eqb section "env") eqn:Henv.
  { apply String.eqb_eq in Henv as ->. simpl. by rewrite orb_true_r, !orb_false_r. }
  destruct (String.eqb section "templates") eqn:Htemplates.
  { apply String.eqb_eq in Htemplates as ->. simpl. by rewrite orb_true_r, !orb_false_r. }
  destruct (String.eqb section "branches") eqn:Hbranches.
  { apply String.eqb_eq in Hbranches as ->. simpl. by rewrite orb_true_r, !orb_false_r. }
  by rewrite !orb_false_r.
Qed.

(** X20.  Plan preferences and the list of expanded sections are two
    views of the same choice.  Turning preferences into sections and back
    gives the preferences again; turning sections into preferences and
    back gives the known sections that were named, each once and in the
    fixed order [env], [templates], [branches], whatever else the list
    held. *)
Theorem plan_sections_round_trip :
  (∀ preferences,
     applyPlanExpandSections (Some (getPlanExpandSectionsFromPreferences preferences)) =
     preferences) ∧
  (∀ sections,
     getPlanExpandSectionsFromPreferences (applyPlanExpandSections (Some sections)) =
     List.filter (λ known, bool_decide (known ∈ sections)) knownSections).
Proof.
  split.
  - by intros [[] [] []].
  - intros sections. rewrite applyPlanExpandSections_flags.
    unfold getPlanExpandSectionsFromPreferences, knownSections. simpl.
    by destruct (bool_decide ("env" ∈ sections)),
      (bool_decide ("templates" ∈ sections)), (bool_decide ("branches" ∈ sections)).
Qed.

(** ** The history of the text prompt *)

Lemma length_eqb_zero {A} (xs : list A) : xs ≠ [] → (length xs =? 0)%nat = false.
Proof. by destruct xs. Qed.

Lemma onCursor_empty direction promptValue state :
  onCursor [] direction promptValue state = (state, None).
Proof. unfold onCursor. simpl. by destruct (_ && _). Qed.

Lemma onCursor_up_fresh entries promptValue draft :
  entries ≠ [] →
  onCursor entries (Some "up") promptValue {| historyIndex := None; draftValue := draft |} =
  ({| historyIndex := Some (length entries - 1)%nat;
      draftValue := Some (default "" promptValue) |},
   entries !! (length entries - 1)%nat).
Proof.
  intros Hentries. unfold onCursor.
  rewrite (bool_decide_eq_true_2 (Some "up" = Some "up")) by done.
  by rewrite length_eqb_zero.
Qed.

Lemma onCursor_up_at entries promptValue index draft :
  entries ≠ [] →
  onCursor entries (Some "up") promptValue
    {| historyIndex := Some index; draftValue := draft |} =
  ({| historyIndex := Some (index - 1)%nat; draftValue := draft |},
   entries !! (index - 1)%nat).
Proof.
  intros Hentries. unfold onCursor.
  rewrite (bool_decide_eq_true_2 (Some "up" = Some "up")) by done.
  rewrite length_eqb_zero by done. simpl. by destruct index.
Qed.

Lemma onCursor_down_at entries promptValue index draft :
  entries ≠ [] →
  onCursor entries (Some "down") promptValue
    {| historyIndex := Some index; draftValue := draft |} =
  if (index <? length entries - 1)%nat
  then ({| historyIndex := Some (index + 1)%nat; draftValue := draft |},
        entries !! (index + 1)%nat)
  else ({| historyIndex := None; draftValue := draft |}, Some (default "" draft)).
Proof.
  intros Hentries. unfold onCursor.
  rewrite (bool_decide_eq_false_2 (Some "down" = Some "up")) by done.
  rewrite (bool_decide_eq_true_2 (Some "down" = Some "down")) by done.
  by rewrite length_eqb_zero.
Qed.

Lemma onCursor_down_idle entries promptValue draft :
  onCursor entries (Some "down") promptValue
    {| historyIndex := None; draftValue := draft |} =
  ({| historyIndex := None; draftValue := draft |}, None).
Proof.
  unfold onCursor.
  rewrite (bool_decide_eq_false_2 (Some "down" = Some "up")) by done.
  rewrite (bool_decide_eq_true_2 (Some "down" = Some "down")) by done.
  by destruct (_ =? _)%nat.
Qed.

Lemma onCursorEvents_app entries first second state :
  onCursorEvents entries (first ++ second) state =
  let '(middle, written) := onCursorEvents entries first state in
  let '(final, writes) := onCursorEvents entries second middle in
  (final, (written ++ writes)%list).
Proof.
  revert state. induction first as [|[direction promptValue] first IH]; intros state; simpl.
  - by destruct (onCursorEvents entries second state).
  - destruct (onCursor entries direction promptValue state) as [moved written].
    rewrite IH. destruct (onCursorEvents entries first moved) as [middle writes].
    destruct (onCursorEvents entries second middle) as [final others].
    by rewrite app_assoc.
Qed.

Lemma onCursorEvents_empty events state : onCursorEvents [] events state = (state, []).
Proof.
  revert state. induction events as [|[direction promptValue] events IH]; intros state;
    simpl; [done|].
  by rewrite onCursor_empty, IH.
Qed.

Lemma presses_up_walk_back entries values index draft :
  entries ≠ [] → (index < length entries)%nat →
  ∃ writes,
    onCursorEvents entries (presses "up" values)
      {| historyIndex := Some index; draftValue := draft |} =
      ({| historyIndex := Some (index - length values)%nat; draftValue := draft |},
       writes) ∧
    length writes = length values ∧
    (values ≠ [] → last writes = entries !! (index - length values)%nat).
Proof.
  intros Hentries. revert index.
  induction values as [|promptValue values IH]; intros index Hindex.
  - exists []. simpl. by rewrite Nat.sub_0_r.
  - simpl. rewrite onCursor_up_at by done.
    destruct (IH (index - 1)%nat) as (writes & -> & Hlength & Hlast); [lia|].
    destruct (lookup_lt_is_Some_2 entries (index - 1)%nat) as [entry Hentry]; [lia|].
    rewrite Hentry. simpl. exists (entry :: writes).
    assert (index - 1 - length values = index - S (length values))%nat as Hplace by lia.
    rewrite Hplace in Hlast. rewrite Hplace.
    repeat split; [by rewrite <- Hlength|]. intros _.
    destruct values as [|next values].
    + destruct writes as [|other writes]; [|simpl in Hlength; lia].
      exact (eq_sym Hentry).
    + rewrite last_cons, Hlast by done.
      destruct (lookup_lt_is_Some_2 entries (index - S (length (next :: values)))%nat)
        as [oldest ->]; [lia|]. done.
Qed.

Lemma presses_down_idle entries values draft :
  onCursorEvents entries (presses "down" values)
    {| historyIndex := None; draftValue := draft |} =
  ({| historyIndex := None; draftValue := draft |}, []).
Proof.
  induction values as [|promptValue values IH]; [done|].
  simpl. by rewrite onCursor_down_idle, IH.
Qed.

Lemma presses_down_reach_draft entries values index draft :
  entries ≠ [] → (index < length entries)%nat →
  (length entries - index ≤ length values)%nat →
  ∃ writes,
    onCursorEvents entries (presses "down" values)
      {| historyIndex := Some index; draftValue := draft |} =
    ({| historyIndex := None; draftValue := draft |},
     (writes ++ [default "" draft])%list).
Proof.
  intros Hentries. revert index.
  induction values as [|promptValue values IH]; intros index Hindex Henough;
    [simpl in Henough; lia|].
  simpl. rewrite onCursor_down_at by done.
  destruct (Nat.ltb_spec index (length entries - 1)) as [Hbelow|Hlast].
  - destruct (IH (index + 1)%nat) as (writes & ->); [lia|simpl in Henough; lia|].
    destruct (lookup_lt_is_Some_2 entries (index + 1)%nat) as [entry ->]; [lia|].
    by exists (entry :: writes).
  - rewrite presses_down_idle. by exists [].
Qed.

(** X21.  Arrow up walks back through the history.  With no history the
    keys do nothing.  Otherwise the first press keeps what was typed as
    the draft and shows the newest entry, every further press shows the
    entry before, and once the oldest entry is reached it stays: after
    the presses the line holds the entry that many places from the end,
    or the oldest one. *)
Theorem history_up_walks_back_to_oldest entries typed others :
  (∀ events state, onCursorEvents [] events state = (state, [])) ∧
  (entries ≠ [] →
   ∃ writes,
     onCursorEvents entries (presses "up" (typed :: others)) freshHistory =
       ({| historyIndex := Some (length entries - 1 - length others)%nat;
           draftValue := Some (default "" typed) |},
        writes) ∧
     length writes = S (length others) ∧
     last writes = entries !! (length entries - 1 - length others)%nat ∧
     is_Some (last writes)).
Proof.
  split; [apply onCursorEvents_empty|]. intros Hentries.
  assert (0 < length entries)%nat as Hsome by (destruct entries; [done|simpl; lia]).
  simpl. unfold freshHistory. rewrite onCursor_up_fresh by done.
  destruct (presses_up_walk_back entries others (length entries - 1)%nat
              (Some (default "" typed)) Hentries)
    as (writes & -> & Hlength & Hlast); [lia|].
  destruct (lookup_lt_is_Some_2 entries (length entries - 1)%nat) as [newest Hnewest];
    [lia|].
  destruct (lookup_lt_is_Some_2 entries (length entries - 1 - length others)%nat)
    as [shown Hshown]; [lia|].
  rewrite Hnewest. simpl. exists (newest :: writes).
  split; [done|]. split; [simpl; by rewrite Hlength|].
  assert (last (newest :: writes) = entries !! (length entries - 1 - length others)%nat)
    as Hfinal.
  { destruct others as [|other others].
    - destruct writes as [|other writes]; [|simpl in Hlength; lia]. simpl.
      by rewrite Nat.sub_0_r, Hnewest.
    - rewrite last_cons, Hlast by done. by rewrite Hshown. }
  split; [done|]. rewrite Hfinal, Hshown. by eexists.
Qed.

(** X22.  Arrow down undoes arrow up.  After any number of presses of
    arrow up at a prompt with history, as many presses of arrow down
    leave the history behind: the line holds again what was typed before
    the first press, the empty text if there was none. *)
Theorem history_down_returns_to_draft entries typed others downs :
  entries ≠ [] → length downs = S (length others) →
  ∃ writes,
    onCursorEvents entries
      (presses "up" (typed :: others) ++ presses "down" downs) freshHistory =
      ({| historyIndex := None; draftValue := Some (default "" typed) |}, writes) ∧
    last writes = Some (default "" typed).
Proof.
  intros Hentries Hdowns.
  assert (0 < length entries)%nat as Hsome by (destruct entries; [done|simpl; lia]).
  rewrite onCursorEvents_app.
  change (presses "up" (typed :: others)) with
    ((Some "up", typed) :: presses "up" others).
  simpl onCursorEvents at 1. unfold freshHistory. rewrite onCursor_up_fresh by done.
  destruct (presses_up_walk_back entries others (length entries - 1)%nat
              (Some (default "" typed)) Hentries)
    as (writes & -> & _ & _); [lia|].
  destruct (presses_down_reach_draft entries downs
              (length entries - 1 - length others)%nat (Some (default "" typed))
              Hentries)
    as (later & ->); [lia|lia|].
  simpl default. eexists. split; [done|].
  by rewrite app_assoc, last_snoc.
Qed.

(** ** The window of the select prompt *)

Lemma visibleRows_Some maxItems size : visibleRows maxItems = Some size → (5 ≤ size)%Z.
Proof. destruct maxItems as [rows|]; [|done]. intros [= <-]. lia. Qed.

Lemma scrollWindow_Some size count cursor windowStart :
  (5 ≤ size)%Z → (0 ≤ cursor < count)%Z → (0 ≤ windowStart)%Z →
  let moved := scrollWindow (Some size) count cursor windowStart in
  (0 ≤ moved ≤ cursor)%Z ∧ (cursor < moved + size)%Z ∧
  (size < count → 0 < moved → moved < cursor)%Z ∧
  (size < count → moved + size < count → cursor < moved + size - 1)%Z ∧
  (windowStart = 0 ∨ windowStart + size ≤ count → moved = 0 ∨ moved + size ≤ count)%Z.
Proof.
  intros Hsize Hcursor Hstart. unfold scrollWindow. lazy zeta.
  destruct (Z.leb_spec (windowStart + size - 3) cursor);
    [|destruct (Z.ltb_spec cursor (windowStart + 2))]; lia.
Qed.

Lemma scrollWindow_None count cursor windowStart :
  (0 ≤ cursor)%Z → (0 ≤ windowStart)%Z →
  let moved := scrollWindow None count cursor windowStart in
  (0 ≤ moved ≤ cursor)%Z ∧ (windowStart = 0 → moved = 0)%Z.
Proof.
  intros Hcursor Hstart. unfold scrollWindow. lazy zeta.
  destruct (Z.ltb_spec cursor (windowStart + 2)); lia.
Qed.

(** X23.  The option under the cursor is always on screen.  Whatever the
    row limit and wherever the window stood, the rows laid out for a
    cursor on one of the options hold that option, drawn as the active
    one: the window is moved over the cursor, and the cursor never falls
    on a row given up to an ellipsis.  The lower bound of five rows on the
    limit is what makes room for this. *)
Theorem active_option_is_always_drawn {A} maxItems (options : list A) cursor windowStart
    active :
  options !! cursor = Some active →
  ∃ index,
    (renderRows maxItems options cursor windowStart).2 !! index =
    Some (Drawn active true).
Proof.
  intros Hactive. pose proof (lookup_lt_Some _ _ _ Hactive) as Hcursor.
  unfold renderRows. lazy zeta. cbn [snd].
  set (count := Z.of_nat (length options)).
  destruct (visibleRows maxItems) as [size|] eqn:Hrows.
  - apply visibleRows_Some in Hrows.
    destruct (scrollWindow_Some size count (Z.of_nat cursor) (Z.of_nat windowStart))
      as (Hmoved & Hpage & Habove & Hbelow & _); [done|lia|lia|].
    set (moved := scrollWindow (Some size) count (Z.of_nat cursor) (Z.of_nat windowStart))
      in *.
    set (shown := take (Z.to_nat size) (drop (Z.to_nat moved) options)).
    assert (length shown = Z.to_nat (Z.min size (count - moved))) as Hshown.
    { unfold shown. rewrite length_take, length_drop. lia. }
    assert (shown !! (cursor - Z.to_nat moved)%nat = Some active) as Hplace.
    { unfold shown. rewrite lookup_take_lt by lia. rewrite lookup_drop.
      by replace (Z.to_nat moved + (cursor - Z.to_nat moved))%nat with cursor by lia. }
    exists (cursor - Z.to_nat moved)%nat.
    rewrite list_lookup_imap, Hplace. simpl. f_equal.
    assert ((cursor - Z.to_nat moved =? 0)%nat && ((size <? count)%Z && (0 <? moved)%Z)
            = false) as ->.
    { destruct (Nat.eqb_spec (cursor - Z.to_nat moved) 0); [|done].
      destruct (Z.ltb_spec size count); [|done].
      destruct (Z.ltb_spec 0 moved); [|done]. lia. }
    assert ((cursor - Z.to_nat moved =? length shown - 1)%nat &&
            ((size <? count)%Z && (moved + size <? count)%Z) = false) as ->.
    { destruct (Nat.eqb_spec (cursor - Z.to_nat moved) (length shown - 1)); [|done].
      destruct (Z.ltb_spec size count); [|done].
      destruct (Z.ltb_spec (moved + size) count); [|done]. lia. }
    f_equal. apply Z.eqb_eq. lia.
  - destruct (scrollWindow_None count (Z.of_nat cursor) (Z.of_nat windowStart))
      as (Hmoved & _); [lia|lia|].
    set (moved := scrollWindow None count (Z.of_nat cursor) (Z.of_nat windowStart)) in *.
    exists (cursor - Z.to_nat moved)%nat.
    rewrite list_lookup_imap, lookup_drop.
    replace (Z.to_nat moved + (cursor - Z.to_nat moved))%nat with cursor by lia.
    rewrite Hactive. simpl. rewrite !andb_false_r. do 2 f_equal. apply Z.eqb_eq. lia.
Qed.

(** X24.  A scrolled window is a full window.  With a row limit, a window
    that starts at the top or ends within the options, as it does before
    the first rendering, is left by a rendering with the cursor on an
    option in such a place again, and the rows laid out are as many as the
    limit allows, at least five, or all the options when they are fewer.
    Without a limit the window stays at the top and every option is
    drawn, none given up to an ellipsis. *)
Theorem scrolled_window_stays_full {A} maxItems (options : list A) cursor windowStart :
  (cursor < length options)%nat →
  (∀ rows,
     maxItems = Some rows →
     let size := Z.to_nat (Z.max rows 5) in
     windowStart = 0%nat ∨ (windowStart + size ≤ length options)%nat →
     let '(moved, drawn) := renderRows maxItems options cursor windowStart in
     (moved = 0%nat ∨ (moved + size ≤ length options)%nat) ∧
     length drawn = min size (length options)) ∧
  (maxItems = None →
   renderRows maxItems options cursor 0 =
   (0%nat, imap (λ index option, Drawn option (index =? cursor)%nat) options)).
Proof.
  intros Hcursor. split.
  - intros rows -> size Hfits. unfold renderRows. lazy zeta. simpl visibleRows.
    set (count := Z.of_nat (length options)).
    destruct (scrollWindow_Some (Z.max rows 5) count (Z.of_nat cursor)
                (Z.of_nat windowStart))
      as (Hmoved & _ & _ & _ & Hkept); [lia|lia|lia|].
    set (moved := scrollWindow _ count (Z.of_nat cursor) (Z.of_nat windowStart)) in *.
    rewrite length_imap, length_take, length_drop. fold size.
    clearbody moved. unfold size, count in *. lia.
  - intros ->. unfold renderRows. lazy zeta. simpl visibleRows.
    destruct (scrollWindow_None (Z.of_nat (length options)) (Z.of_nat cursor)
                (Z.of_nat 0)) as (_ & Htop); [lia|lia|].
    rewrite Htop by done. simpl. f_equal. apply imap_ext. intros index option _.
    simpl. rewrite !andb_false_r. f_equal. rewrite Z.add_0_r.
    destruct (Nat.eqb_spec index cursor), (Z.eqb_spec (Z.of_nat index) (Z.of_nat cursor));
      try done; lia.
Qed.

(** ** Stored identities at the prompt *)

Lemma earlier_app {A} (first second : list Event) (r : Result A) :
  earlier first (earlier second r) = earlier (first ++ second) r.
Proof. destruct r; simpl; by rewrite app_assoc. Qed.

Lemma identityPick_step existing declared metadataOverrides response rest :
  promptForExistingIdentitySelection existing declared metadataOverrides
    (Answered response :: rest) =
  earlier [EvSelect existingIdentityMessage (existingIdentityChoices existing)]
    match identityPick existing response with
    | Some picked =>
        promptForIdentitySegments declared None metadataOverrides
          (toIdentitySegmentDefaults <$> picked) rest
    | None => promptForExistingIdentitySelection existing declared metadataOverrides rest
    end.
Proof.
  unfold identityPick. simpl.
  destruct (String.eqb response "__new__"); [done|].
  by destruct (find _ existing).
Qed.

(** X25.  The stored-identity prompt asks again until it gets an answer
    it knows, and what is picked is only a source of defaults.  After any
    number of answers that are neither [__new__] nor the slug of a stored
    identity, an answer that is one of these hands over to the segment
    prompts, with no overrides, and with the values of the picked
    identity as defaults or with none for a new identity; the question
    was shown once per answer read. *)
Theorem stored_identity_prompt_hands_over_defaults existing declared metadataOverrides
    unknown response picked rest :
  Forall (λ other, identityPick existing other = None) unknown →
  identityPick existing response = Some picked →
  promptForExistingIdentitySelection existing declared metadataOverrides
    (map Answered unknown ++ Answered response :: rest) =
  earlier
    (replicate (S (length unknown))
       (EvSelect existingIdentityMessage (existingIdentityChoices existing)))
    (promptForIdentitySegments declared None metadataOverrides
       (toIdentitySegmentDefaults <$> picked) rest).
Proof.
  intros Hunknown Hknown.
  induction Hunknown as [|other unknown Hother _ IH].
  - simpl map. simpl app. by rewrite identityPick_step, Hknown.
  - simpl map. rewrite <- app_comm_cons, identityPick_step, Hother, IH.
    by rewrite earlier_app.
Qed.

(** ** The resolver and the stored identities *)

Lemma normalizeIdentitySegmentOverrides_None overrides :
  existsb usableOverride (default [] overrides) = false →
  normalizeIdentitySegmentOverrides overrides = None.
Proof.
  destruct overrides as [entries|]; [|done]. simpl default. intros Hnone.
  rewrite normalizeIdentitySegmentOverrides_fold. lazy zeta.
  rewrite bool_decide_eq_true_2; [done|]. apply foldl_insert_empty.
  apply not_true_is_false. intros [entry [Hin Hstored]]%existsb_exists.
  unfold storedOverride in Hstored. apply andb_prop in Hstored as [Husable _].
  assert (existsb usableOverride entries = true) as Hsome; [|congruence].
  apply existsb_exists. by exists entry.
Qed.


Section ResolverAndStore.

Context `{NodePath} `{PromptPersistence}.

(** X26.  In a terminal, a run that gives neither a slug nor a usable
    override value consults the stored identities before it asks.  When
    the scan finds two or more, the operator picks among them.  When it
    finds one, the segment prompts are run with the values of that
    identity as defaults, so that a stored identity is confirmed rather
    than taken silently, whether or not it covers every declared segment;
    when it finds none, the segment prompts are run without defaults. *)
Theorem terminal_run_consults_stored_identities disk options declared log found script :
  scn_identity (ro_scenario options) = Some declared → declared ≠ [] →
  whenTruthy (ro_providedSlug options) = None →
  existsb usableOverride (default [] (ro_providedSegments options)) = false →
  ro_usingExternalAnswers options = false →
  ro_interactive options = true →
  collectPersistedIdentitySelections disk (ro_repoRoot options)
    (scn_id (ro_scenario options)) declared = (log, Ok found) →
  let details := normalizeIdentitySegmentMetadata (ro_providedSegmentDetails options) in
  resolveWizardIdentitySelection disk options script =
  earlier log
    (if (1 <? length found)%nat
     then asResolved (promptForExistingIdentitySelection found declared details) script
     else asResolved (promptForIdentitySegments declared None details
                        (toIdentitySegmentDefaults <$> soleIdentity found)) script).
Proof.
  intros Hidentity Hdeclared Hslug Hoverrides Hexternal Hinteractive Hscan details.
  unfold resolveWizardIdentitySelection. lazy zeta.
  rewrite Hidentity, Hslug, Hexternal, Hinteractive.
  rewrite (normalizeIdentitySegmentOverrides_None _ Hoverrides).
  destruct declared as [|segment declared]; [done|].
  fold details. unfold isTruthy. rewrite Hslug. simpl negb. simpl andb.
  unfold bindP at 1. unfold bindP at 1. unfold liftS. rewrite Hscan.
  unfold retP at 1. cbn [earlier]. rewrite app_nil_r, andb_true_r.
  destruct (1 <? length found)%nat; [done|]. f_equal.
  fold (soleIdentity found).
  destruct (buildLoop_accepted None details (soleIdentity found) (segment :: declared)
              [] []) as (resolved & Hloop & _).
  { apply forallb_forall. by intros candidate _. }
  unfold bindP at 1. unfold buildIdentitySelectionFromSources. rewrite Hloop.
  cbn [bindT liftT retP]. rewrite earlier_nil.
  destruct (soleIdentity found) as [only|]; simpl.
  - by destruct (List.filter _ declared), (covered None (Some only) segment).
  - done.
Qed.


End ResolverAndStore.

(** ** Values that do not survive a slug *)

Lemma split_append sep (first rest : string) :
  split sep (first +:+ String sep rest) = (split sep first ++ split sep rest)%list.
Proof.
  induction first as [|c first IH]; simpl.
  - by rewrite Ascii.eqb_refl.
  - destruct (Ascii.eqb c sep); [by rewrite IH|].
    rewrite IH. by destruct (split_pieces sep first) as (piece & pieces & ->).
Qed.

Lemma split_join_all (values : list string) :
  values ≠ [] → split "/" (join "/" values) = concat (map (split "/") values).
Proof.
  induction values as [|value values IH]; [done|]. intros _.
  destruct values as [|next values].
  - simpl. by rewrite app_nil_r.
  - rewrite join_cons.
    change ("/" +:+ join "/" (next :: values)) with (String "/" (join "/" (next :: values))).
    rewrite split_append, IH by done. reflexivity.
Qed.

Lemma slugParts_join_all (values : list string) :
  slugParts (join "/" values) = concat (map slugParts values).
Proof.
  unfold slugParts. destruct values as [|value values]; [done|].
  rewrite split_join_all by done.
  induction (value :: values) as [|first more IH]; [done|].
  simpl. rewrite map_app, List.filter_app. by rewrite IH.
Qed.

Lemma length_concat_parts_le (values : list string) :
  Forall (λ value, slugParts value ≠ []) values →
  (length values ≤ length (concat (map slugParts values)))%nat.
Proof.
  induction 1 as [|value values Hvalue _ IH]; [done|].
  simpl. rewrite length_app. destruct (slugParts value); [done|]. simpl. lia.
Qed.

Lemma length_concat_parts (values : list string) :
  Forall (λ value, slugParts value ≠ []) values →
  Exists (λ value, (1 < length (slugParts value))%nat) values →
  (length values < length (concat (map slugParts values)))%nat.
Proof.
  intros Hsome Hseveral.
  induction Hseveral as [value values Hvalue|value values _ IH];
    inversion_clear Hsome as [|? ? Hhere Hrest]; simpl; rewrite length_app.
  - pose proof (length_concat_parts_le values Hrest). lia.
  - specialize (IH Hrest). destruct (slugParts value); [done|]. simpl. lia.
Qed.

(** X28.  A value with a slash inside does not survive a slug.  When the
    slug of a selection with one segment per declared segment is the
    join of its values, every value has something other than slashes and
    white space in it, and some value falls apart into two or more parts
    at its slashes, [parseIdentitySlug] rejects that slug: it counts more
    parts than there are declared segments. *)
Theorem slug_of_value_with_slash_is_rejected chosen declared :
  slugDerivable chosen →
  length (segments chosen) = length declared →
  Forall (λ segment, slugParts (sel_value segment) ≠ []) (segments chosen) →
  Exists (λ segment, (1 < length (slugParts (sel_value segment)))%nat) (segments chosen) →
  (length declared < length (slugParts (slug chosen)))%nat ∧
  parseIdentitySlug (slug chosen) declared =
    Throw (Error (segmentCountMismatchMessage (length declared)
                    (length (slugParts (slug chosen))))).
Proof.
  intros Hslug Hlength Hsome Hseveral.
  assert (length declared < length (slugParts (slug chosen)))%nat as Hmore.
  { rewrite Hslug, slugParts_join_all, <- Hlength.
    rewrite <- (length_map sel_value (segments chosen)).
    apply length_concat_parts.
    - by apply Forall_map.
    - by apply Exists_fmap. }
  split; [done|]. apply parseIdentitySlug_mismatch. lia.
Qed.

(** ** Further properties on the sample scenario *)

Section MoreOnSamples.

#[local] Existing Instances Sample.posix Sample.freshStore.

Lemma slug_of_safe_values_parses_back_witness :
  ∃ parsed,
    parseIdentitySlug "maintenance/daily" [Sample.category; Sample.cadence] = Ok parsed ∧
    map sel_value (segments parsed) = ["maintenance"; "daily"] ∧
    map sel_id (segments parsed) = ["category"; "cadence"] ∧
    slug parsed = "maintenance/daily".
Proof.
  apply (slug_of_safe_values_parses_back Sample.dailySnapshot
           [Sample.category; Sample.cadence]);
    [reflexivity|reflexivity|by repeat constructor].
Defined.

Lemma parsed_slug_is_canonical_witness :
  Forall (λ segment, slugSafe (sel_value segment) = true) (segments Sample.dailySnapshot) ∧
  parseIdentitySlug "maintenance/daily" [Sample.category; Sample.cadence] =
    Ok Sample.dailySnapshot.
Proof.
  apply (parsed_slug_is_canonical " maintenance / daily/"
           [Sample.category; Sample.cadence] Sample.dailySnapshot).
  reflexivity.
Defined.

Lemma resolver_without_declared_identity_witness :
  resolveWizardIdentitySelection Sample.staleDisk Sample.blankOverride [Answered "daily"] =
    Done None [Answered "daily"] [] ∧
  resolveWizardIdentitySelection Sample.staleDisk Sample.protoOverride [Answered "daily"] =
    Done None [Answered "daily"] [].
Proof.
  split.
  - exact (resolver_without_declared_identity Sample.staleDisk Sample.blankOverride
             [Answered "daily"] (or_introl eq_refl)).
  - exact (resolver_without_declared_identity Sample.staleDisk Sample.protoOverride
             [Answered "daily"] (or_introl eq_refl)).
Defined.

Lemma normalized_metadata_is_last_usable_entry_witness :
  metadataOf (normalizeIdentitySegmentMetadata
                (Some [(" cadence ", Sample.cadenceMetadata)])) "cadence" =
  Some Sample.cadenceMetadata.
Proof.
  exact (proj2 (proj2 (normalized_metadata_is_last_usable_entry
                         (Some [(" cadence ", Sample.cadenceMetadata)]) Sample.cadence))
           eq_refl).
Defined.

(** An override value under the key [__proto__] leaves nothing behind. *)
Lemma proto_override_is_dropped :
  normalizeIdentitySegmentOverrides (Some [(" __proto__ ", "x")]) = None ∧
  normalizeIdentitySegmentOverrides (Some [(" __proto__ ", "x"); ("cadence", " daily ")]) =
    Some {[ "cadence" := "daily" ]}.
Proof. split; reflexivity. Qed.

(** A metadata entry under [__proto__] becomes the prototype of the
    record: alone it leaves no key and the record counts as empty; next
    to another entry its label answers to the id [label], a string that
    overrides nothing, and its details answer to the id [details]. *)
Lemma proto_metadata_is_inherited :
  normalizeIdentitySegmentMetadata (Some [("__proto__", Sample.cadenceMetadata)]) = None ∧
  let normalized :=
    normalizeIdentitySegmentMetadata
      (Some [("__proto__", Sample.cadenceMetadata); ("cadence", Sample.cadenceMetadata)]) in
  metadataOf normalized "cadence" = Some Sample.cadenceMetadata ∧
  metadataOf normalized "label" = Some {| md_label := None; md_details := None |} ∧
  metadataOf normalized "details" = Some {| md_label := None; md_details := None |} ∧
  metadataOf normalized "window" = None.
Proof. repeat split; reflexivity. Qed.

Lemma external_answers_resolve_without_disk_witness :
  resolveWizardIdentitySelection Sample.staleDisk Sample.externalRun [Answered "daily"] =
  Done None [Answered "daily"] [].
Proof.
  rewrite (external_answers_resolve_without_disk Sample.staleDisk Sample.externalRun
             [Sample.category; Sample.cadence] [Answered "daily"])
    by (reflexivity || discriminate).
  reflexivity.
Defined.


Lemma overridden_segments_are_not_prompted_witness :
  ∃ chosen,
    map sel_value (segments chosen) = ["maintenance"; "weekly"] ∧
    promptForIdentitySegments [Sample.category; Sample.cadence]
      (Some {[ "category" := "maintenance"; "cadence" := "weekly" ]}) None None
      [Answered "daily"] = Done chosen [Answered "daily"] [].
Proof.
  pose proof (overridden_segments_are_not_prompted [Sample.category; Sample.cadence]
                (Some {[ "category" := "maintenance"; "cadence" := "weekly" ]}) None None
                [Answered "daily"] eq_refl) as Hasked.
  destruct (buildIdentitySelectionFromSources _ _ _ _) as [resolution|e] eqn:Hbuilt;
    [|vm_compute in Hbuilt; discriminate].
  destruct Hasked as (chosen & -> & Hasked). exists chosen. split; [|exact Hasked].
  vm_compute in Hbuilt. by injection Hbuilt as <-.
Defined.

Lemma listed_choice_resolves_to_option_witness :
  ∃ declaredOptions,
    seg_options Sample.cadence = Some declaredOptions ∧
    promptForIdentitySegment Sample.cadence ∅ None None [Answered "weekly"] =
    Done Sample.weekly []
      [EvSelect "Select cadence" (segmentChoices declaredOptions false None)].
Proof.
  apply (listed_choice_resolves_to_option Sample.cadence ∅ None None "weekly"
           Sample.weeklyOption []); (reflexivity || discriminate).
Defined.

Lemma custom_value_is_trimmed_and_not_blank_witness :
  ∃ log,
    promptForCustomIdentityValue Sample.window ∅ None [Answered "   "] =
    Raised (Error ("Identity segment " +:+ dquote +:+ "window" +:+ dquote +:+
                   " requires a value."))
           [] log.
Proof.
  apply (proj2 (custom_value_is_trimmed_and_not_blank Sample.window ∅ None) "   " []).
  reflexivity.
Defined.

Lemma strategy_prompt_asks_until_recognised_witness :
  promptForPersistedAnswersStrategy "/repo/saved.json"
    [Answered "maybe"; Answered ""; Answered "review"; Answered "reset"] =
  Done StrategyReview [Answered "reset"]
    (replicate 3 (EvSelect (strategyMessage "/repo/saved.json") strategyChoices)).
Proof.
  apply (strategy_prompt_asks_until_recognised "/repo/saved.json" ["maybe"; ""] "review"
           StrategyReview [Answered "reset"]); [by repeat constructor|reflexivity].
Defined.

Lemma segment_choices_keep_options_and_lead_with_default_witness :
  ∃ first,
    head (segmentChoices [Sample.weeklyOption] true (Some "nightly")) = Some first ∧
    (so_value first = "nightly" ∨ first = savedChoice "nightly").
Proof.
  apply (proj2 (segment_choices_keep_options_and_lead_with_default [Sample.weeklyOption]
                  true (Some "nightly")) "nightly"); [reflexivity|by left].
Defined.

Lemma scan_reads_in_order_until_a_read_fails_witness :
  readSnapshots [Sample.category]
    [Sample.vanishedFile; Sample.lockedFile; Sample.brokenFile] [] =
  ([readEvent Sample.vanishedFile; readEvent Sample.lockedFile],
   Throw (ErrnoException EACCES (af_path Sample.lockedFile))).
Proof.
  apply (proj2 (scan_reads_in_order_until_a_read_fails [Sample.category]
                  [Sample.vanishedFile; Sample.lockedFile; Sample.brokenFile] [])
           [Sample.vanishedFile] Sample.lockedFile [Sample.brokenFile] EACCES);
    (reflexivity || discriminate).
Defined.

Lemma walk_lists_json_files_without_reading_witness :
  ∃ node files,
    Sample.staleDisk "/repo/.dev-wizard/answers/identity-demo" = Some node ∧
    (collectIdentityAnswerFilesAt Sample.staleDisk
       "/repo/.dev-wizard/answers/identity-demo").2 = Ok files ∧
    length files = 3%nat ∧
    Forall (jsonFileOf node) files.
Proof.
  destruct (walk_lists_json_files_without_reading Sample.staleDisk
              "/repo/.dev-wizard/answers/identity-demo") as [_ Hfiles].
  eexists _, _. split; [reflexivity|]. split; [reflexivity|]. split; [reflexivity|].
  exact (Hfiles _ eq_refl).
Defined.

Lemma stored_identity_is_recovered_witness :
  recoverIdentitySelection Sample.scenario Sample.dailyManager = Some Sample.dailySnapshot.
Proof.
  exact (stored_identity_is_recovered Sample.scenario [Sample.category; Sample.cadence]
           Sample.dailyManager "identity-demo" Sample.dailySnapshot eq_refl
           ltac:(discriminate) eq_refl).
Defined.

Lemma answers_name_is_asked_only_when_free_witness :
  assignAnswersAddress "/repo" Sample.scenario Sample.plainRun true None
    [Answered "  nightly "] =
  Done (inr ("nightly", None)) []
    [EvText aliasPromptMessage (Some "identity-demo") (Some "identity-demo")].
Proof.
  apply (proj2 (proj2 (answers_name_is_asked_only_when_free "/repo" Sample.scenario
                         Sample.plainRun true [] eq_refl)));
    (reflexivity || discriminate).
Defined.

Lemma prefilled_value_is_never_empty_witness :
  truthy "weekly-maintenance" = true ∧
  (None = Some "weekly-maintenance" ∨
   ∃ template,
     seg_defaultValue Sample.window = Some template ∧
     renderIdentityDefaultTemplate template {[ "cadence" := Sample.weekly ]} =
       Some "weekly-maintenance").
Proof.
  apply (prefilled_value_is_never_empty Sample.window {[ "cadence" := Sample.weekly ]}
           None [] "Name the maintenance window" None "weekly-maintenance" []).
  reflexivity.
Defined.

Lemma execution_metadata_prefers_options_witness :
  (∃ metadata,
     resolveExecutionMetadata Sample.sandboxOn Sample.noExecutionOptions = Some metadata ∧
     sandbox metadata = Some true) ∧
  (∀ metadata,
     resolveExecutionMetadata Sample.sandboxOff Sample.noExecutionOptions = Some metadata →
     sandbox metadata = None) ∧
  (∃ metadata,
     resolveExecutionMetadata Sample.sandboxOff Sample.noExecutionOptions = Some metadata ∧
     sandboxSlug metadata = Some "demo").
Proof.
  split; [|split].
  - by apply (proj1 (proj2 (execution_metadata_prefers_options Sample.sandboxOn
                              Sample.noExecutionOptions))).
  - by apply (proj1 (proj2 (proj2 (execution_metadata_prefers_options Sample.sandboxOff
                                     Sample.noExecutionOptions)))).
  - apply (proj1 (proj2 (proj2 (proj2 (proj2 (execution_metadata_prefers_options
                                                Sample.sandboxOff
                                                Sample.noExecutionOptions)))))).
    + by intros text.
    + by exists " demo ".
Defined.

Lemma history_up_walks_back_to_oldest_witness :
  ∃ writes,
    onCursorEvents Sample.pastAnswers
      (presses "up" [Some "dra"; Some "third"; Some "second"; Some "first"]) freshHistory =
      ({| historyIndex := Some 0%nat; draftValue := Some "dra" |}, writes) ∧
    length writes = 4%nat ∧
    last writes = Some "first" ∧
    is_Some (last writes).
Proof.
  apply (proj2 (history_up_walks_back_to_oldest Sample.pastAnswers (Some "dra")
                  [Some "third"; Some "second"; Some "first"])).
  discriminate.
Defined.

Lemma history_down_returns_to_draft_witness :
  ∃ writes,
    onCursorEvents Sample.pastAnswers
      (presses "up" [Some "dra"; Some "third"] ++
       presses "down" [Some "second"; Some "third"]) freshHistory =
      ({| historyIndex := None; draftValue := Some "dra" |}, writes) ∧
    last writes = Some "dra".
Proof.
  apply (history_down_returns_to_draft Sample.pastAnswers (Some "dra") [Some "third"]
           [Some "second"; Some "third"]); [discriminate|reflexivity].
Defined.

Lemma active_option_is_always_drawn_witness :
  ∃ index,
    (renderRows (Some 3%Z) Sample.tenOptions 1 0).2 !! index = Some (Drawn "b" true).
Proof.
  apply (active_option_is_always_drawn (Some 3%Z) Sample.tenOptions 1 0 "b").
  reflexivity.
Defined.

Lemma scrolled_window_stays_full_witness :
  let '(moved, drawn) := renderRows (Some 3%Z) Sample.tenOptions 7 0 in
  (moved = 0%nat ∨ (moved + 5 ≤ 10)%nat) ∧ length drawn = 5%nat.
Proof.
  apply (proj1 (scrolled_window_stays_full (Some 3%Z) Sample.tenOptions 7 0
                  ltac:(simpl; lia)) 3%Z eq_refl).
  by left.
Defined.

Lemma stored_identity_prompt_hands_over_defaults_witness :
  promptForExistingIdentitySelection [Sample.dailySnapshot]
    [Sample.category; Sample.cadence] None
    [Answered "maintenance"; Answered "maintenance/daily"; Answered "maintenance"] =
  earlier
    (replicate 2
       (EvSelect existingIdentityMessage (existingIdentityChoices [Sample.dailySnapshot])))
    (promptForIdentitySegments [Sample.category; Sample.cadence] None None
       (Some (toIdentitySegmentDefaults Sample.dailySnapshot)) [Answered "maintenance"]).
Proof.
  apply (stored_identity_prompt_hands_over_defaults [Sample.dailySnapshot]
           [Sample.category; Sample.cadence] None ["maintenance"] "maintenance/daily"
           (Some Sample.dailySnapshot) [Answered "maintenance"]);
    [by repeat constructor|reflexivity].
Defined.

Lemma terminal_run_consults_stored_identities_witness :
  resolveWizardIdentitySelection Sample.staleDisk Sample.terminalRun
    [Answered "maintenance"] =
  earlier
    (collectPersistedIdentitySelections Sample.staleDisk "/repo" "identity-demo"
       [Sample.category]).1
    (asResolved
       (promptForIdentitySegments [Sample.category] None None
          (Some (toIdentitySegmentDefaults Sample.staleSelection)))
       [Answered "maintenance"]).
Proof.
  apply (terminal_run_consults_stored_identities Sample.staleDisk Sample.terminalRun
           [Sample.category] _ [Sample.staleSelection] [Answered "maintenance"]);
    (reflexivity || discriminate).
Defined.


Lemma slug_of_value_with_slash_is_rejected_witness :
  (2 < length (slugParts "maintenance/a/b"))%nat ∧
  parseIdentitySlug "maintenance/a/b" [Sample.category; Sample.window] =
    Throw (Error (segmentCountMismatchMessage 2 3)).
Proof.
  apply (slug_of_value_with_slash_is_rejected Sample.slashedSelection
           [Sample.category; Sample.window]).
  - reflexivity.
  - reflexivity.
  - repeat constructor; by vm_compute.
  - apply Exists_cons_tl, Exists_cons_hd. vm_compute. lia.
Defined.

End MoreOnSamples.
